(** * The FreeRTOS task scheduler of OpenWSN (kernel/freertos/scheduler.c)

    A shallow embedding of the scheduler: the fixed pool of task containers
    [taskBuf], the priority-ordered linked list [task_list] threaded through
    it, the three semaphores that wake the three worker tasks, and the
    functions [scheduler_push_task], [scheduler_push_task_internal],
    [scheduler_find_next_task_and_execute] and [scheduler_executeTask].
    The start-up code [scheduler_init] and [scheduler_createSem] is embedded
    over the handles of [rtos_sched_v] and the answers of the kernel.

    Pointers into the pool are slot indices, [NULL] is [None].  The C code is
    written in a small state monad over the memory of the module, so that
    every load and store of the source is one monadic step. *)

From stdpp Require Import base option list numbers sorting.
From Stdlib Require Import ZArith NArith Lia.

Set Default Proof Using "Type".
Local Open Scope Z_scope.

(** ** Data model *)

(** [task_cbt] is a pointer to a function without arguments or result; a
    callback is identified by its address and [NULL] is
    [None : option task_cbt]. *)
Definition task_cbt := nat.

(** [task_prio_t] is an enumeration of small unsigned values; lower is more
    urgent. *)
Definition task_prio_t := N.

(** [taskList_item_t*]: [None] is [NULL], [Some i] is [&scheduler_vars.taskBuf[i]]. *)
Definition item_ptr := option nat.

Record taskList_item_t := mk_item {
  cb   : option task_cbt;
  prio : task_prio_t;
  next : item_ptr
}.

Record scheduler_vars_t := mk_vars {
  taskBuf   : list taskList_item_t;
  task_list : item_ptr
}.

Record scheduler_dbg_t := mk_dbg {
  numTasksCur : Z;
  numTasksMax : Z
}.

(** The binary semaphores of [rtos_sched_v_t]; [true] is "given".  The mutex
    [xStackLock] and the task handles are never used after [scheduler_init]
    (the lock macros are commented out in the source). *)
Record rtos_sched_v_t := mk_rtos {
  xAppSem      : bool;
  xSendDoneSem : bool;
  xRxSem       : bool
}.

(** Accesses that C leaves undefined.  They are recorded, a load returns the
    unspecified contents [wild] and a store is dropped. *)
Inductive violation :=
  | Invalid_load (p : item_ptr)
  | Invalid_store (p : item_ptr)
  | Null_call.

(** The memory of the module together with two observation traces: the
    callbacks invoked so far (with the priority they were queued under, oldest
    first) and the undefined accesses performed so far. *)
Record machine := mk_machine {
  scheduler_vars : scheduler_vars_t;
  scheduler_dbg  : scheduler_dbg_t;
  rtos_sched_v   : rtos_sched_v_t;
  executed       : list (task_cbt * task_prio_t);
  violations     : list violation
}.

(** [taskList_item_t**]: the address of [scheduler_vars.task_list] or of the
    [next] field of an item. *)
Inductive link :=
  | L_task_list
  | L_next (p : item_ptr).

Inductive semaphore := AppSem | SendDoneSem | RxSem.

(** What is not declared in scheduler.c: the constants of scheduler.h, the
    width of the debug counters, and what a load through an invalid pointer
    returns on the target. *)
Class Platform := mk_platform {
  TASK_LIST_DEPTH : nat;
  TASKPRIO_NONE   : task_prio_t;
  TASKPRIO_MAX    : task_prio_t;
  (** [2^w] for the [w]-bit unsigned type of [numTasksCur] and [numTasksMax] *)
  DBG_MODULUS     : Z;
  wild            : taskList_item_t
}.

(** A sample configuration on which the model is evaluated. *)
Definition sample_platform : Platform :=
  {| TASK_LIST_DEPTH := 10;
     TASKPRIO_NONE   := 0%N;
     TASKPRIO_MAX    := 12%N;
     DBG_MODULUS     := 256;
     wild            := mk_item (Some 99%nat) 5%N (Some 3%nat) |}.

(** A second one with a pool of three containers. *)
Definition tiny_platform : Platform :=
  {| TASK_LIST_DEPTH := 3;
     TASKPRIO_NONE   := 0%N;
     TASKPRIO_MAX    := 12%N;
     DBG_MODULUS     := 256;
     wild            := mk_item None 2%N None |}.

Definition SCHEDULER_STACK_PRIO_BOUNDARY : task_prio_t := 4%N.
Definition SCHEDULER_SENDDONETIMER_PRIO_BOUNDARY : task_prio_t := 8%N.
Definition SCHEDULER_APP_PRIO_BOUNDARY `{Platform} : task_prio_t := TASKPRIO_MAX.

(** ** Field updates *)

Definition set_cb (v : option task_cbt) (s : taskList_item_t) :=
  mk_item v (prio s) (next s).
Definition set_prio (v : task_prio_t) (s : taskList_item_t) :=
  mk_item (cb s) v (next s).
Definition set_next (v : item_ptr) (s : taskList_item_t) :=
  mk_item (cb s) (prio s) v.

Definition with_vars (v : scheduler_vars_t) (m : machine) :=
  mk_machine v (scheduler_dbg m) (rtos_sched_v m) (executed m) (violations m).
Definition with_dbg (d : scheduler_dbg_t) (m : machine) :=
  mk_machine (scheduler_vars m) d (rtos_sched_v m) (executed m) (violations m).
Definition with_rtos (r : rtos_sched_v_t) (m : machine) :=
  mk_machine (scheduler_vars m) (scheduler_dbg m) r (executed m) (violations m).
Definition with_executed (e : list (task_cbt * task_prio_t)) (m : machine) :=
  mk_machine (scheduler_vars m) (scheduler_dbg m) (rtos_sched_v m) e (violations m).
Definition flag (v : violation) (m : machine) :=
  mk_machine (scheduler_vars m) (scheduler_dbg m) (rtos_sched_v m) (executed m)
             (violations m ++ [v]).

Definition with_taskBuf (b : list taskList_item_t) (m : machine) :=
  with_vars (mk_vars b (task_list (scheduler_vars m))) m.
Definition with_task_list (p : item_ptr) (m : machine) :=
  with_vars (mk_vars (taskBuf (scheduler_vars m)) p) m.

(** ** The monad of the C code *)

(** A call returns normally ([Done]), ends in [board_reset] ([Reset]), leaves
    the caller suspended on a semaphore ([Blocked]), or is still in a loop
    when the fuel of the model is used up ([OutOfFuel]). *)
Inductive outcome (A : Type) :=
  | Done (a : A) (m : machine)
  | Reset (m : machine)
  | Blocked (m : machine)
  | OutOfFuel.
Arguments Done {A} a m.
Arguments Reset {A} m.
Arguments Blocked {A} m.
Arguments OutOfFuel {A}.

Definition M (A : Type) := machine -> outcome A.

Definition ret {A} (a : A) : M A := fun m => Done a m.

Definition bind {A B} (c : M A) (k : A -> M B) : M B := fun m =>
  match c m with
  | Done a m' => k a m'
  | Reset m' => Reset m'
  | Blocked m' => Blocked m'
  | OutOfFuel => OutOfFuel
  end.

Declare Scope sched_scope.
Delimit Scope sched_scope with sched.
Notation "'let*' x ':=' c 'in' k" := (bind c (fun x => k))
  (at level 10, x pattern, c at level 100, k at level 200) : sched_scope.
Notation "c ;; k" := (bind c (fun _ => k))
  (at level 100, k at level 200, right associativity) : sched_scope.
Local Open Scope sched_scope.

Definition is_non_null (p : item_ptr) : bool :=
  match p with Some _ => true | None => false end.
Definition is_non_null_cb (c : option task_cbt) : bool :=
  match c with Some _ => true | None => false end.

Section Scheduler.
Context `{P : Platform}.

(** ** Loads and stores *)

Definition load (p : item_ptr) : M taskList_item_t := fun m =>
  match p with
  | Some i =>
      match taskBuf (scheduler_vars m) !! i with
      | Some s => Done s m
      | None => Done wild (flag (Invalid_load p) m)
      end
  | None => Done wild (flag (Invalid_load p) m)
  end.

Definition store (p : item_ptr) (f : taskList_item_t -> taskList_item_t) : M unit :=
  fun m =>
  match p with
  | Some i =>
      match taskBuf (scheduler_vars m) !! i with
      | Some s => Done tt (with_taskBuf (<[i := f s]> (taskBuf (scheduler_vars m))) m)
      | None => Done tt (flag (Invalid_store p) m)
      end
  | None => Done tt (flag (Invalid_store p) m)
  end.

(** [p->cb], [p->prio], [p->next] *)
Definition load_cb (p : item_ptr) : M (option task_cbt) :=
  let* s := load p in ret (cb s).
Definition load_prio (p : item_ptr) : M task_prio_t :=
  let* s := load p in ret (prio s).
Definition load_next (p : item_ptr) : M item_ptr :=
  let* s := load p in ret (next s).

(** [*w] and [*w = v] for [w : taskList_item_t**] *)
Definition load_link (w : link) : M item_ptr :=
  match w with
  | L_task_list => fun m => Done (task_list (scheduler_vars m)) m
  | L_next p => load_next p
  end.
Definition store_link (w : link) (v : item_ptr) : M unit :=
  match w with
  | L_task_list => fun m => Done tt (with_task_list v m)
  | L_next p => store p (set_next v)
  end.

(** ** The collaborators at the boundary *)

(** [p->cb()]: the callback is protocol code outside the scheduler; the call
    is recorded in [executed] and is taken to leave the memory of the
    scheduler alone.  A call through [NULL] is recorded as a violation. *)
Definition call (p : item_ptr) : M unit :=
  let* s := load p in
  match cb s with
  | Some c => fun m => Done tt (with_executed (executed m ++ [(c, prio s)]) m)
  | None => fun m => Done tt (flag Null_call m)
  end.

(** Modelled from the spec: [board_reset] (board.h, not among the sources)
    is a full-system reset that never returns. *)
Definition board_reset : M unit := fun m => Reset m.

(** [leds_error_blink] only drives a LED. *)
Definition leds_error_blink : M unit := ret tt.

Definition scheduler_handleErrror : M unit :=
  (* blink the error LED *)
  leds_error_blink ;;
  (* reset the board *)
  board_reset.

(** Modelled from the spec: the FreeRTOS semaphores are binary signals with a
    single pending count; giving raises the signal, taking consumes it or
    suspends the caller. *)
Definition sem_value (x : semaphore) (m : machine) : bool :=
  match x with
  | AppSem => xAppSem (rtos_sched_v m)
  | SendDoneSem => xSendDoneSem (rtos_sched_v m)
  | RxSem => xRxSem (rtos_sched_v m)
  end.
Definition sem_set (x : semaphore) (v : bool) (m : machine) : machine :=
  let r := rtos_sched_v m in
  match x with
  | AppSem => with_rtos (mk_rtos v (xSendDoneSem r) (xRxSem r)) m
  | SendDoneSem => with_rtos (mk_rtos (xAppSem r) v (xRxSem r)) m
  | RxSem => with_rtos (mk_rtos (xAppSem r) (xSendDoneSem r) v) m
  end.
Definition xSemaphoreGiveFromISR (x : semaphore) : M unit :=
  fun m => Done tt (sem_set x true m).
Definition xSemaphoreTake (x : semaphore) : M unit :=
  fun m => if sem_value x m then Done tt (sem_set x false m) else Blocked m.

(** [portYIELD] and the LED toggles do not touch the memory of the module. *)
Definition portYIELD : M unit := ret tt.
Definition leds_toggle : M unit := ret tt.

(** ** scheduler_push_task_internal *)

(** The loop that looks for an empty container: [taskContainer->cb] is read
    before the pointer is compared with the last element. *)
Fixpoint find_container (fuel : nat) (taskContainer : nat) : M nat :=
  match fuel with
  | O => fun _ => OutOfFuel
  | S fuel' =>
      let* c := load_cb (Some taskContainer) in
      if is_non_null_cb c
         && (Z.of_nat taskContainer <=? Z.of_nat TASK_LIST_DEPTH - 1)
      then find_container fuel' (S taskContainer)
      else ret taskContainer
  end.

(** The loop that finds the position in the queue. *)
Fixpoint find_position (fuel : nat) (taskContainer : item_ptr)
    (taskListWalker : link) : M link :=
  match fuel with
  | O => fun _ => OutOfFuel
  | S fuel' =>
      let* w := load_link taskListWalker in
      if is_non_null w then
        let* pw := load_prio w in
        let* pc := load_prio taskContainer in
        if (pw <? pc)%N
        then find_position fuel' taskContainer (L_next w)
        else ret taskListWalker
      else ret taskListWalker
  end.

Definition dbg_increment : M unit := fun m =>
  let cur := (numTasksCur (scheduler_dbg m) + 1) mod DBG_MODULUS in
  let mx := numTasksMax (scheduler_dbg m) in
  Done tt (with_dbg (mk_dbg cur (if mx <? cur then cur else mx)) m).

Definition dbg_decrement : M unit := fun m =>
  let cur := (numTasksCur (scheduler_dbg m) - 1) mod DBG_MODULUS in
  Done tt (with_dbg (mk_dbg cur (numTasksMax (scheduler_dbg m))) m).

Definition loop_fuel (m : machine) : nat :=
  S (length (taskBuf (scheduler_vars m))).

Definition scheduler_push_task_internal (cb0 : option task_cbt)
    (prio0 : task_prio_t) : M unit :=
  (* find an empty task container *)
  let* i := find_container (S TASK_LIST_DEPTH) 0 in
  (if Z.of_nat TASK_LIST_DEPTH - 1 <? Z.of_nat i
   then scheduler_handleErrror else ret tt) ;;
  let taskContainer := Some i in
  (* fill that task container with this task *)
  store taskContainer (set_cb cb0) ;;
  store taskContainer (set_prio prio0) ;;
  (* find position in queue *)
  let* taskListWalker :=
    (fun m => find_position (loop_fuel m) taskContainer L_task_list m) in
  (* insert at that position *)
  let* w := load_link taskListWalker in
  store taskContainer (set_next w) ;;
  store_link taskListWalker taskContainer ;;
  (* maintain debug stats *)
  dbg_increment.

(** ** scheduler_push_task *)

Definition scheduler_push_task (cb0 : option task_cbt) (prio0 : task_prio_t)
    : M unit :=
  scheduler_push_task_internal cb0 prio0 ;;
  (if (prio0 <=? SCHEDULER_STACK_PRIO_BOUNDARY)%N then
     xSemaphoreGiveFromISR RxSem
   else if (SCHEDULER_STACK_PRIO_BOUNDARY <? prio0)%N
           && (prio0 <=? SCHEDULER_SENDDONETIMER_PRIO_BOUNDARY)%N then
     xSemaphoreGiveFromISR SendDoneSem
   else if (SCHEDULER_SENDDONETIMER_PRIO_BOUNDARY <? prio0)%N
           && (prio0 <=? SCHEDULER_APP_PRIO_BOUNDARY)%N then
     xSemaphoreGiveFromISR AppSem
   else
     scheduler_handleErrror) ;;
  portYIELD.

(** ** scheduler_executeTask *)

Definition scheduler_executeTask (pThisTask : item_ptr) : M unit :=
  (* execute the current task *)
  call pThisTask ;;
  (* free up this task container *)
  store pThisTask (set_cb None) ;;
  store pThisTask (set_prio TASKPRIO_NONE) ;;
  store pThisTask (set_next None) ;;
  (* update debug stats *)
  dbg_decrement.

(** ** scheduler_find_next_task_and_execute *)

(** [p->prio >= minprio && p->prio < maxprio]; the second load happens only
    when the first comparison holds. *)
Definition prio_in_band (minprio maxprio : task_prio_t) (p : item_ptr) : M bool :=
  let* a := load_prio p in
  if (minprio <=? a)%N then
    let* b := load_prio p in ret (b <? maxprio)%N
  else ret false.

(** The loop that moves through the list: the priority of [pThisTask] is
    read before [pThisTask] is compared with [NULL]. *)
Fixpoint search_band (fuel : nat) (minprio maxprio : task_prio_t)
    (prevTask : link) (pThisTask : item_ptr) : M (link * item_ptr) :=
  match fuel with
  | O => fun _ => OutOfFuel
  | S fuel' =>
      let* b := prio_in_band minprio maxprio pThisTask in
      if negb b && is_non_null pThisTask then
        (* advance both prev and thistask *)
        let* q := load_link prevTask in
        let prevTask' := L_next q in
        let* q' := load_link prevTask' in
        let* n := load_next q' in
        search_band fuel' minprio maxprio prevTask' n
      else ret (prevTask, pThisTask)
  end.

Definition scheduler_find_next_task_and_execute (minprio maxprio : task_prio_t)
    (pThisTask : item_ptr) : M bool :=
  let* head := load_link L_task_list in
  if is_non_null head then
    (* start searching by the task at the head of the queue *)
    let prevTask := L_task_list in
    let* first := load_link prevTask in
    let* b := prio_in_band minprio maxprio first in
    if b then
      let* pThisTask := load_link prevTask in
      let* n := load_next pThisTask in
      store_link L_task_list n ;;
      scheduler_executeTask pThisTask ;;
      ret true
    else
      let* q := load_link prevTask in
      let* n := load_next q in
      if is_non_null n then
        let* q := load_link prevTask in
        let* pThisTask := load_next q in
        let* r :=
          (fun m => search_band (loop_fuel m) minprio maxprio prevTask pThisTask m) in
        let '(prevTask, pThisTask) := r in
        if is_non_null pThisTask then
          (* link the list again and remove the selected task *)
          let* q := load_link prevTask in
          let* n := load_next pThisTask in
          store q (set_next n) ;;
          scheduler_executeTask pThisTask ;;
          ret true
        else ret false
      else ret false
  else ret false.

(** ** The worker tasks *)

(** [while (1) body], unrolled [fuel] times. *)
Fixpoint forever (fuel : nat) (body : M unit) : M unit :=
  match fuel with
  | O => fun _ => OutOfFuel
  | S fuel' => body ;; forever fuel' body
  end.

Definition worker_body (x : semaphore) (minprio maxprio : task_prio_t) : M unit :=
  xSemaphoreTake x ;;
  scheduler_find_next_task_and_execute minprio maxprio None ;;
  leds_toggle.

Definition vAppTask_body : M unit :=
  worker_body AppSem SCHEDULER_SENDDONETIMER_PRIO_BOUNDARY SCHEDULER_APP_PRIO_BOUNDARY.
Definition vSendDoneTask_body : M unit :=
  worker_body SendDoneSem SCHEDULER_STACK_PRIO_BOUNDARY
              SCHEDULER_SENDDONETIMER_PRIO_BOUNDARY.
Definition vRxTask_body : M unit :=
  worker_body RxSem 0%N SCHEDULER_STACK_PRIO_BOUNDARY.

(** Each task takes its semaphore once before the loop ("take it for the
    first time so it blocks right after"). *)
Definition vAppTask (fuel : nat) : M unit :=
  xSemaphoreTake AppSem ;; forever fuel vAppTask_body.
Definition vSendDoneTask (fuel : nat) : M unit :=
  xSemaphoreTake SendDoneSem ;; forever fuel vSendDoneTask_body.
Definition vRxTask (fuel : nat) : M unit :=
  xSemaphoreTake RxSem ;; forever fuel vRxTask_body.

(** ** The state at start-up *)

(** [scheduler_vars] and [scheduler_dbg] have static storage and start
    zeroed; [xSemaphoreCreateBinary] creates the semaphores empty. *)
Definition zero_item : taskList_item_t := mk_item None 0%N None.
Definition initial : machine :=
  mk_machine (mk_vars (replicate TASK_LIST_DEPTH zero_item) None)
             (mk_dbg 0 0)
             (mk_rtos false false false)
             [] [].

End Scheduler.

(** ** Views of the memory used in the statements *)

(** The indices met when following [next] from [p], at most [fuel] of them. *)
Fixpoint chain (fuel : nat) (buf : list taskList_item_t) (p : item_ptr) : list nat :=
  match fuel, p with
  | S fuel', Some i =>
      match buf !! i with
      | Some s => i :: chain fuel' buf (next s)
      | None => []
      end
  | _, _ => []
  end.

(** The task list, as the sequence of containers linked from
    [scheduler_vars.task_list]. *)
Definition queue (m : machine) : list nat :=
  chain (length (taskBuf (scheduler_vars m))) (taskBuf (scheduler_vars m))
        (task_list (scheduler_vars m)).

Definition item_at (m : machine) (i : nat) : taskList_item_t :=
  default zero_item (taskBuf (scheduler_vars m) !! i).
Definition prio_at (m : machine) (i : nat) : task_prio_t := prio (item_at m i).
Definition cb_at (m : machine) (i : nat) : option task_cbt := cb (item_at m i).

(** The priorities and the tasks of the list, head first. *)
Definition queued_prios (m : machine) : list task_prio_t :=
  prio_at m <$> queue m.
Definition queued_tasks (m : machine) : list (option task_cbt * task_prio_t) :=
  (fun i => (cb_at m i, prio_at m i)) <$> queue m.

(** The containers in use: those whose callback is not [NULL]. *)
Definition occupied_slots (m : machine) : list nat :=
  filter (fun i => is_Some (cb_at m i)) (seq 0 (length (taskBuf (scheduler_vars m)))).

Definition in_band (minprio maxprio p : task_prio_t) : bool :=
  (minprio <=? p)%N && (p <? maxprio)%N.

(** The band a worker extracts from and the semaphore it waits on. *)
Definition band_min `{Platform} (x : semaphore) : task_prio_t :=
  match x with
  | RxSem => 0%N
  | SendDoneSem => SCHEDULER_STACK_PRIO_BOUNDARY
  | AppSem => SCHEDULER_SENDDONETIMER_PRIO_BOUNDARY
  end.
Definition band_max `{Platform} (x : semaphore) : task_prio_t :=
  match x with
  | RxSem => SCHEDULER_STACK_PRIO_BOUNDARY
  | SendDoneSem => SCHEDULER_SENDDONETIMER_PRIO_BOUNDARY
  | AppSem => SCHEDULER_APP_PRIO_BOUNDARY
  end.

(** A list segment: following [next] from [p] visits exactly [l] and ends
    at [q]. *)
Fixpoint lseg (buf : list taskList_item_t) (p q : item_ptr) (l : list nat) : Prop :=
  match l with
  | [] => p = q
  | i :: l' => p = Some i ∧ ∃ s, buf !! i = Some s ∧ lseg buf (next s) q l'
  end.

(** The task list is well formed with contents [l]: a [NULL]-terminated
    chain without repetition that goes through exactly the containers in
    use. *)
Record wf `{Platform} (m : machine) (l : list nat) : Prop := mk_wf {
  wf_length : length (taskBuf (scheduler_vars m)) = TASK_LIST_DEPTH;
  wf_chain : lseg (taskBuf (scheduler_vars m)) (task_list (scheduler_vars m)) None l;
  wf_nodup : NoDup l;
  wf_occupied : ∀ i s, taskBuf (scheduler_vars m) !! i = Some s →
                       (is_Some (cb s) ↔ i ∈ l)
}.

Definition sorted_queue (m : machine) : Prop :=
  StronglySorted N.le (queued_prios m).

(** Successive pushes, stopping at the first that does not return. *)
Fixpoint push_all `{Platform} (ps : list (task_cbt * task_prio_t)) : M unit :=
  match ps with
  | [] => ret tt
  | (c, p) :: ps' => scheduler_push_task (Some c) p ;; push_all ps'
  end.

(** [n] successive calls of [scheduler_find_next_task_and_execute] on one
    band; the results are dropped as the workers do. *)
Fixpoint extract_n `{Platform} (n : nat) (minprio maxprio : task_prio_t) : M unit :=
  match n with
  | O => ret tt
  | S n' =>
      scheduler_find_next_task_and_execute minprio maxprio None ;;
      extract_n n' minprio maxprio
  end.

(** The states of a running system: pushes of callbacks (never of [NULL]),
    extractions on any band and semaphore takes, in any order, from the state
    at start-up. *)
Inductive reachable `{Platform} : machine → Prop :=
  | reach_initial : reachable initial
  | reach_push m c p m' :
      reachable m →
      scheduler_push_task (Some c) p m = Done tt m' →
      reachable m'
  | reach_execute m minprio maxprio pThisTask b m' :
      reachable m →
      scheduler_find_next_task_and_execute minprio maxprio pThisTask m = Done b m' →
      reachable m'
  | reach_take m x m' :
      reachable m →
      xSemaphoreTake x m = Done tt m' →
      reachable m'.

(** Container [i] holds a task of the band that no queued task of the band
    precedes in urgency. *)
Definition most_urgent_in_band (m : machine) (minprio maxprio : task_prio_t)
    (i : nat) : Prop :=
  i ∈ queue m ∧
  in_band minprio maxprio (prio_at m i) = true ∧
  ∀ k, k ∈ queue m → in_band minprio maxprio (prio_at m k) = true →
       (prio_at m i ≤ prio_at m k)%N.

(** The states reached from [m0] by pushes, extractions and takes during
    which the task in container [j] has stayed in the list. *)
Inductive queued_since `{Platform} (j : nat) (m0 : machine) : machine → Prop :=
  | since_start : j ∈ queue m0 → queued_since j m0 m0
  | since_push m c p m' :
      queued_since j m0 m →
      scheduler_push_task (Some c) p m = Done tt m' →
      j ∈ queue m' →
      queued_since j m0 m'
  | since_execute m minprio maxprio pThisTask b m' :
      queued_since j m0 m →
      scheduler_find_next_task_and_execute minprio maxprio pThisTask m = Done b m' →
      j ∈ queue m' →
      queued_since j m0 m'
  | since_take m x m' :
      queued_since j m0 m →
      xSemaphoreTake x m = Done tt m' →
      queued_since j m0 m'.

(** ** What the spec says of insertion, for comparison with the code *)

(** Insertion as the spec words it: before the first node whose priority is
    strictly greater than the new one. *)
Fixpoint spec_insert_after_equals (prio_of : nat → task_prio_t) (j : nat)
    (l : list nat) : list nat :=
  match l with
  | [] => [j]
  | i :: l' =>
      if (prio_of j <? prio_of i)%N then j :: i :: l'
      else i :: spec_insert_after_equals prio_of j l'
  end.

(** Insertion as the loop of the source does it: before the first node whose
    priority is not smaller than the new one. *)
Fixpoint insert_before_equals (prio_of : nat → task_prio_t) (j : nat)
    (l : list nat) : list nat :=
  match l with
  | [] => [j]
  | i :: l' =>
      if (prio_of i <? prio_of j)%N then i :: insert_before_equals prio_of j l'
      else j :: i :: l'
  end.

(** The semaphore that step 2 of [scheduler_push_task] gives for a priority,
    [None] when it calls the error handler instead. *)
Definition signal_of `{Platform} (p0 : task_prio_t) : option semaphore :=
  if (p0 <=? SCHEDULER_STACK_PRIO_BOUNDARY)%N then Some RxSem
  else if (SCHEDULER_STACK_PRIO_BOUNDARY <? p0)%N
          && (p0 <=? SCHEDULER_SENDDONETIMER_PRIO_BOUNDARY)%N then Some SendDoneSem
  else if (SCHEDULER_SENDDONETIMER_PRIO_BOUNDARY <? p0)%N
          && (p0 <=? SCHEDULER_APP_PRIO_BOUNDARY)%N then Some AppSem
  else None.

(** ** Invariants and summaries of the steps *)

Section Summaries.
Context `{P : Platform}.

(** The invariant of the running system: the list is well formed and
    sorted. *)
Definition inv (m : machine) : Prop := wf m (queue m) ∧ sorted_queue m.

(** The debug counters agree with the list. *)
Definition dbg_inv (m : machine) : Prop :=
  numTasksCur (scheduler_dbg m) = Z.of_nat (length (queue m)) ∧
  numTasksCur (scheduler_dbg m) ≤ numTasksMax (scheduler_dbg m).

(** The state with further undefined accesses recorded. *)
Definition flags (vs : list violation) (m : machine) : machine :=
  mk_machine (scheduler_vars m) (scheduler_dbg m) (rtos_sched_v m) (executed m)
             (violations m ++ vs).

Definition out_of_band (m : machine) (minprio maxprio : task_prio_t) (k : nat) : Prop :=
  in_band minprio maxprio (prio_at m k) = false.

(** The link the position search ends on after it has passed [l1]. *)
Definition link_after (w : link) (l1 : list nat) : link :=
  match last l1 with
  | Some k => L_next (Some k)
  | None => w
  end.

(** What a push that found container [j] free has done: [l1] are the tasks
    left in front of the new one, [l2] those behind it. *)
Record pushed (m m' : machine) (c0 : option task_cbt) (p0 : task_prio_t)
    (j : nat) (l1 l2 : list nat) : Prop := mk_pushed {
  pushed_length :
    length (taskBuf (scheduler_vars m')) = length (taskBuf (scheduler_vars m));
  pushed_chain :
    lseg (taskBuf (scheduler_vars m')) (task_list (scheduler_vars m')) None
         (l1 ++ j :: l2);
  pushed_item :
    ∃ n, taskBuf (scheduler_vars m') !! j = Some (mk_item c0 p0 n);
  pushed_others : ∀ i s, i ≠ j →
    taskBuf (scheduler_vars m) !! i = Some s →
    ∃ s', taskBuf (scheduler_vars m') !! i = Some s' ∧ cb s' = cb s ∧ prio s' = prio s;
  pushed_cur :
    numTasksCur (scheduler_dbg m')
    = (numTasksCur (scheduler_dbg m) + 1) mod DBG_MODULUS;
  pushed_max :
    numTasksMax (scheduler_dbg m')
    = if numTasksMax (scheduler_dbg m) <? numTasksCur (scheduler_dbg m')
      then numTasksCur (scheduler_dbg m') else numTasksMax (scheduler_dbg m);
  pushed_rtos : rtos_sched_v m' = rtos_sched_v m;
  pushed_executed : executed m' = executed m;
  pushed_violations : violations m' = violations m
}.

(** The state after container [i], holding callback [c] with priority
    [pr], has been run and released. *)
Definition released (i : nat) (c : task_cbt) (pr : task_prio_t) (m : machine) : machine :=
  with_dbg (mk_dbg ((numTasksCur (scheduler_dbg m) - 1) mod DBG_MODULUS)
                   (numTasksMax (scheduler_dbg m)))
    (with_taskBuf (<[i := mk_item None TASKPRIO_NONE None]> (taskBuf (scheduler_vars m)))
       (with_executed (executed m ++ [(c, pr)]) m)).

(** What an extraction that unlinked and ran container [i] has done: [l1]
    are the tasks that were in front of it, [l2] those behind it. *)
Record extracted (m m' : machine) (i : nat) (l1 l2 : list nat) : Prop := mk_extracted {
  extracted_length :
    length (taskBuf (scheduler_vars m')) = length (taskBuf (scheduler_vars m));
  extracted_chain :
    lseg (taskBuf (scheduler_vars m')) (task_list (scheduler_vars m')) None (l1 ++ l2);
  extracted_item :
    taskBuf (scheduler_vars m') !! i = Some (mk_item None TASKPRIO_NONE None);
  extracted_others : ∀ k s, k ≠ i →
    taskBuf (scheduler_vars m) !! k = Some s →
    ∃ s', taskBuf (scheduler_vars m') !! k = Some s' ∧ cb s' = cb s ∧ prio s' = prio s;
  extracted_executed :
    ∃ c, cb_at m i = Some c ∧ executed m' = executed m ++ [(c, prio_at m i)];
  extracted_cur :
    numTasksCur (scheduler_dbg m')
    = (numTasksCur (scheduler_dbg m) - 1) mod DBG_MODULUS;
  extracted_max : numTasksMax (scheduler_dbg m') = numTasksMax (scheduler_dbg m);
  extracted_rtos : rtos_sched_v m' = rtos_sched_v m;
  extracted_violations : violations m' = violations m
}.

(** [j] comes before [i] in the list. *)
Definition precedes (j i : nat) (l : list nat) : Prop :=
  ∃ a c, l = a ++ j :: c ∧ i ∈ c.

(** [j] is queued in front of [i] and both have the same priority. *)
Definition lifo_inv (j i : nat) (m : machine) : Prop :=
  inv m ∧ precedes j i (queue m) ∧ prio_at m j = prio_at m i.

End Summaries.

(** ** Sample runs *)

Definition state_after {A} (c : M A) (m : machine) : machine :=
  match c m with
  | Done _ m' | Reset m' | Blocked m' => m'
  | OutOfFuel => m
  end.

(** Scenario A of the spec: callback 1 pushed with priority 2, then callback
    2 with priority 1. *)
Definition scenario_A : machine :=
  state_after (@push_all sample_platform [(1%nat, 2%N); (2%nat, 1%N)])
              (@initial sample_platform).

(** Callback 1 with priority 1 ... *)
Definition one_equal : machine :=
  state_after (@push_all sample_platform [(1%nat, 1%N)])
              (@initial sample_platform).

(** ... then callback 2 with the same priority. *)
Definition two_equal : machine :=
  state_after (@push_all sample_platform [(1%nat, 1%N); (2%nat, 1%N)])
              (@initial sample_platform).

(** Callback 1 with priority 1 and callback 2 with priority 2: two tasks of
    the band of [vRxTask], none of the band of [vSendDoneTask]. *)
Definition two_rx : machine :=
  state_after (@push_all sample_platform [(1%nat, 1%N); (2%nat, 2%N)])
              (@initial sample_platform).

(** A pool of three containers, all in use. *)
Definition tiny_full : machine :=
  state_after (@push_all tiny_platform [(1%nat, 1%N); (2%nat, 5%N); (3%nat, 9%N)])
              (@initial tiny_platform).

(** ** Runs of the system *)

(** The calls made on the scheduler: a push of a callback, an extraction on
    a band (its result dropped, as the workers do) and a semaphore take. *)
Inductive event :=
  | Ev_push (c : task_cbt) (p : task_prio_t)
  | Ev_extract (minprio maxprio : task_prio_t)
  | Ev_take (x : semaphore).

Definition step `{Platform} (e : event) : M unit :=
  match e with
  | Ev_push c p => scheduler_push_task (Some c) p
  | Ev_extract minprio maxprio =>
      scheduler_find_next_task_and_execute minprio maxprio None ;; ret tt
  | Ev_take x => xSemaphoreTake x
  end.

Fixpoint run `{Platform} (es : list event) : M unit :=
  match es with
  | [] => ret tt
  | e :: es' => step e ;; run es'
  end.

(** The tasks pushed by a run, in the order of the pushes. *)
Fixpoint pushes_of (es : list event) : list (task_cbt * task_prio_t) :=
  match es with
  | [] => []
  | Ev_push c p :: es' => (c, p) :: pushes_of es'
  | _ :: es' => pushes_of es'
  end.

(** The task held by container [i]. *)
Definition task_at (m : machine) (i : nat) : option task_cbt * task_prio_t :=
  (cb_at m i, prio_at m i).

(** An executed task, written as a queued one. *)
Definition as_queued (t : task_cbt * task_prio_t) : option task_cbt * task_prio_t :=
  (Some t.1, t.2).

(** The first [n] tasks of a band in a list of tasks, and the list without
    them. *)
Fixpoint take_band (n : nat) (minprio maxprio : task_prio_t)
    (ts : list (option task_cbt * task_prio_t)) : list (option task_cbt * task_prio_t) :=
  match n, ts with
  | S n', t :: ts' =>
      if in_band minprio maxprio t.2 then t :: take_band n' minprio maxprio ts'
      else take_band n minprio maxprio ts'
  | _, _ => []
  end.

Fixpoint drop_band (n : nat) (minprio maxprio : task_prio_t)
    (ts : list (option task_cbt * task_prio_t)) : list (option task_cbt * task_prio_t) :=
  match n, ts with
  | S n', t :: ts' =>
      if in_band minprio maxprio t.2 then drop_band n' minprio maxprio ts'
      else t :: drop_band n minprio maxprio ts'
  | _, _ => ts
  end.

(** The worker task that waits on semaphore [x], from its first line. *)
Definition worker_task `{Platform} (x : semaphore) (fuel : nat) : M unit :=
  match x with
  | AppSem => vAppTask fuel
  | SendDoneSem => vSendDoneTask fuel
  | RxSem => vRxTask fuel
  end.

(** The states reached from [m0] by pushes and by loop iterations of the
    three workers. *)
Inductive served_from `{Platform} (m0 : machine) : machine → Prop :=
  | served_start : served_from m0 m0
  | served_push m c p m' :
      served_from m0 m →
      scheduler_push_task (Some c) p m = Done tt m' →
      served_from m0 m'
  | served_worker m x m' :
      served_from m0 m →
      worker_body x (band_min x) (band_max x) m = Done tt m' →
      served_from m0 m'.

(** ** Start-up: scheduler_init and scheduler_createSem *)

(** The handles of [rtos_sched_v_t] as the source declares them; [None] is
    [NULL].  (The booleans of the record [rtos_sched_v_t] above are the
    values of the semaphores behind [xAppSem], [xSendDoneSem] and
    [xRxSem].) *)
Record rtos_handles_t := mk_handles {
  h_xStackLock      : option nat;
  h_xAppHandle      : option nat;
  h_xAppSem         : option nat;
  h_xSendDoneHandle : option nat;
  h_xSendDoneSem    : option nat;
  h_xRxHandle       : option nat;
  h_xRxSem          : option nat
}.

(** The address of a member of [rtos_sched_v]. *)
Inductive rtos_field :=
  | F_xStackLock | F_xAppHandle | F_xAppSem | F_xSendDoneHandle
  | F_xSendDoneSem | F_xRxHandle | F_xRxSem.

Definition get_field (f : rtos_field) (h : rtos_handles_t) : option nat :=
  match f with
  | F_xStackLock => h_xStackLock h
  | F_xAppHandle => h_xAppHandle h
  | F_xAppSem => h_xAppSem h
  | F_xSendDoneHandle => h_xSendDoneHandle h
  | F_xSendDoneSem => h_xSendDoneSem h
  | F_xRxHandle => h_xRxHandle h
  | F_xRxSem => h_xRxSem h
  end.

Definition set_field (f : rtos_field) (v : option nat) (h : rtos_handles_t)
    : rtos_handles_t :=
  match f with
  | F_xStackLock =>
      mk_handles v (h_xAppHandle h) (h_xAppSem h) (h_xSendDoneHandle h)
                 (h_xSendDoneSem h) (h_xRxHandle h) (h_xRxSem h)
  | F_xAppHandle =>
      mk_handles (h_xStackLock h) v (h_xAppSem h) (h_xSendDoneHandle h)
                 (h_xSendDoneSem h) (h_xRxHandle h) (h_xRxSem h)
  | F_xAppSem =>
      mk_handles (h_xStackLock h) (h_xAppHandle h) v (h_xSendDoneHandle h)
                 (h_xSendDoneSem h) (h_xRxHandle h) (h_xRxSem h)
  | F_xSendDoneHandle =>
      mk_handles (h_xStackLock h) (h_xAppHandle h) (h_xAppSem h) v
                 (h_xSendDoneSem h) (h_xRxHandle h) (h_xRxSem h)
  | F_xSendDoneSem =>
      mk_handles (h_xStackLock h) (h_xAppHandle h) (h_xAppSem h)
                 (h_xSendDoneHandle h) v (h_xRxHandle h) (h_xRxSem h)
  | F_xRxHandle =>
      mk_handles (h_xStackLock h) (h_xAppHandle h) (h_xAppSem h)
                 (h_xSendDoneHandle h) (h_xSendDoneSem h) v (h_xRxSem h)
  | F_xRxSem =>
      mk_handles (h_xStackLock h) (h_xAppHandle h) (h_xAppSem h)
                 (h_xSendDoneHandle h) (h_xSendDoneSem h) (h_xRxHandle h) v
  end.

(** What [scheduler_init] asks of the kernel: a mutex, a binary semaphore, or
    a task running the worker that waits on [pvTaskCode] at priority
    [uxPriority]. *)
Inductive kernel_request :=
  | Create_mutex
  | Create_binary
  | Create_task (pvTaskCode : semaphore) (uxPriority : nat).

Definition tskAPP_PRIORITY : nat := 1.
Definition tskSENDDONE_PRIORITY : nat := 2.
Definition tskRX_PRIORITY : nat := 3.

(** The handles, and the kernel seen from the module: [heap n] is what the
    kernel answers to request number [n] ([None] when it cannot allocate the
    object), [requests] are the requests made so far, oldest first. *)
Record boot := mk_boot {
  handles  : rtos_handles_t;
  heap     : nat → option nat;
  requests : list kernel_request
}.

Definition with_handles (h : rtos_handles_t) (b : boot) : boot :=
  mk_boot h (heap b) (requests b).

(** The code of the start-up runs on the handles and the kernel beside the
    memory of the module. *)
Definition K (A : Type) := boot → machine → boot * outcome A.

Definition kret {A} (a : A) : K A := fun b m => (b, Done a m).

Definition kbind {A B} (c : K A) (k : A → K B) : K B := fun b m =>
  match c b m with
  | (b', Done a m') => k a b' m'
  | (b', Reset m') => (b', Reset m')
  | (b', Blocked m') => (b', Blocked m')
  | (b', OutOfFuel) => (b', OutOfFuel)
  end.

Definition lift {A} (c : M A) : K A := fun b m => (b, c m).

Declare Scope boot_scope.
Delimit Scope boot_scope with boot.
Notation "'let*' x ':=' c 'in' k" := (kbind c (fun x => k))
  (at level 10, x pattern, c at level 100, k at level 200) : boot_scope.
Notation "c ;; k" := (kbind c (fun _ => k))
  (at level 100, k at level 200, right associativity) : boot_scope.

Section Boot.
Context `{P : Platform}.
Local Open Scope boot_scope.

Definition load_field (f : rtos_field) : K (option nat) := fun b m =>
  (b, Done (get_field f (handles b)) m).

Definition store_field (f : rtos_field) (v : option nat) : K unit := fun b m =>
  (with_handles (set_field f v (handles b)) b, Done tt m).

(** [memset(&rtos_sched_v,0,sizeof(rtos_sched_v_t))] *)
Definition memset_rtos_sched_v : K unit := fun b m =>
  (with_handles (mk_handles None None None None None None None) b, Done tt m).

Definition kernel_create (r : kernel_request) : K (option nat) := fun b m =>
  (mk_boot (handles b) (heap b) (requests b ++ [r]),
   Done (heap b (length (requests b))) m).

(** FreeRTOS is not among the sources.  Both calls return the handle of the
    new object, or [NULL] when the kernel cannot allocate it; a binary
    semaphore is created empty, as in [initial]. *)
Definition xSemaphoreCreateMutex : K (option nat) := kernel_create Create_mutex.
Definition xSemaphoreCreateBinary : K (option nat) := kernel_create Create_binary.

(** [xTaskCreate] (FreeRTOS) stores the handle of the new task through
    [pxCreatedTask] and leaves that location as it is when the task cannot
    be created.  The source drops its return value and tests the handle. *)
Definition xTaskCreate (pvTaskCode : semaphore) (uxPriority : nat)
    (pxCreatedTask : rtos_field) : K unit :=
  let* h := kernel_create (Create_task pvTaskCode uxPriority) in
  match h with
  | Some _ => store_field pxCreatedTask h
  | None => kret tt
  end.

Definition is_null_handle (h : option nat) : bool :=
  match h with Some _ => false | None => true end.

(** The semaphore whose handle a member holds. *)
Definition sem_behind (f : rtos_field) : option semaphore :=
  match f with
  | F_xAppSem => Some AppSem
  | F_xSendDoneSem => Some SendDoneSem
  | F_xRxSem => Some RxSem
  | _ => None
  end.

(** [*sem = h] for the handle of a semaphore just created: from this store
    on the semaphore the member names is the new object, which is empty. *)
Definition store_semaphore (sem : rtos_field) (h : option nat) : K unit :=
  store_field sem h ;;
  match h, sem_behind sem with
  | Some _, Some x => lift (fun m => Done tt (sem_set x false m))
  | _, _ => kret tt
  end.

Definition scheduler_createSem (sem : rtos_field) : K unit :=
  (* create semaphore *)
  let* h := xSemaphoreCreateBinary in
  store_semaphore sem h ;;
  let* v := load_field sem in
  if is_null_handle v then
    (* handle error *)
    lift scheduler_handleErrror
  else kret tt.

Definition scheduler_init : K unit :=
  (* clear module variables *)
  memset_rtos_sched_v ;;
  (* stack lock *)
  let* h := xSemaphoreCreateMutex in
  store_field F_xStackLock h ;;
  let* v := load_field F_xStackLock in
  (if is_null_handle v then lift scheduler_handleErrror else kret tt) ;;
  (* app task *)
  scheduler_createSem F_xAppSem ;;
  xTaskCreate AppSem tskAPP_PRIORITY F_xAppHandle ;;
  let* v := load_field F_xAppHandle in
  (if is_null_handle v then lift scheduler_handleErrror else kret tt) ;;
  (* stack task sendDone *)
  scheduler_createSem F_xSendDoneSem ;;
  xTaskCreate SendDoneSem tskSENDDONE_PRIORITY F_xSendDoneHandle ;;
  let* v := load_field F_xSendDoneHandle in
  (if is_null_handle v then lift scheduler_handleErrror else kret tt) ;;
  (* stack task rx *)
  scheduler_createSem F_xRxSem ;;
  xTaskCreate RxSem tskRX_PRIORITY F_xRxHandle ;;
  let* v := load_field F_xRxHandle in
  (if is_null_handle v then lift scheduler_handleErrror else kret tt).

End Boot.

(** The seven objects of a complete start-up, in the order of the requests,
    and the member that receives the handle of each. *)
Definition init_requests : list kernel_request :=
  [Create_mutex;
   Create_binary; Create_task AppSem tskAPP_PRIORITY;
   Create_binary; Create_task SendDoneSem tskSENDDONE_PRIORITY;
   Create_binary; Create_task RxSem tskRX_PRIORITY].

(** The memory of the module after the first [k] requests of a start-up
    were granted: the semaphores created among them are empty. *)
Definition created_empty (k : nat) (m : machine) : machine :=
  let m1 := if (1 <? k)%nat then sem_set AppSem false m else m in
  let m2 := if (3 <? k)%nat then sem_set SendDoneSem false m1 else m1 in
  if (5 <? k)%nat then sem_set RxSem false m2 else m2.

Definition init_fields : list rtos_field :=
  [F_xStackLock; F_xAppSem; F_xAppHandle; F_xSendDoneSem; F_xSendDoneHandle;
   F_xRxSem; F_xRxHandle].

(** ** Undefined accesses of a call *)

(** The undefined accesses made up to the end of a call, oldest first.  C
    gives no meaning to what a call does after the first of them (the load
    or the call through the invalid pointer need not return), so the
    properties below either show that a call makes none, or say which one it
    makes first and nothing about what follows. *)
Definition accesses {A} (o : outcome A) : list violation :=
  match o with
  | Done _ m | Reset m | Blocked m => violations m
  | OutOfFuel => []
  end.

(** The tasks of a band in a list of tasks. *)
Definition band_tasks {A} (minprio maxprio : task_prio_t)
    (ts : list (A * task_prio_t)) : list (A * task_prio_t) :=
  filter (fun t => in_band minprio maxprio t.2 = true) ts.

(** ** Further sample runs *)

(** Pushes, a take and an extraction from start-up. *)
Definition sample_run : list event :=
  [Ev_push 1%nat 2%N; Ev_push 2%nat 1%N; Ev_take RxSem; Ev_extract 0%N 4%N].

Definition after_sample_run : machine :=
  state_after (@run sample_platform sample_run) (@initial sample_platform).

(** Callback 1 queued with priority [TASKPRIO_MAX] ... *)
Definition at_max : machine :=
  state_after (@push_all sample_platform [(1%nat, 12%N)]) (@initial sample_platform).

(** ... then callback 2 pushed with priority 1 and run by [vRxTask]. *)
Definition at_max_pushed : machine :=
  state_after (@scheduler_push_task sample_platform (Some 2%nat) 1%N) at_max.
Definition at_max_served : machine :=
  state_after (@worker_body sample_platform RxSem 0%N 4%N) at_max_pushed.

(** Handles left over from an earlier start-up, and a kernel that has served
    one request and grants the next [grants] ones. *)
Definition stale_boot (grants : nat) : boot :=
  mk_boot (mk_handles (Some 7%nat) (Some 7%nat) (Some 7%nat) (Some 7%nat)
                      (Some 7%nat) (Some 7%nat) (Some 7%nat))
          (fun n => if (n <=? grants)%nat then Some (100 + n)%nat else None)
          [Create_mutex].

(** * Proofs *)

Section Proofs.
Context `{P : Platform}.

Implicit Types (m : machine) (buf : list taskList_item_t) (l : list nat).
Implicit Types (p q : item_ptr) (s : taskList_item_t).

(** ** Running the monad *)

Lemma bind_done {A B} (c : M A) (k : A → M B) m a m' :
  c m = Done a m' → bind c k m = k a m'.
Proof. unfold bind. by intros ->. Qed.

Lemma load_valid m i s :
  taskBuf (scheduler_vars m) !! i = Some s → load (Some i) m = Done s m.
Proof. unfold load. by intros ->. Qed.

Lemma load_prio_valid m i s :
  taskBuf (scheduler_vars m) !! i = Some s → load_prio (Some i) m = Done (prio s) m.
Proof. intros H. unfold load_prio. by rewrite (bind_done _ _ _ _ _ (load_valid _ _ _ H)). Qed.

Lemma load_next_valid m i s :
  taskBuf (scheduler_vars m) !! i = Some s → load_next (Some i) m = Done (next s) m.
Proof. intros H. unfold load_next. by rewrite (bind_done _ _ _ _ _ (load_valid _ _ _ H)). Qed.

Lemma load_cb_valid m i s :
  taskBuf (scheduler_vars m) !! i = Some s → load_cb (Some i) m = Done (cb s) m.
Proof. intros H. unfold load_cb. by rewrite (bind_done _ _ _ _ _ (load_valid _ _ _ H)). Qed.

Lemma store_valid m i s f :
  taskBuf (scheduler_vars m) !! i = Some s →
  store (Some i) f m
  = Done tt (with_taskBuf (<[i := f s]> (taskBuf (scheduler_vars m))) m).
Proof. unfold store. by intros ->. Qed.

Lemma prio_in_band_valid minprio maxprio m i s :
  taskBuf (scheduler_vars m) !! i = Some s →
  prio_in_band minprio maxprio (Some i) m
  = Done (in_band minprio maxprio (prio s)) m.
Proof.
  intros H. unfold prio_in_band, in_band.
  rewrite (bind_done _ _ _ _ _ (load_prio_valid _ _ _ H)).
  destruct (minprio <=? prio s)%N; [|done].
  by rewrite (bind_done _ _ _ _ _ (load_prio_valid _ _ _ H)).
Qed.

(** ** List segments *)

Lemma lseg_app buf p q l1 l2 :
  lseg buf p q (l1 ++ l2) ↔ ∃ r, lseg buf p r l1 ∧ lseg buf r q l2.
Proof.
  revert p. induction l1 as [|i l1 IH]; intros p; simpl.
  - split; [eauto|]. by intros (r & -> & ?).
  - split.
    + intros (-> & s & Hs & Hl). apply IH in Hl as (r & ? & ?). eauto 10.
    + intros (r & (-> & s & Hs & Hl) & ?). split; [done|].
      exists s. split; [done|]. apply IH. eauto.
Qed.

Lemma lseg_lookup buf p q l i :
  lseg buf p q l → i ∈ l → is_Some (buf !! i).
Proof.
  revert p. induction l as [|j l IH]; intros p; simpl.
  - intros _ Hi. by apply elem_of_nil in Hi.
  - intros (-> & s & Hs & Hl) [->|Hi]%elem_of_cons; eauto.
Qed.

Lemma lseg_frame buf p q l i s :
  i ∉ l → lseg buf p q l → lseg (<[i := s]> buf) p q l.
Proof.
  revert p. induction l as [|j l IH]; intros p Hi; simpl; [done|].
  apply not_elem_of_cons in Hi as [Hij Hi].
  intros (-> & s' & Hs' & Hl). split; [done|]. exists s'.
  rewrite list_lookup_insert_ne by done. eauto.
Qed.

Lemma lseg_snoc_update buf p q r l k s :
  k ∉ l → buf !! k = Some s → lseg buf p q (l ++ [k]) →
  lseg (<[k := set_next r s]> buf) p r (l ++ [k]).
Proof.
  intros Hk Hs. rewrite !lseg_app. intros (t & Hl & Hlast).
  exists t. split; [by apply lseg_frame|].
  simpl in *. destruct Hlast as (-> & s' & Hs' & _). split; [done|].
  exists (set_next r s). split; [|done].
  apply list_lookup_insert_eq. by eapply lookup_lt_Some.
Qed.

Lemma chain_lseg fuel buf p l :
  lseg buf p None l → (length l ≤ fuel)%nat → chain fuel buf p = l.
Proof.
  revert p l. induction fuel as [|fuel IH]; intros p [|i l]; simpl.
  - done.
  - lia.
  - by intros ->.
  - intros (-> & s & -> & Hl) ?. f_equal. apply IH; [done|lia].
Qed.

Lemma nodup_bounded_length l n :
  NoDup l → (∀ i, i ∈ l → (i < n)%nat) → (length l ≤ n)%nat.
Proof.
  intros Hnd Hlt.
  rewrite <-(length_seq n 0). apply submseteq_length, NoDup_submseteq; [done|].
  intros i Hi. apply elem_of_seq. specialize (Hlt i Hi). lia.
Qed.

Lemma wf_bounded m l i : wf m l → i ∈ l → (i < TASK_LIST_DEPTH)%nat.
Proof.
  intros [Hlen Hch _ _] Hi. rewrite <-Hlen.
  destruct (lseg_lookup _ _ _ _ _ Hch Hi) as [s Hs].
  by eapply lookup_lt_Some.
Qed.

Lemma wf_length_le m l : wf m l → (length l ≤ TASK_LIST_DEPTH)%nat.
Proof.
  intros Hwf. apply nodup_bounded_length; [by destruct Hwf|].
  intros i. by apply (wf_bounded m).
Qed.

Lemma wf_queue m l : wf m l → queue m = l.
Proof.
  intros Hwf. unfold queue. apply chain_lseg; [by destruct Hwf|].
  pose proof (wf_length_le _ _ Hwf). destruct Hwf as [Hlen _ _ _]. lia.
Qed.

(** ** The search for an empty container *)

Lemma find_container_free fuel i j m sj :
  (i ≤ j)%nat → (j < TASK_LIST_DEPTH)%nat → (j - i < fuel)%nat →
  (∀ k s, (i ≤ k < j)%nat → taskBuf (scheduler_vars m) !! k = Some s → is_Some (cb s)) →
  taskBuf (scheduler_vars m) !! j = Some sj → cb sj = None →
  find_container fuel i m = Done j m.
Proof.
  revert i. induction fuel as [|fuel IH]; intros i Hij Hj Hfuel Hocc Hsj Hfree;
    [lia|].
  simpl. destruct (decide (i = j)) as [->|Hne].
  - rewrite (bind_done _ _ _ _ _ (load_cb_valid _ _ _ Hsj)), Hfree. done.
  - destruct (lookup_lt_is_Some_2 (taskBuf (scheduler_vars m)) i) as [si Hsi].
    { apply lookup_lt_Some in Hsj. lia. }
    rewrite (bind_done _ _ _ _ _ (load_cb_valid _ _ _ Hsi)).
    destruct (Hocc i si) as [c Hc]; [lia|done|]. rewrite Hc. simpl.
    destruct (Z.leb_spec (Z.of_nat i) (Z.of_nat TASK_LIST_DEPTH - 1)); [|lia].
    apply IH; try done; try lia.
    intros k s ? ?. apply (Hocc k); [lia|done].
Qed.

Lemma find_container_full fuel i m :
  length (taskBuf (scheduler_vars m)) = TASK_LIST_DEPTH →
  (i ≤ TASK_LIST_DEPTH)%nat → (TASK_LIST_DEPTH - i < fuel)%nat →
  (∀ k s, (i ≤ k)%nat → taskBuf (scheduler_vars m) !! k = Some s → is_Some (cb s)) →
  find_container fuel i m
  = Done TASK_LIST_DEPTH (flag (Invalid_load (Some TASK_LIST_DEPTH)) m).
Proof.
  intros Hlen. revert i. induction fuel as [|fuel IH]; intros i Hi Hfuel Hocc; [lia|].
  simpl. destruct (decide (i = TASK_LIST_DEPTH)) as [->|Hne].
  - unfold load_cb, load, bind.
    rewrite (lookup_ge_None_2 (taskBuf (scheduler_vars m)) TASK_LIST_DEPTH) by lia.
    destruct (Z.leb_spec (Z.of_nat TASK_LIST_DEPTH) (Z.of_nat TASK_LIST_DEPTH - 1));
      [lia|].
    simpl. by rewrite andb_false_r.
  - destruct (lookup_lt_is_Some_2 (taskBuf (scheduler_vars m)) i) as [si Hsi]; [lia|].
    rewrite (bind_done _ _ _ _ _ (load_cb_valid _ _ _ Hsi)).
    destruct (Hocc i si) as [c Hc]; [lia|done|]. rewrite Hc. simpl.
    destruct (Z.leb_spec (Z.of_nat i) (Z.of_nat TASK_LIST_DEPTH - 1)); [|lia].
    apply IH; try lia.
    intros k s ? ?. apply (Hocc k); [lia|done].
Qed.

(** ** The search for the position in the queue *)

Lemma last_cons_cases {A} (x : A) (xs : list A) :
  last (x :: xs) = Some (default x (last xs)).
Proof.
  destruct xs as [|y xs]; [done|]. rewrite last_cons. by destruct (last (y :: xs)).
Qed.

Lemma find_position_spec l : ∀ fuel w pw m j sj,
  taskBuf (scheduler_vars m) !! j = Some sj →
  load_link w m = Done pw m →
  lseg (taskBuf (scheduler_vars m)) pw None l →
  (length l < fuel)%nat →
  ∃ l1 l2 r,
    l = l1 ++ l2 ∧
    find_position fuel (Some j) w m = Done (link_after w l1) m ∧
    Forall (fun i => (prio_at m i < prio sj)%N) l1 ∧
    (∀ i, head l2 = Some i → (prio sj ≤ prio_at m i)%N) ∧
    lseg (taskBuf (scheduler_vars m)) pw r l1 ∧
    lseg (taskBuf (scheduler_vars m)) r None l2 ∧
    load_link (link_after w l1) m = Done r m.
Proof.
  induction l as [|i l IH]; intros fuel w pw m j sj Hsj Hw Hl Hfuel;
    (destruct fuel as [|fuel]; [simpl in Hfuel; lia|]).
  - simpl in Hl. subst pw. exists [], [], None. simpl.
    rewrite (bind_done _ _ _ _ _ Hw). simpl. repeat split; try done.
  - simpl in Hl. destruct Hl as (-> & si & Hsi & Hl).
    simpl. rewrite (bind_done _ _ _ _ _ Hw). simpl.
    rewrite (bind_done _ _ _ _ _ (load_prio_valid _ _ _ Hsi)).
    rewrite (bind_done _ _ _ _ _ (load_prio_valid _ _ _ Hsj)).
    destruct (N.ltb_spec (prio si) (prio sj)) as [Hlt|Hge].
    + destruct (IH fuel (L_next (Some i)) (next si) m j sj)
        as (l1 & l2 & r & -> & Hrun & Hl1 & Hl2 & Hseg1 & Hseg2 & Hr); try done.
      { simpl. by apply load_next_valid. }
      { simpl in Hfuel. lia. }
      assert (link_after w (i :: l1) = link_after (L_next (Some i)) l1) as Hlink.
      { unfold link_after. rewrite last_cons_cases. by destruct (last l1). }
      exists (i :: l1), l2, r. rewrite Hlink. repeat split; try done.
      * constructor; [|done]. unfold prio_at, item_at. by rewrite Hsi.
      * simpl. eauto.
    + exists [], (i :: l), (Some i). simpl. repeat split; try done.
      * intros i' [= <-]. unfold prio_at, item_at. by rewrite Hsi.
      * eauto.
Qed.

(** ** scheduler_push_task_internal *)

Lemma last_None_nil {A} (xs : list A) : last xs = None → xs = [].
Proof. destruct xs as [|x xs]; [done|]. by rewrite last_cons_cases. Qed.

Lemma last_Some_snoc {A} (xs : list A) k :
  last xs = Some k → ∃ ys, xs = ys ++ [k].
Proof.
  intros Hk. destruct xs as [|x xs _] using rev_ind; [done|].
  rewrite last_snoc in Hk. simplify_eq. eauto.
Qed.

Lemma prio_at_lookup m i s :
  taskBuf (scheduler_vars m) !! i = Some s → prio_at m i = prio s.
Proof. unfold prio_at, item_at. by intros ->. Qed.

Lemma cb_at_lookup m i s :
  taskBuf (scheduler_vars m) !! i = Some s → cb_at m i = cb s.
Proof. unfold cb_at, item_at. by intros ->. Qed.

Lemma push_internal_free m l j sj c0 (p0 : task_prio_t) :
  wf m l →
  taskBuf (scheduler_vars m) !! j = Some sj → cb sj = None →
  (∀ k s, (k < j)%nat → taskBuf (scheduler_vars m) !! k = Some s → is_Some (cb s)) →
  ∃ m' l1 l2,
    scheduler_push_task_internal c0 p0 m = Done tt m' ∧
    l = l1 ++ l2 ∧
    Forall (fun i => (prio_at m i < p0)%N) l1 ∧
    (∀ i, head l2 = Some i → (p0 ≤ prio_at m i)%N) ∧
    pushed m m' c0 p0 j l1 l2.
Proof.
  intros [Hlen Hch Hnd Hocc] Hsj Hfree Hbefore.
  assert (j < TASK_LIST_DEPTH)%nat as Hj by (rewrite <-Hlen; by eapply lookup_lt_Some).
  assert (j ∉ l) as Hjl.
  { intros Hin. apply (Hocc j sj Hsj) in Hin. rewrite Hfree in Hin. by destruct Hin. }
  set (buf := taskBuf (scheduler_vars m)) in *.
  set (sj2 := mk_item c0 p0 (next sj)).
  set (m2 := with_taskBuf (<[j := sj2]> buf) m).
  assert (taskBuf (scheduler_vars m2) !! j = Some sj2) as Hsj2.
  { simpl. apply list_lookup_insert_eq. lia. }
  assert (lseg (taskBuf (scheduler_vars m2)) (task_list (scheduler_vars m)) None l) as Hch2.
  { simpl. by apply lseg_frame. }
  destruct (find_position_spec l (loop_fuel m2) L_task_list
              (task_list (scheduler_vars m)) m2 j sj2)
    as (l1 & l2 & r & -> & Hrun & Hl1 & Hl2 & Hseg1 & Hseg2 & Hr); try done.
  { unfold loop_fuel. simpl. rewrite length_insert. fold buf.
    pose proof (nodup_bounded_length l TASK_LIST_DEPTH Hnd) as Hle.
    enough (length l ≤ TASK_LIST_DEPTH)%nat by lia. apply Hle.
    intros i Hi. destruct (lseg_lookup _ _ _ _ _ Hch Hi) as [s Hs].
    rewrite <-Hlen. by eapply lookup_lt_Some. }
  apply not_elem_of_app in Hjl as [Hjl1 Hjl2].
  apply NoDup_app in Hnd as (Hnd1 & Hdisj & Hnd2).
  assert (∀ i, i ∈ l1 ++ l2 → prio_at m2 i = prio_at m i) as Hprio.
  { intros i Hi. unfold prio_at, item_at. simpl.
    rewrite list_lookup_insert_ne; [done|]. intros ->.
    apply elem_of_app in Hi as [?|?]; done. }
  set (sj3 := mk_item c0 p0 r).
  set (m3 := with_taskBuf (<[j := sj3]> buf) m).
  assert (scheduler_push_task_internal c0 p0 m
          = (store_link (link_after L_task_list l1) (Some j) ;; dbg_increment) m3)
    as Hprefix.
  { unfold scheduler_push_task_internal.
    rewrite (bind_done _ _ _ _ _
               (find_container_free (S TASK_LIST_DEPTH) 0 j m sj ltac:(lia) Hj ltac:(lia)
                  ltac:(intros k s [_ ?]; by apply Hbefore) Hsj Hfree)).
    destruct (Z.ltb_spec (Z.of_nat TASK_LIST_DEPTH - 1) (Z.of_nat j)); [lia|].
    unfold ret at 1. unfold bind at 1.
    rewrite (bind_done _ _ _ _ _ (store_valid _ _ _ _ Hsj)).
    assert (store (Some j) (set_prio p0)
              (with_taskBuf (<[j := set_cb c0 sj]> (taskBuf (scheduler_vars m))) m)
            = Done tt m2) as Hst2.
    { erewrite store_valid; last first.
      { simpl. apply list_lookup_insert_eq. fold buf. lia. }
      simpl. by rewrite list_insert_insert_eq. }
    rewrite (bind_done _ _ _ _ _ Hst2).
    rewrite (bind_done
               (fun m0 => find_position (loop_fuel m0) (Some j) L_task_list m0)
               _ m2 _ _ Hrun).
    rewrite (bind_done _ _ _ _ _ Hr).
    rewrite (bind_done _ _ _ _ _ (store_valid _ _ _ _ Hsj2)).
    f_equal. unfold m3, m2. simpl. by rewrite list_insert_insert_eq. }
  assert (lseg (<[j := sj3]> buf) (Some j) None (j :: l2)) as Hnew.
  { simpl. split; [done|]. exists sj3. split.
    - apply list_lookup_insert_eq. lia.
    - simpl. rewrite <-(list_insert_insert_eq buf j sj3 sj2).
      apply lseg_frame; [done|]. exact Hseg2. }
  assert (lseg (<[j := sj3]> buf) (task_list (scheduler_vars m)) r l1) as Hold.
  { rewrite <-(list_insert_insert_eq buf j sj3 sj2).
    apply lseg_frame; [done|]. exact Hseg1. }
  assert (Forall (λ i, (prio_at m i < p0)%N) l1) as Hl1'.
  { apply Forall_forall. intros i Hi. rewrite <-Hprio by (apply elem_of_app; eauto).
    by apply (proj1 (Forall_forall _ _) Hl1). }
  assert (∀ i, head l2 = Some i → (p0 ≤ prio_at m i)%N) as Hl2'.
  { intros i Hi. rewrite <-Hprio; [by apply Hl2|].
    apply elem_of_app. right. destruct l2; simplify_eq/=. left. }
  unfold link_after in Hprefix. destruct (last l1) as [k|] eqn:Hlast.
  - apply last_Some_snoc in Hlast as [l1' ->].
    assert (k ∈ l1' ++ [k]) as Hk by (apply elem_of_app; right; left).
    assert (k ≠ j) as Hkj by (intros ->; done).
    destruct (lseg_lookup _ _ _ _ _ Hold Hk) as [sk Hsk].
    apply NoDup_app in Hnd1 as (_ & Hkl1 & _).
    assert (k ∉ l1') as Hk1.
    { intros Hin. apply (Hkl1 k Hin). left. }
    eexists _, (l1' ++ [k]), l2. split.
    { rewrite Hprefix. simpl.
      rewrite (bind_done _ _ _ _ _ (store_valid m3 _ _ _ Hsk)). reflexivity. }
    split; [done|]. split; [done|]. split; [done|].
    constructor; simpl.
    + by rewrite !length_insert.
    + apply lseg_app. exists (Some j). split.
      * eapply lseg_snoc_update; [done|exact Hsk|exact Hold].
      * apply lseg_frame; [|done].
        intros [?|Hin]%elem_of_cons; [done|]. by apply (Hdisj k).
    + exists r. rewrite list_lookup_insert_ne by done.
      apply list_lookup_insert_eq. fold buf. lia.
    + intros i s Hi Hs. destruct (decide (i = k)) as [->|Hik].
      * exists (set_next (Some j) sk). split.
        { apply list_lookup_insert_eq. rewrite length_insert. by eapply lookup_lt_Some. }
        rewrite list_lookup_insert_ne in Hsk by done. fold buf in Hs. by simplify_eq.
      * exists s. rewrite !list_lookup_insert_ne by done. done.
    + done.
    + done.
    + done.
    + done.
    + done.
  - apply last_None_nil in Hlast as ->. simpl in Hold. subst r.
    eexists _, [], l2. split.
    { rewrite Hprefix. reflexivity. }
    split; [done|]. split; [done|]. split; [done|].
    constructor; simpl.
    + by rewrite !length_insert.
    + destruct Hnew as (_ & Hnew). done.
    + eexists. apply list_lookup_insert_eq. fold buf. lia.
    + intros i s Hi Hs. exists s. rewrite list_lookup_insert_ne by done. done.
    + done.
    + done.
    + done.
    + done.
    + done.
Qed.

Lemma push_internal_full m c0 (p0 : task_prio_t) :
  length (taskBuf (scheduler_vars m)) = TASK_LIST_DEPTH →
  Forall (fun s => is_Some (cb s)) (taskBuf (scheduler_vars m)) →
  scheduler_push_task_internal c0 p0 m
  = Reset (flag (Invalid_load (Some TASK_LIST_DEPTH)) m).
Proof.
  intros Hlen Hall. unfold scheduler_push_task_internal.
  rewrite (bind_done _ _ _ _ _
             (find_container_full (S TASK_LIST_DEPTH) 0 m Hlen ltac:(lia) ltac:(lia)
                ltac:(intros k s _ Hs; eapply (proj1 (Forall_lookup _ _) Hall); eauto))).
  destruct (Z.ltb_spec (Z.of_nat TASK_LIST_DEPTH - 1) (Z.of_nat TASK_LIST_DEPTH)); [|lia].
  done.
Qed.

(** Either some container is free, and then there is a first one, or all
    are in use. *)
Lemma first_free_or_full buf :
  (∃ j sj, buf !! j = Some sj ∧ cb sj = None ∧
           ∀ k s, (k < j)%nat → buf !! k = Some s → is_Some (cb s))
  ∨ Forall (fun s => is_Some (cb s)) buf.
Proof.
  induction buf as [|s0 buf IH].
  - right. constructor.
  - destruct (cb s0) as [c|] eqn:Hc.
    + destruct IH as [(j & sj & Hsj & Hfree & Hbefore)|Hall].
      * left. exists (S j), sj. repeat split; try done.
        intros [|k] s Hk Hs; simplify_eq/=; [by rewrite Hc|].
        apply (Hbefore k); [lia|done].
      * right. constructor; [by rewrite Hc|done].
    + left. exists 0%nat, s0. repeat split; try done. intros k s Hk. lia.
Qed.

(** ** scheduler_executeTask *)

Lemma call_valid m i si c :
  taskBuf (scheduler_vars m) !! i = Some si → cb si = Some c →
  call (Some i) m = Done tt (with_executed (executed m ++ [(c, prio si)]) m).
Proof.
  intros Hsi Hc. unfold call.
  rewrite (bind_done _ _ _ _ _ (load_valid _ _ _ Hsi)). by rewrite Hc.
Qed.

Lemma executeTask_valid m i si c :
  taskBuf (scheduler_vars m) !! i = Some si → cb si = Some c →
  scheduler_executeTask (Some i) m = Done tt (released i c (prio si) m).
Proof.
  intros Hsi Hc. unfold scheduler_executeTask.
  pose proof (lookup_lt_Some _ _ _ Hsi) as Hi.
  rewrite (bind_done _ _ _ _ _ (call_valid _ _ _ _ Hsi Hc)).
  erewrite bind_done; last by (apply store_valid; simpl; exact Hsi).
  erewrite bind_done; last first.
  { apply store_valid. simpl. by apply list_lookup_insert_eq. }
  erewrite bind_done; last first.
  { apply store_valid. simpl. rewrite list_insert_insert_eq.
    by apply list_lookup_insert_eq. }
  unfold dbg_decrement, released. simpl. by rewrite !list_insert_insert_eq.
Qed.

(** ** scheduler_find_next_task_and_execute *)

Lemma prio_in_band_null minprio maxprio m :
  ∃ b vs, prio_in_band minprio maxprio None m
          = Done b (flags (Invalid_load None :: vs) m).
Proof.
  unfold prio_in_band, load_prio, load, bind. simpl.
  destruct (minprio <=? prio wild)%N.
  - exists (prio wild <? maxprio)%N, [Invalid_load None].
    unfold ret, flags, flag. simpl. by rewrite <-app_assoc.
  - by exists false, [].
Qed.

Lemma search_band_found minprio maxprio m skip : ∀ fuel prevTask k sk i rest,
  load_link prevTask m = Done (Some k) m →
  taskBuf (scheduler_vars m) !! k = Some sk →
  lseg (taskBuf (scheduler_vars m)) (next sk) None (skip ++ i :: rest) →
  Forall (out_of_band m minprio maxprio) skip →
  in_band minprio maxprio (prio_at m i) = true →
  (length skip < fuel)%nat →
  ∃ prevTask',
    search_band fuel minprio maxprio prevTask (next sk) m
    = Done (prevTask', Some i) m ∧
    load_link prevTask' m = Done (Some (default k (last skip))) m.
Proof.
  induction skip as [|i0 skip IH]; intros fuel prevTask k sk i rest Hprev Hsk Hl Hskip Hi Hfuel;
    (destruct fuel as [|fuel]; [simpl in Hfuel; lia|]);
    simpl in Hl; destruct Hl as (Hnext & s0 & Hs0 & Hl); rewrite Hnext; simpl.
  - rewrite (bind_done _ _ _ _ _ (prio_in_band_valid _ _ _ _ _ Hs0)).
    rewrite <-(prio_at_lookup _ _ _ Hs0), Hi. simpl. eauto.
  - apply Forall_cons in Hskip as [Hi0 Hskip].
    rewrite (bind_done _ _ _ _ _ (prio_in_band_valid _ _ _ _ _ Hs0)).
    rewrite <-(prio_at_lookup _ _ _ Hs0), Hi0. simpl.
    rewrite (bind_done _ _ _ _ _ Hprev).
    rewrite (bind_done _ _ _ _ _ (load_next_valid _ _ _ Hsk)).
    rewrite Hnext.
    rewrite (bind_done _ _ _ _ _ (load_next_valid _ _ _ Hs0)).
    destruct (IH fuel (L_next (Some k)) i0 s0 i rest) as (prevTask' & Hrun & Hload);
      try done.
    { simpl. rewrite (load_next_valid _ _ _ Hsk). by rewrite Hnext. }
    { simpl in Hfuel. lia. }
    exists prevTask'. split; [done|].
    rewrite last_cons_cases. done.
Qed.

Lemma search_band_none minprio maxprio m l : ∀ fuel prevTask k sk,
  load_link prevTask m = Done (Some k) m →
  taskBuf (scheduler_vars m) !! k = Some sk →
  lseg (taskBuf (scheduler_vars m)) (next sk) None l →
  Forall (out_of_band m minprio maxprio) l →
  (length l < fuel)%nat →
  ∃ prevTask' vs,
    search_band fuel minprio maxprio prevTask (next sk) m
    = Done (prevTask', None) (flags (Invalid_load None :: vs) m).
Proof.
  induction l as [|i0 l IH]; intros fuel prevTask k sk Hprev Hsk Hl Hout Hfuel;
    (destruct fuel as [|fuel]; [simpl in Hfuel; lia|]); simpl in Hl.
  - rewrite Hl. simpl.
    destruct (prio_in_band_null minprio maxprio m) as (b & vs & Hb).
    rewrite (bind_done _ _ _ _ _ Hb). rewrite andb_false_r. eauto.
  - destruct Hl as (Hnext & s0 & Hs0 & Hl). rewrite Hnext. simpl.
    apply Forall_cons in Hout as [Hi0 Hout].
    rewrite (bind_done _ _ _ _ _ (prio_in_band_valid _ _ _ _ _ Hs0)).
    rewrite <-(prio_at_lookup _ _ _ Hs0), Hi0. simpl.
    rewrite (bind_done _ _ _ _ _ Hprev).
    rewrite (bind_done _ _ _ _ _ (load_next_valid _ _ _ Hsk)).
    rewrite Hnext.
    rewrite (bind_done _ _ _ _ _ (load_next_valid _ _ _ Hs0)).
    apply (IH fuel (L_next (Some k)) i0 s0); try done.
    { simpl. rewrite (load_next_valid _ _ _ Hsk). by rewrite Hnext. }
    { simpl in Hfuel. lia. }
Qed.

Lemma lseg_non_null buf p q l i : lseg buf p q (i :: l) → p = Some i.
Proof. by intros (-> & _). Qed.

Lemma find_next_found m l1 i l2 minprio maxprio pThisTask :
  wf m (l1 ++ i :: l2) →
  Forall (out_of_band m minprio maxprio) l1 →
  in_band minprio maxprio (prio_at m i) = true →
  ∃ m',
    scheduler_find_next_task_and_execute minprio maxprio pThisTask m = Done true m' ∧
    extracted m m' i l1 l2.
Proof.
  intros [Hlen Hch Hnd Hocc] Hout Hin.
  set (buf := taskBuf (scheduler_vars m)) in *.
  assert (i ∈ l1 ++ i :: l2) as Hi by (apply elem_of_app; right; left).
  destruct (lseg_lookup _ _ _ _ _ Hch Hi) as [si Hsi].
  destruct (proj2 (Hocc i si Hsi) Hi) as [c Hc].
  apply NoDup_app in Hnd as (Hnd1 & Hdisj & [Hil2 Hnd2]%NoDup_cons).
  assert (i ∉ l1) as Hil1.
  { intros Hin1. apply (Hdisj i Hin1). left. }
  pose proof Hch as Hsplit. apply lseg_app in Hsplit as (r & Hseg1 & Hseg2).
  pose proof (lseg_non_null _ _ _ _ _ Hseg2) as ->.
  simpl in Hseg2. destruct Hseg2 as (_ & si' & Hsi' & Hseg2). simplify_eq.
  rewrite (prio_at_lookup _ _ _ Hsi) in Hin.
  unfold scheduler_find_next_task_and_execute.
  destruct l1 as [|k0 l1].
  - simpl in Hseg1.
    assert (load_link L_task_list m = Done (Some i) m) as Hhead
      by (simpl; by rewrite Hseg1).
    rewrite (bind_done _ _ _ _ _ Hhead). cbn [is_non_null].
    rewrite (bind_done _ _ _ _ _ Hhead).
    rewrite (bind_done _ _ _ _ _ (prio_in_band_valid _ _ _ _ _ Hsi)), Hin.
    rewrite (bind_done _ _ _ _ _ Hhead).
    rewrite (bind_done _ _ _ _ _ (load_next_valid _ _ _ Hsi)).
    unfold store_link. unfold bind at 1.
    erewrite bind_done; last by (eapply executeTask_valid; [exact Hsi|exact Hc]).
    eexists. split; [reflexivity|].
    constructor; cbn -[lseg app].
    + by rewrite length_insert.
    + by apply lseg_frame.
    + apply list_lookup_insert_eq. by eapply lookup_lt_Some.
    + intros k s Hk Hs. exists s. by rewrite list_lookup_insert_ne.
    + exists c. by rewrite (cb_at_lookup _ _ _ Hsi), (prio_at_lookup _ _ _ Hsi).
    + done.
    + done.
    + done.
    + done.
  - simpl in Hseg1. destruct Hseg1 as (Hhd & s0 & Hs0 & Hseg1).
    apply Forall_cons in Hout as [Hk0 Hout].
    unfold out_of_band in Hk0. rewrite (prio_at_lookup _ _ _ Hs0) in Hk0.
    assert (load_link L_task_list m = Done (Some k0) m) as Hhead
      by (simpl; by rewrite Hhd).
    assert (lseg buf (next s0) None (l1 ++ i :: l2)) as Hrest.
    { apply lseg_app. exists (Some i). split; [done|]. simpl. eauto. }
    assert (∃ n0, next s0 = Some n0) as [n0 Hn0].
    { destruct l1; simpl in Hrest; destruct Hrest as (-> & _); eauto. }
    destruct (search_band_found minprio maxprio m l1 (loop_fuel m) L_task_list
                k0 s0 i l2) as (prevTask' & Hrun & Hprev); try done.
    { by rewrite (prio_at_lookup _ _ _ Hsi). }
    { unfold loop_fuel. fold buf. rewrite Hlen.
      pose proof (nodup_bounded_length (k0 :: l1) TASK_LIST_DEPTH Hnd1) as Hle.
      simpl in Hle. enough (S (length l1) ≤ TASK_LIST_DEPTH)%nat by lia.
      apply Hle. intros k Hk. rewrite <-Hlen.
      destruct (lseg_lookup buf (Some k0) (Some i) (k0 :: l1) k) as [s Hs]; [|done|].
      - simpl. split; [done|]. eauto.
      - by eapply lookup_lt_Some. }
    set (kp := default k0 (last l1)) in *.
    assert (∃ l1', k0 :: l1 = l1' ++ [kp]) as [l1' Hl1'].
    { apply last_Some_snoc. by rewrite last_cons_cases. }
    assert (kp ∈ k0 :: l1) as Hkp by (rewrite Hl1'; apply elem_of_app; right; left).
    assert (kp ≠ i) as Hkpi by (intros ->; done).
    destruct (lseg_lookup buf (Some k0) (Some i) (k0 :: l1) kp) as [sp Hsp]; [|done|].
    { simpl. split; [done|]. eauto. }
    rewrite (bind_done _ _ _ _ _ Hhead). cbn [is_non_null].
    rewrite (bind_done _ _ _ _ _ Hhead).
    rewrite (bind_done _ _ _ _ _ (prio_in_band_valid _ _ _ _ _ Hs0)), Hk0.
    rewrite (bind_done _ _ _ _ _ Hhead).
    rewrite (bind_done _ _ _ _ _ (load_next_valid _ _ _ Hs0)).
    rewrite Hn0. cbn [is_non_null].
    rewrite (bind_done _ _ _ _ _ Hhead).
    rewrite (bind_done _ _ _ _ _ (load_next_valid _ _ _ Hs0)).
    rewrite (bind_done
               (fun m0 => search_band (loop_fuel m0) minprio maxprio L_task_list
                            (next s0) m0) _ m _ _ Hrun).
    cbn [is_non_null].
    rewrite (bind_done _ _ _ _ _ Hprev).
    rewrite (bind_done _ _ _ _ _ (load_next_valid _ _ _ Hsi)).
    rewrite (bind_done _ _ _ _ _ (store_valid _ _ _ _ Hsp)).
    erewrite bind_done; last first.
    { eapply executeTask_valid; [|exact Hc]. simpl.
      rewrite list_lookup_insert_ne by done. exact Hsi. }
    eexists. split; [reflexivity|].
    assert (kp ∉ l1') as Hkp1.
    { rewrite Hl1' in Hnd1. apply NoDup_app in Hnd1 as (_ & Hd & _).
      intros Hin1. apply (Hd kp Hin1). left. }
    assert (kp ∉ l2) as Hkp2.
    { intros Hin2. apply (Hdisj kp Hkp). by right. }
    constructor; cbn -[lseg app].
    + by rewrite !length_insert.
    + apply lseg_frame.
      { intros [?|?]%elem_of_app; done. }
      rewrite Hl1'. apply lseg_app. exists (next si). split.
      * eapply lseg_snoc_update; [done|exact Hsp|].
        rewrite <-Hl1', Hhd. simpl. split; [done|]. eauto.
      * by apply lseg_frame.
    + apply list_lookup_insert_eq. rewrite length_insert. by eapply lookup_lt_Some.
    + intros k s Hk Hs. rewrite list_lookup_insert_ne by done.
      destruct (decide (k = kp)) as [->|Hkkp].
      * exists (set_next (next si) sp). split.
        { apply list_lookup_insert_eq. by eapply lookup_lt_Some. }
        fold buf in Hs. by simplify_eq.
      * exists s. by rewrite list_lookup_insert_ne.
    + exists c. by rewrite (cb_at_lookup _ _ _ Hsi), (prio_at_lookup _ _ _ Hsi).
    + done.
    + done.
    + done.
    + done.
Qed.

Lemma flags_nil m : flags [] m = m.
Proof. destruct m. unfold flags. simpl. by rewrite app_nil_r. Qed.

Lemma find_next_none m l minprio maxprio pThisTask :
  wf m l →
  Forall (out_of_band m minprio maxprio) l →
  ∃ vs,
    scheduler_find_next_task_and_execute minprio maxprio pThisTask m
    = Done false (flags vs m) ∧
    ((length l ≤ 1)%nat → vs = []) ∧
    ((2 ≤ length l)%nat → ∃ vs', vs = Invalid_load None :: vs').
Proof.
  intros [Hlen Hch Hnd Hocc] Hout.
  set (buf := taskBuf (scheduler_vars m)) in *.
  unfold scheduler_find_next_task_and_execute.
  destruct l as [|k0 l].
  - simpl in Hch. exists []. rewrite flags_nil. split; [|split; [done|simpl; lia]].
    assert (load_link L_task_list m = Done None m) as Hhead by (simpl; by rewrite Hch).
    by rewrite (bind_done _ _ _ _ _ Hhead).
  - simpl in Hch. destruct Hch as (Hhd & s0 & Hs0 & Hch).
    apply Forall_cons in Hout as [Hk0 Hout].
    unfold out_of_band in Hk0. rewrite (prio_at_lookup _ _ _ Hs0) in Hk0.
    assert (load_link L_task_list m = Done (Some k0) m) as Hhead
      by (simpl; by rewrite Hhd).
    rewrite (bind_done _ _ _ _ _ Hhead). cbn [is_non_null].
    rewrite (bind_done _ _ _ _ _ Hhead).
    rewrite (bind_done _ _ _ _ _ (prio_in_band_valid _ _ _ _ _ Hs0)), Hk0.
    rewrite (bind_done _ _ _ _ _ Hhead).
    rewrite (bind_done _ _ _ _ _ (load_next_valid _ _ _ Hs0)).
    destruct l as [|k1 l].
    + simpl in Hch. rewrite Hch. cbn [is_non_null].
      exists []. rewrite flags_nil. split; [done|]. split; [done|simpl; lia].
    + pose proof (lseg_non_null _ _ _ _ _ Hch) as Hn0.
      rewrite Hn0. cbn [is_non_null].
      rewrite (bind_done _ _ _ _ _ Hhead).
      rewrite (bind_done _ _ _ _ _ (load_next_valid _ _ _ Hs0)).
      destruct (search_band_none minprio maxprio m (k1 :: l) (loop_fuel m) L_task_list
                  k0 s0) as (prevTask' & vs & Hrun); try done.
      { unfold loop_fuel. fold buf. rewrite Hlen.
        pose proof (nodup_bounded_length (k0 :: k1 :: l) TASK_LIST_DEPTH Hnd) as Hle.
        simpl in *. enough (S (S (length l)) ≤ TASK_LIST_DEPTH)%nat by lia.
        apply Hle. intros k Hk. rewrite <-Hlen.
        destruct (lseg_lookup buf (Some k0) None (k0 :: k1 :: l) k) as [s Hs]; [|done|].
        - simpl. split; [done|]. eauto.
        - by eapply lookup_lt_Some. }
      rewrite (bind_done
                 (fun m0 => search_band (loop_fuel m0) minprio maxprio L_task_list
                              (next s0) m0) _ m _ _ Hrun).
      cbn [is_non_null].
      exists (Invalid_load None :: vs). split; [done|]. split; [simpl; lia|eauto].
Qed.

(** ** The invariant *)

Lemma pushed_prio_at m m' c0 (p0 : task_prio_t) j l1 l2 k :
  pushed m m' c0 p0 j l1 l2 → k ≠ j →
  is_Some (taskBuf (scheduler_vars m) !! k) →
  prio_at m' k = prio_at m k ∧ cb_at m' k = cb_at m k.
Proof.
  intros Hp Hk [s Hs]. destruct (pushed_others _ _ _ _ _ _ _ Hp k s Hk Hs)
    as (s' & Hs' & Hcb & Hprio).
  by rewrite (prio_at_lookup _ _ _ Hs), (prio_at_lookup _ _ _ Hs'),
             (cb_at_lookup _ _ _ Hs), (cb_at_lookup _ _ _ Hs').
Qed.

Lemma pushed_new m m' c0 (p0 : task_prio_t) j l1 l2 :
  pushed m m' c0 p0 j l1 l2 → prio_at m' j = p0 ∧ cb_at m' j = c0.
Proof.
  intros Hp. destruct (pushed_item _ _ _ _ _ _ _ Hp) as [n Hn].
  by rewrite (prio_at_lookup _ _ _ Hn), (cb_at_lookup _ _ _ Hn).
Qed.

Lemma pushed_wf m m' c (p0 : task_prio_t) j l1 l2 :
  wf m (l1 ++ l2) → j ∉ l1 ++ l2 →
  pushed m m' (Some c) p0 j l1 l2 →
  wf m' (l1 ++ j :: l2).
Proof.
  intros [Hlen Hch Hnd Hocc] Hj Hp. constructor.
  - by rewrite (pushed_length _ _ _ _ _ _ _ Hp).
  - by destruct Hp.
  - apply NoDup_app in Hnd as (Hnd1 & Hdisj & Hnd2).
    apply not_elem_of_app in Hj as [Hj1 Hj2].
    apply NoDup_app. split; [done|]. split.
    + intros k Hk1 [->|Hk2]%elem_of_cons; [done|]. by apply (Hdisj k).
    + by apply NoDup_cons.
  - intros i s' Hs'. destruct (decide (i = j)) as [->|Hij].
    + destruct (pushed_item _ _ _ _ _ _ _ Hp) as [n Hn]. simplify_eq. simpl.
      split; [|by eauto]. intros _. apply elem_of_app. right. left.
    + destruct (lookup_lt_is_Some_2 (taskBuf (scheduler_vars m)) i) as [s Hs].
      { rewrite <-(pushed_length _ _ _ _ _ _ _ Hp). by eapply lookup_lt_Some. }
      destruct (pushed_others _ _ _ _ _ _ _ Hp i s Hij Hs) as (s'' & Hs'' & Hcb & _).
      simplify_eq. rewrite Hcb, (Hocc i s Hs).
      rewrite !elem_of_app, elem_of_cons. tauto.
Qed.

Lemma extracted_prio_at m m' i l1 l2 k :
  extracted m m' i l1 l2 → k ≠ i →
  is_Some (taskBuf (scheduler_vars m) !! k) →
  prio_at m' k = prio_at m k ∧ cb_at m' k = cb_at m k.
Proof.
  intros He Hk [s Hs]. destruct (extracted_others _ _ _ _ _ He k s Hk Hs)
    as (s' & Hs' & Hcb & Hprio).
  by rewrite (prio_at_lookup _ _ _ Hs), (prio_at_lookup _ _ _ Hs'),
             (cb_at_lookup _ _ _ Hs), (cb_at_lookup _ _ _ Hs').
Qed.

Lemma extracted_wf m m' i l1 l2 :
  wf m (l1 ++ i :: l2) →
  extracted m m' i l1 l2 →
  wf m' (l1 ++ l2).
Proof.
  intros [Hlen Hch Hnd Hocc] He.
  apply NoDup_app in Hnd as (Hnd1 & Hdisj & [Hi2 Hnd2]%NoDup_cons).
  assert (i ∉ l1) as Hi1.
  { intros Hin. apply (Hdisj i Hin). left. }
  constructor.
  - by rewrite (extracted_length _ _ _ _ _ He).
  - by destruct He.
  - apply NoDup_app. split; [done|]. split; [|done].
    intros k Hk1 Hk2. apply (Hdisj k Hk1). by right.
  - intros k s' Hs'. destruct (decide (k = i)) as [->|Hki].
    + rewrite (extracted_item _ _ _ _ _ He) in Hs'. simplify_eq. simpl.
      rewrite elem_of_app. split; [by intros [? ?]|]. intros [?|?]; done.
    + destruct (lookup_lt_is_Some_2 (taskBuf (scheduler_vars m)) k) as [s Hs].
      { rewrite <-(extracted_length _ _ _ _ _ He). by eapply lookup_lt_Some. }
      destruct (extracted_others _ _ _ _ _ He k s Hki Hs) as (s'' & Hs'' & Hcb & _).
      simplify_eq. rewrite Hcb, (Hocc k s Hs).
      rewrite !elem_of_app, elem_of_cons. tauto.
Qed.

(** ** Sorted lists of priorities *)

Lemma sorted_insert (a b : list task_prio_t) (p0 : task_prio_t) :
  StronglySorted N.le (a ++ b) →
  Forall (fun x => (x < p0)%N) a →
  (∀ x, head b = Some x → (p0 ≤ x)%N) →
  StronglySorted N.le (a ++ p0 :: b) ∧ Forall (N.le p0) b.
Proof.
  rewrite !StronglySorted_app. intros (Hab & Ha & Hb) Hlt Hhd.
  assert (Forall (N.le p0) b) as Hge.
  { destruct b as [|x b]; [constructor|].
    specialize (Hhd x eq_refl). apply StronglySorted_cons in Hb as [Hxb _].
    constructor; [done|]. eapply Forall_impl; [exact Hxb|]. simpl. intros. lia. }
  split; [|done]. split; [|split; [done|]].
  - intros x1 x2 Hx1 [->|Hx2]%elem_of_cons.
    + apply (proj1 (Forall_forall _ _) Hlt) in Hx1. lia.
    + by apply Hab.
  - apply StronglySorted_cons. done.
Qed.

Lemma sorted_remove (a b : list task_prio_t) (x : task_prio_t) :
  StronglySorted N.le (a ++ x :: b) → StronglySorted N.le (a ++ b).
Proof.
  rewrite !StronglySorted_app. intros (Hab & Ha & [_ Hb]%StronglySorted_cons).
  split; [|done]. intros x1 x2 Hx1 Hx2. apply Hab; [done|]. by right.
Qed.

(** In a sorted list the first element of a band is a smallest one of the
    band. *)
Lemma sorted_first_in_band (a b : list task_prio_t) (x : task_prio_t) minprio maxprio :
  StronglySorted N.le (a ++ x :: b) →
  Forall (fun y => in_band minprio maxprio y = false) a →
  ∀ y, y ∈ a ++ x :: b → in_band minprio maxprio y = true → (x ≤ y)%N.
Proof.
  rewrite StronglySorted_app. intros (Hab & Ha & [Hxb _]%StronglySorted_cons) Hout y.
  intros [Hy|[->|Hy]%elem_of_cons]%elem_of_app Hin.
  - apply (proj1 (Forall_forall _ _) Hout) in Hy. congruence.
  - done.
  - by apply (proj1 (Forall_forall _ _) Hxb).
Qed.

Lemma band_split m minprio maxprio l :
  Forall (out_of_band m minprio maxprio) l
  ∨ ∃ l1 i l2, l = l1 ++ i :: l2 ∧
               Forall (out_of_band m minprio maxprio) l1 ∧
               in_band minprio maxprio (prio_at m i) = true.
Proof.
  induction l as [|k l IH]; [left; constructor|].
  destruct (in_band minprio maxprio (prio_at m k)) eqn:Hk.
  - right. exists [], k, l. repeat split; [constructor|done].
  - destruct IH as [Hall|(l1 & i & l2 & -> & Hout & Hin)].
    + left. by constructor.
    + right. exists (k :: l1), i, l2. repeat split; [by constructor|done].
Qed.

(** ** Preservation of the invariant *)

Lemma wf_same_vars m m' l :
  scheduler_vars m' = scheduler_vars m → wf m l → wf m' l.
Proof. intros Heq [? ? ? ?]. constructor; rewrite ?Heq; done. Qed.

Lemma queue_same_vars m m' :
  scheduler_vars m' = scheduler_vars m → queue m' = queue m.
Proof. unfold queue. by intros ->. Qed.

Lemma prio_at_same_vars m m' i :
  scheduler_vars m' = scheduler_vars m → prio_at m' i = prio_at m i.
Proof. unfold prio_at, item_at. by intros ->. Qed.

Lemma inv_same_vars m m' :
  scheduler_vars m' = scheduler_vars m → inv m → inv m'.
Proof.
  intros Heq [Hwf Hs]. split.
  - rewrite (queue_same_vars _ _ Heq). by apply (wf_same_vars m).
  - unfold sorted_queue, queued_prios in *. rewrite (queue_same_vars _ _ Heq).
    erewrite list_fmap_ext; [exact Hs|]. intros. by apply prio_at_same_vars.
Qed.

Lemma pushed_inv m m' c (p0 : task_prio_t) j l1 l2 :
  inv m → queue m = l1 ++ l2 → j ∉ l1 ++ l2 →
  Forall (fun i => (prio_at m i < p0)%N) l1 →
  (∀ i, head l2 = Some i → (p0 ≤ prio_at m i)%N) →
  pushed m m' (Some c) p0 j l1 l2 →
  queue m' = l1 ++ j :: l2 ∧ inv m' ∧ Forall (fun i => (p0 ≤ prio_at m i)%N) l2.
Proof.
  intros [Hwf Hs] Hq Hj Hl1 Hl2 Hp. rewrite Hq in Hwf.
  pose proof (pushed_wf _ _ _ _ _ _ _ Hwf Hj Hp) as Hwf'.
  pose proof (wf_queue _ _ Hwf') as Hq'.
  unfold sorted_queue, queued_prios in Hs. rewrite Hq, fmap_app in Hs.
  destruct (sorted_insert _ _ p0 Hs) as [Hs' Hge].
  { by apply Forall_fmap. }
  { intros x Hx. destruct l2 as [|i l2]; simplify_eq/=. by apply Hl2. }
  assert (∀ k, k ∈ l1 ++ l2 → prio_at m' k = prio_at m k) as Hsame.
  { intros k Hk. eapply pushed_prio_at; [exact Hp|by intros ->|].
    eapply lseg_lookup; [apply (wf_chain _ _ Hwf)|done]. }
  split; [done|]. split; [|rewrite Forall_fmap in Hge; exact Hge].
  split; [by rewrite Hq'|].
  unfold sorted_queue, queued_prios. rewrite Hq', fmap_app, fmap_cons.
  rewrite (proj1 (pushed_new _ _ _ _ _ _ _ Hp)).
  rewrite (list_fmap_ext (prio_at m') (prio_at m) l1), (list_fmap_ext (prio_at m') (prio_at m) l2);
    [done| |].
  - intros ? k Hk%list_elem_of_lookup_2. apply Hsame, elem_of_app. by right.
  - intros ? k Hk%list_elem_of_lookup_2. apply Hsame, elem_of_app. by left.
Qed.

Lemma extracted_inv m m' i l1 l2 :
  inv m → queue m = l1 ++ i :: l2 →
  extracted m m' i l1 l2 →
  queue m' = l1 ++ l2 ∧ inv m'.
Proof.
  intros [Hwf Hs] Hq He. rewrite Hq in Hwf.
  pose proof (extracted_wf _ _ _ _ _ Hwf He) as Hwf'.
  pose proof (wf_queue _ _ Hwf') as Hq'.
  split; [done|]. split; [by rewrite Hq'|].
  unfold sorted_queue, queued_prios in *. rewrite Hq, fmap_app, fmap_cons in Hs.
  apply sorted_remove in Hs. rewrite Hq', fmap_app.
  pose proof (wf_nodup _ _ Hwf) as Hnd.
  apply NoDup_app in Hnd as (_ & Hdisj & [Hi2 _]%NoDup_cons).
  assert (∀ k, k ∈ l1 ++ l2 → prio_at m' k = prio_at m k) as Hsame.
  { intros k Hk. eapply extracted_prio_at; [exact He| |].
    - intros ->. apply elem_of_app in Hk as [Hk|Hk]; [|done].
      apply (Hdisj i Hk). left.
    - eapply lseg_lookup; [apply (wf_chain _ _ Hwf)|].
      rewrite elem_of_app, elem_of_cons. rewrite elem_of_app in Hk. tauto. }
  rewrite (list_fmap_ext (prio_at m') (prio_at m) l1), (list_fmap_ext (prio_at m') (prio_at m) l2);
    [done| |].
  - intros ? k Hk%list_elem_of_lookup_2. apply Hsame, elem_of_app. by right.
  - intros ? k Hk%list_elem_of_lookup_2. apply Hsame, elem_of_app. by left.
Qed.

Lemma chain_null fuel buf : chain fuel buf None = [].
Proof. by destruct fuel. Qed.

Lemma wf_initial : wf initial [].
Proof.
  constructor; simpl.
  - apply length_replicate.
  - done.
  - constructor.
  - intros i s [-> _]%lookup_replicate. simpl.
    split; [by intros [? ?]|]. by intros ?%elem_of_nil.
Qed.

Lemma inv_initial : inv initial.
Proof.
  assert (queue initial = []) as Hq by apply chain_null.
  split.
  - rewrite Hq. apply wf_initial.
  - unfold sorted_queue, queued_prios. rewrite Hq. constructor.
Qed.

(** A push on a well-formed list either finds every container in use and
    resets, or links the first free container [j] into the list. *)
Lemma push_internal_cases m l c0 (p0 : task_prio_t) :
  wf m l →
  (Forall (fun s => is_Some (cb s)) (taskBuf (scheduler_vars m)) ∧
   scheduler_push_task_internal c0 p0 m
   = Reset (flag (Invalid_load (Some TASK_LIST_DEPTH)) m))
  ∨ (∃ m' j l1 l2,
       scheduler_push_task_internal c0 p0 m = Done tt m' ∧
       l = l1 ++ l2 ∧ (j ∉ l) ∧
       Forall (fun i => (prio_at m i < p0)%N) l1 ∧
       (∀ i, head l2 = Some i → (p0 ≤ prio_at m i)%N) ∧
       pushed m m' c0 p0 j l1 l2).
Proof.
  intros Hwf.
  destruct (first_free_or_full (taskBuf (scheduler_vars m)))
    as [(j & sj & Hsj & Hfree & Hbefore)|Hfull].
  - right.
    destruct (push_internal_free m l j sj c0 p0 Hwf Hsj Hfree Hbefore)
      as (m' & l1 & l2 & Hrun & Hl & Hl1 & Hl2 & Hp).
    exists m', j, l1, l2. split; [done|]. split; [done|]. split; [|done].
    intros Hin. apply (wf_occupied _ _ Hwf j sj Hsj) in Hin.
    rewrite Hfree in Hin. by destruct Hin.
  - left. split; [done|]. apply push_internal_full; [by destruct Hwf|done].
Qed.

Lemma push_task_unfold c0 (p0 : task_prio_t) m :
  scheduler_push_task c0 p0 m
  = match scheduler_push_task_internal c0 p0 m with
    | Done _ m1 =>
        match signal_of p0 with
        | Some x => Done tt (sem_set x true m1)
        | None => Reset m1
        end
    | Reset m1 => Reset m1
    | Blocked m1 => Blocked m1
    | OutOfFuel => OutOfFuel
    end.
Proof.
  unfold scheduler_push_task, signal_of. unfold bind at 1.
  destruct (scheduler_push_task_internal c0 p0 m) as [[] m1|m1|m1|]; try done.
  unfold bind.
  destruct (p0 <=? SCHEDULER_STACK_PRIO_BOUNDARY)%N; [done|].
  destruct ((SCHEDULER_STACK_PRIO_BOUNDARY <? p0)%N
            && (p0 <=? SCHEDULER_SENDDONETIMER_PRIO_BOUNDARY)%N); [done|].
  destruct ((SCHEDULER_SENDDONETIMER_PRIO_BOUNDARY <? p0)%N
            && (p0 <=? SCHEDULER_APP_PRIO_BOUNDARY)%N); done.
Qed.

Lemma sem_set_vars x v m : scheduler_vars (sem_set x v m) = scheduler_vars m.
Proof. by destruct x. Qed.
Lemma sem_set_dbg x v m : scheduler_dbg (sem_set x v m) = scheduler_dbg m.
Proof. by destruct x. Qed.
Lemma sem_set_executed x v m : executed (sem_set x v m) = executed m.
Proof. by destruct x. Qed.
Lemma sem_value_set x v m : sem_value x (sem_set x v m) = v.
Proof. by destruct x. Qed.

(** What a returning [scheduler_push_task] has done, in terms of the queue. *)
Lemma push_task_done m c (p0 : task_prio_t) m' :
  inv m →
  scheduler_push_task (Some c) p0 m = Done tt m' →
  ∃ m1 x j l1 l2,
    scheduler_push_task_internal (Some c) p0 m = Done tt m1 ∧
    signal_of p0 = Some x ∧ m' = sem_set x true m1 ∧
    queue m = l1 ++ l2 ∧ (j ∉ queue m) ∧ queue m' = l1 ++ j :: l2 ∧
    Forall (fun i => (prio_at m i < p0)%N) l1 ∧
    Forall (fun i => (p0 ≤ prio_at m i)%N) l2 ∧
    pushed m m1 (Some c) p0 j l1 l2 ∧
    inv m'.
Proof.
  intros Hinv Hrun. rewrite push_task_unfold in Hrun.
  destruct (push_internal_cases m (queue m) (Some c) p0 (proj1 Hinv))
    as [[_ Hreset]|(m1 & j & l1 & l2 & Hint & Hq & Hj & Hl1 & Hl2 & Hp)].
  { by rewrite Hreset in Hrun. }
  rewrite Hint in Hrun. destruct (signal_of p0) as [x|] eqn:Hsig; [|done].
  simplify_eq.
  rewrite Hq in Hj.
  destruct (pushed_inv m m1 c p0 j l1 l2 Hinv Hq Hj Hl1 Hl2 Hp) as (Hq1 & Hinv1 & Hge).
  exists m1, x, j, l1, l2. rewrite <-Hq in Hj.
  do 5 (split; [done|]). split.
  { by rewrite (queue_same_vars _ _ (sem_set_vars x true m1)). }
  do 3 (split; [done|]).
  apply (inv_same_vars m1); [apply sem_set_vars|done].
Qed.

Lemma flags_vars vs m : scheduler_vars (flags vs m) = scheduler_vars m.
Proof. done. Qed.

(** What [scheduler_find_next_task_and_execute] does on a state that
    satisfies the invariant. *)
Lemma find_next_cases m minprio maxprio pThisTask :
  inv m →
  (Forall (out_of_band m minprio maxprio) (queue m) ∧
   ∃ vs, scheduler_find_next_task_and_execute minprio maxprio pThisTask m
         = Done false (flags vs m) ∧
         ((length (queue m) ≤ 1)%nat → vs = []) ∧
         ((2 ≤ length (queue m))%nat → ∃ vs', vs = Invalid_load None :: vs'))
  ∨ (∃ m' l1 i l2,
       queue m = l1 ++ i :: l2 ∧
       Forall (out_of_band m minprio maxprio) l1 ∧
       in_band minprio maxprio (prio_at m i) = true ∧
       scheduler_find_next_task_and_execute minprio maxprio pThisTask m = Done true m' ∧
       extracted m m' i l1 l2 ∧
       queue m' = l1 ++ l2 ∧ inv m').
Proof.
  intros Hinv.
  destruct (band_split m minprio maxprio (queue m))
    as [Hout|(l1 & i & l2 & Hq & Hout & Hin)].
  - left. split; [done|]. by apply find_next_none; [apply Hinv|].
  - right. pose proof (proj1 Hinv) as Hwf. rewrite Hq in Hwf.
    destruct (find_next_found m l1 i l2 minprio maxprio pThisTask Hwf Hout Hin)
      as (m' & Hrun & He).
    destruct (extracted_inv m m' i l1 l2 Hinv Hq He) as [Hq' Hinv'].
    exists m', l1, i, l2. done.
Qed.

Lemma inv_execute m minprio maxprio pThisTask b m' :
  inv m →
  scheduler_find_next_task_and_execute minprio maxprio pThisTask m = Done b m' →
  inv m'.
Proof.
  intros Hinv Hrun.
  destruct (find_next_cases m minprio maxprio pThisTask Hinv)
    as [(_ & vs & Hrun' & _)|(m'' & l1 & i & l2 & _ & _ & _ & Hrun' & _ & _ & Hinv')];
    rewrite Hrun' in Hrun; simplify_eq; [|done].
  by apply (inv_same_vars m).
Qed.

Lemma take_done x m m' :
  xSemaphoreTake x m = Done tt m' → sem_value x m = true ∧ m' = sem_set x false m.
Proof. unfold xSemaphoreTake. destruct (sem_value x m); [|done]. by intros [= <-]. Qed.

Lemma reachable_inv m : reachable m → inv m.
Proof.
  induction 1 as [|m c p0 m' _ IH Hrun|m minprio maxprio pT b m' _ IH Hrun
                  |m x m' _ IH Hrun].
  - apply inv_initial.
  - destruct (push_task_done m c p0 m' IH Hrun)
      as (? & ? & ? & ? & ? & _ & _ & _ & _ & _ & _ & _ & _ & _ & Hinv'). done.
  - by eapply inv_execute.
  - apply take_done in Hrun as [_ ->]. apply (inv_same_vars m); [apply sem_set_vars|done].
Qed.

(** ** The debug counters *)

Lemma occupied_slots_length m l : wf m l → length (occupied_slots m) = length l.
Proof.
  intros [Hlen Hch Hnd Hocc]. apply Permutation_length, NoDup_Permutation; [|done|].
  { apply NoDup_filter, NoDup_seq. }
  intros i. unfold occupied_slots. rewrite list_elem_of_filter, elem_of_seq. split.
  - intros [Hcb [_ Hi]].
    destruct (lookup_lt_is_Some_2 (taskBuf (scheduler_vars m)) i) as [s Hs]; [lia|].
    rewrite (cb_at_lookup _ _ _ Hs) in Hcb. by apply (Hocc i s Hs).
  - intros Hi. destruct (lseg_lookup _ _ _ _ _ Hch Hi) as [s Hs].
    rewrite (cb_at_lookup _ _ _ Hs). split; [by apply (Hocc i s Hs)|].
    apply lookup_lt_Some in Hs. lia.
Qed.

Lemma inv_queue_bound m : inv m → (length (queue m) ≤ TASK_LIST_DEPTH)%nat.
Proof. intros [Hwf _]. by apply (wf_length_le m). Qed.

Lemma dbg_push m c (p0 : task_prio_t) m' :
  Z.of_nat TASK_LIST_DEPTH < DBG_MODULUS →
  inv m → dbg_inv m →
  scheduler_push_task (Some c) p0 m = Done tt m' →
  dbg_inv m' ∧
  numTasksCur (scheduler_dbg m') = numTasksCur (scheduler_dbg m) + 1 ∧
  numTasksMax (scheduler_dbg m) ≤ numTasksMax (scheduler_dbg m').
Proof.
  intros Hmod Hinv [Hcur Hmax] Hrun.
  destruct (push_task_done m c p0 m' Hinv Hrun)
    as (m1 & x & j & l1 & l2 & _ & _ & -> & Hq & _ & Hq' & _ & _ & Hp & Hinv').
  pose proof (inv_queue_bound _ Hinv') as Hbound.
  unfold dbg_inv. rewrite sem_set_dbg, Hq' in *.
  rewrite (pushed_max _ _ _ _ _ _ _ Hp), (pushed_cur _ _ _ _ _ _ _ Hp).
  rewrite Hq in Hcur. rewrite length_app in *. simpl in *.
  rewrite Z.mod_small by lia.
  destruct (Z.ltb_spec (numTasksMax (scheduler_dbg m)) (numTasksCur (scheduler_dbg m) + 1));
    lia.
Qed.

Lemma dbg_execute m minprio maxprio pThisTask b m' :
  Z.of_nat TASK_LIST_DEPTH < DBG_MODULUS →
  inv m → dbg_inv m →
  scheduler_find_next_task_and_execute minprio maxprio pThisTask m = Done b m' →
  dbg_inv m' ∧
  numTasksCur (scheduler_dbg m')
  = (if b then numTasksCur (scheduler_dbg m) - 1 else numTasksCur (scheduler_dbg m)) ∧
  numTasksMax (scheduler_dbg m') = numTasksMax (scheduler_dbg m).
Proof.
  intros Hmod Hinv [Hcur Hmax] Hrun.
  pose proof (inv_queue_bound _ Hinv) as Hbound.
  destruct (find_next_cases m minprio maxprio pThisTask Hinv)
    as [(_ & vs & Hrun' & _)|(m'' & l1 & i & l2 & Hq & _ & _ & Hrun' & He & Hq' & _)];
    rewrite Hrun' in Hrun; simplify_eq.
  - unfold dbg_inv. rewrite (queue_same_vars _ _ (flags_vars vs m)). done.
  - unfold dbg_inv. rewrite Hq'.
    rewrite (extracted_max _ _ _ _ _ He), (extracted_cur _ _ _ _ _ He).
    rewrite Hq in Hcur, Hbound. rewrite length_app in *. simpl in *.
    rewrite Z.mod_small by lia. lia.
Qed.

Lemma dbg_initial : dbg_inv initial.
Proof. unfold dbg_inv. by rewrite (wf_queue _ _ wf_initial). Qed.

Lemma reachable_dbg m :
  Z.of_nat TASK_LIST_DEPTH < DBG_MODULUS → reachable m → dbg_inv m.
Proof.
  intros Hmod. induction 1 as [|m c p0 m' Hr IH Hrun|m minprio maxprio pT b m' Hr IH Hrun
                               |m x m' _ IH Hrun].
  - apply dbg_initial.
  - by apply (dbg_push m c p0 m' Hmod (reachable_inv _ Hr) IH).
  - by apply (dbg_execute m minprio maxprio pT b m' Hmod (reachable_inv _ Hr) IH).
  - apply take_done in Hrun as [_ ->]. unfold dbg_inv in *.
    by rewrite sem_set_dbg, (queue_same_vars _ _ (sem_set_vars x false m)).
Qed.

(** ** One extraction, in terms of the queue *)

Lemma cb_at_same_vars m m' i :
  scheduler_vars m' = scheduler_vars m → cb_at m' i = cb_at m i.
Proof. unfold cb_at, item_at. by intros ->. Qed.

Lemma find_next_step m minprio maxprio pThisTask :
  inv m →
  ∃ b m',
    scheduler_find_next_task_and_execute minprio maxprio pThisTask m = Done b m' ∧
    inv m' ∧
    rtos_sched_v m' = rtos_sched_v m ∧
    (∀ k, k ∈ queue m' → k ∈ queue m ∧ prio_at m' k = prio_at m k) ∧
    (b = true →
       ∃ i c, most_urgent_in_band m minprio maxprio i ∧
              cb_at m i = Some c ∧
              executed m' = executed m ++ [(c, prio_at m i)] ∧
              ∀ k, k ∈ queue m' ↔ k ∈ queue m ∧ k ≠ i) ∧
    (b = false →
       Forall (fun k => in_band minprio maxprio (prio_at m k) = false) (queue m) ∧
       scheduler_vars m' = scheduler_vars m ∧
       scheduler_dbg m' = scheduler_dbg m ∧
       executed m' = executed m).
Proof.
  intros Hinv.
  destruct (find_next_cases m minprio maxprio pThisTask Hinv)
    as [(Hout & vs & Hrun & _)
       |(m' & l1 & i & l2 & Hq & Hout & Hin & Hrun & He & Hq' & Hinv')].
  - exists false, (flags vs m). split; [done|].
    split; [by apply (inv_same_vars m)|]. split; [done|]. split; [|done].
    intros k Hk. rewrite (queue_same_vars _ _ (flags_vars vs m)) in Hk.
    split; [done|]. by apply prio_at_same_vars.
  - exists true, m'. split; [done|]. split; [done|].
    split; [by destruct He|].
    pose proof (proj1 Hinv) as Hwf. rewrite Hq in Hwf.
    pose proof (wf_nodup _ _ Hwf) as Hnd.
    apply NoDup_app in Hnd as (_ & Hdisj & [Hi2 _]%NoDup_cons).
    assert (i ∉ l1) as Hi1.
    { intros Hi. apply (Hdisj i Hi). left. }
    assert (∀ k, k ∈ queue m' ↔ k ∈ queue m ∧ k ≠ i) as Hmem.
    { intros k. rewrite Hq, Hq', !elem_of_app, elem_of_cons. split.
      - intros [?|?]; (split; [tauto|]); by intros ->.
      - tauto. }
    split; [|split; [|done]].
    + intros k Hk. apply Hmem in Hk as [Hk Hki]. split; [done|].
      eapply extracted_prio_at; [exact He|done|].
      eapply lseg_lookup; [apply (wf_chain _ _ Hwf)|]. by rewrite <-Hq.
    + intros _. destruct (extracted_executed _ _ _ _ _ He) as (c & Hc & Hex).
      exists i, c. split; [|done].
      split; [rewrite Hq; apply elem_of_app; right; left|]. split; [done|].
      intros k Hk Hkin.
      destruct Hinv as [_ Hs]. unfold sorted_queue, queued_prios in Hs.
      rewrite Hq, fmap_app, fmap_cons in Hs.
      apply (sorted_first_in_band _ _ _ minprio maxprio Hs); [|
        rewrite <-fmap_cons, <-fmap_app, <-Hq; by apply list_elem_of_fmap_2|done].
      rewrite Forall_fmap. exact Hout.
Qed.

Lemma bind_assoc {A B C} (c : M A) (k1 : A → M B) (k2 : B → M C) m :
  bind (bind c k1) k2 m = bind c (fun a => bind (k1 a) k2) m.
Proof. unfold bind. by destruct (c m). Qed.

Lemma bind_cong {A B} (c : M A) (k k' : A → M B) m :
  (∀ a m', k a m' = k' a m') → bind c k m = bind c k' m.
Proof. intros Hk. unfold bind. by destruct (c m). Qed.

Lemma extract_n_succ_r n minprio maxprio m :
  extract_n (S n) minprio maxprio m
  = (extract_n n minprio maxprio ;;
     scheduler_find_next_task_and_execute minprio maxprio None ;; ret tt) m.
Proof.
  revert m. induction n as [|n IH]; intros m; [reflexivity|].
  cbn [extract_n] in *. rewrite bind_assoc. apply bind_cong.
  intros _ m'. apply IH.
Qed.

(** [n] extractions on one band from a state that satisfies the invariant
    return, and run tasks of the band in non-decreasing order of priority. *)
Lemma extract_n_spec n minprio maxprio : ∀ m,
  inv m →
  ∃ m' xs,
    extract_n n minprio maxprio m = Done tt m' ∧
    inv m' ∧
    (∀ k, k ∈ queue m' → k ∈ queue m ∧ prio_at m' k = prio_at m k) ∧
    executed m' = executed m ++ xs ∧
    Forall (fun x => in_band minprio maxprio (snd x) = true ∧
                     ∃ k, k ∈ queue m ∧ prio_at m k = snd x) xs ∧
    StronglySorted N.le (snd <$> xs).
Proof.
  induction n as [|n IH]; intros m Hinv.
  - exists m, []. rewrite app_nil_r. do 4 (split; [done|]). split; constructor.
  - destruct (find_next_step m minprio maxprio None Hinv)
      as (b & m1 & Hrun & Hinv1 & _ & Hsub & Htrue & Hfalse).
    destruct (IH m1 Hinv1) as (m' & xs & Hrun' & Hinv' & Hsub' & Hex & Hxs & Hsorted).
    assert (extract_n (S n) minprio maxprio m = Done tt m') as Hrun''.
    { simpl. by rewrite (bind_done _ _ _ _ _ Hrun). }
    assert (∀ k, k ∈ queue m' → k ∈ queue m ∧ prio_at m' k = prio_at m k) as Hsub''.
    { intros k Hk. destruct (Hsub' k Hk) as [Hk1 ->]. by apply Hsub. }
    assert (Forall (fun x => in_band minprio maxprio (snd x) = true ∧
                             ∃ k, k ∈ queue m ∧ prio_at m k = snd x) xs) as Hxs'.
    { eapply Forall_impl; [exact Hxs|]. simpl.
      intros x [Hin (k & Hk & Hprio)]. split; [done|].
      exists k. destruct (Hsub k Hk) as [? <-]. done. }
    destruct b.
    + destruct (Htrue eq_refl) as (i & c & (Hi & Hiband & Hmin) & Hc & Hex1 & _).
      exists m', ((c, prio_at m i) :: xs).
      split; [done|]. split; [done|]. split; [done|].
      split; [by rewrite Hex, Hex1, <-app_assoc|]. split.
      * constructor; [|done]. simpl. eauto.
      * rewrite fmap_cons. simpl. apply StronglySorted_cons. split; [|done].
        rewrite Forall_fmap. eapply Forall_impl; [exact Hxs'|]. simpl.
        intros x [Hin (k & Hk & Hprio)]. rewrite <-Hprio. apply Hmin; [done|].
        by rewrite Hprio.
    + destruct (Hfalse eq_refl) as (_ & _ & _ & Hex1).
      exists m', xs. rewrite <-Hex1. done.
Qed.

Lemma push_all_reachable ps : ∀ m m',
  reachable m → push_all ps m = Done tt m' →
  reachable m' ∧ executed m' = executed m.
Proof.
  induction ps as [|[c p0] ps IH]; intros m m' Hreach Hrun.
  - cbn [push_all] in Hrun. unfold ret in Hrun. by simplify_eq.
  - cbn [push_all] in Hrun. unfold bind at 1 in Hrun.
    destruct (scheduler_push_task (Some c) p0 m) as [[] m1|?|?|] eqn:Hpush; try done.
    destruct (IH m1 m' (reach_push m c p0 m1 Hreach Hpush) Hrun) as [? ->].
    split; [done|].
    destruct (push_task_done m c p0 m1 (reachable_inv _ Hreach) Hpush)
      as (m0 & x & j & l1 & l2 & _ & _ & -> & _ & _ & _ & _ & _ & Hp & _).
    rewrite sem_set_executed. by destruct Hp.
Qed.

(** ** The order of two queued tasks *)

Lemma insert_before_equals_app (f : nat → task_prio_t) j l1 l2 :
  Forall (fun i => (f i < f j)%N) l1 →
  (∀ i, head l2 = Some i → (f j ≤ f i)%N) →
  insert_before_equals f j (l1 ++ l2) = l1 ++ j :: l2.
Proof.
  intros Hl1 Hl2. induction Hl1 as [|i l1 Hi _ IH]; simpl.
  - destruct l2 as [|i l2]; [done|]. simpl.
    specialize (Hl2 i eq_refl). destruct (N.ltb_spec (f i) (f j)); [lia|done].
  - destruct (N.ltb_spec (f i) (f j)); [|lia]. by rewrite IH.
Qed.

Lemma precedes_insert j i l1 l2 k :
  precedes j i (l1 ++ l2) → precedes j i (l1 ++ k :: l2).
Proof.
  intros (a & c & Heq & Hi).
  symmetry in Heq. apply app_eq_app in Heq as [l [[Ha Hl2]|[Hl1 Heq]]].
  - subst a l2. exists (l1 ++ k :: l), c. split; [|done].
    by rewrite <-app_assoc.
  - subst l1. destruct l as [|y l]; simpl in Heq; simplify_eq.
    + exists (a ++ [k]), c. split; [|done]. by rewrite app_nil_r, <-app_assoc.
    + exists a, (l ++ k :: l2). split; [by rewrite <-app_assoc|].
      rewrite elem_of_app, elem_of_cons. rewrite elem_of_app in Hi. tauto.
Qed.

Lemma precedes_remove j i l1 x l2 :
  precedes j i (l1 ++ x :: l2) → x ≠ j → x ≠ i → precedes j i (l1 ++ l2).
Proof.
  intros (a & c & Heq & Hi) Hxj Hxi.
  symmetry in Heq. apply app_eq_app in Heq as [l [[Ha Heq]|[Hl1 Heq]]].
  - subst a. destruct l as [|y l]; simpl in Heq; simplify_eq.
    exists (l1 ++ l), c. split; [|done]. by rewrite <-app_assoc.
  - subst l1. destruct l as [|y l]; simpl in Heq; simplify_eq.
    exists a, (l ++ l2). split; [by rewrite <-app_assoc|].
    rewrite elem_of_app. rewrite elem_of_app, elem_of_cons in Hi.
    intuition congruence.
Qed.

Lemma precedes_extracted j i l1 l2 :
  NoDup (l1 ++ i :: l2) → precedes j i (l1 ++ i :: l2) → j ∈ l1.
Proof.
  intros Hnd (a & c & Heq & Hi).
  apply NoDup_app in Hnd as (_ & Hdisj & [Hi2 _]%NoDup_cons).
  symmetry in Heq. apply app_eq_app in Heq as [l [[Ha Heq]|[Hl1 Heq]]].
  - subst a. destruct l as [|y l]; simpl in Heq; simplify_eq; [done|].
    exfalso. apply Hi2. apply elem_of_app. right. by right.
  - subst l1. destruct l as [|y l]; simpl in Heq; simplify_eq; [done|].
    apply elem_of_app. right. left.
Qed.

Lemma precedes_elem_of j i l : precedes j i l → j ∈ l ∧ i ∈ l.
Proof.
  intros (a & c & -> & Hi). rewrite !elem_of_app, !elem_of_cons. tauto.
Qed.

Lemma inv_lookup m k : inv m → k ∈ queue m → is_Some (taskBuf (scheduler_vars m) !! k).
Proof. intros [Hwf _] Hk. eapply lseg_lookup; [apply (wf_chain _ _ Hwf)|done]. Qed.

Lemma lifo_push j i m c (p0 : task_prio_t) m' :
  lifo_inv j i m →
  scheduler_push_task (Some c) p0 m = Done tt m' →
  lifo_inv j i m'.
Proof.
  intros (Hinv & Hprec & Hprio) Hrun.
  destruct (push_task_done m c p0 m' Hinv Hrun)
    as (m1 & x & k & l1 & l2 & _ & _ & -> & Hq & Hk & Hq' & _ & _ & Hp & Hinv').
  destruct (precedes_elem_of _ _ _ Hprec) as [Hj Hi].
  split; [done|]. split.
  - rewrite Hq'. apply precedes_insert. by rewrite <-Hq.
  - rewrite !(prio_at_same_vars _ _ _ (sem_set_vars x true m1)).
    destruct (pushed_prio_at m m1 _ _ _ _ _ j Hp) as [-> _];
      [by intros ->|by apply inv_lookup|].
    destruct (pushed_prio_at m m1 _ _ _ _ _ i Hp) as [-> _];
      [by intros ->|by apply inv_lookup|].
    done.
Qed.

Lemma lifo_execute j i m minprio maxprio pThisTask b m' :
  lifo_inv j i m →
  scheduler_find_next_task_and_execute minprio maxprio pThisTask m = Done b m' →
  j ∈ queue m' →
  lifo_inv j i m'.
Proof.
  intros (Hinv & Hprec & Hprio) Hrun Hj'.
  destruct (find_next_cases m minprio maxprio pThisTask Hinv)
    as [(_ & vs & Hrun' & _)|(m'' & l1 & x & l2 & Hq & Hout & Hin & Hrun' & He & Hq' & Hinv')];
    rewrite Hrun' in Hrun; simplify_eq.
  - split; [by apply (inv_same_vars m)|].
    rewrite (queue_same_vars _ _ (flags_vars vs m)).
    by rewrite !(prio_at_same_vars _ _ _ (flags_vars vs m)).
  - pose proof (wf_nodup _ _ (proj1 Hinv)) as Hnd. rewrite Hq in Hnd, Hprec.
    destruct (precedes_elem_of _ _ _ Hprec) as [Hj Hi].
    assert (x ≠ j) as Hxj.
    { intros ->. rewrite Hq' in Hj'.
      apply NoDup_app in Hnd as (_ & Hdisj & [Hx2 _]%NoDup_cons).
      apply elem_of_app in Hj' as [Hj1|Hj2]; [|done]. apply (Hdisj j Hj1). left. }
    assert (x ≠ i) as Hxi.
    { intros ->. pose proof (precedes_extracted _ _ _ _ Hnd Hprec) as Hj1.
      apply (proj1 (Forall_forall _ _) Hout) in Hj1. unfold out_of_band in Hj1.
      rewrite Hprio in Hj1. congruence. }
    split; [done|]. split.
    + rewrite Hq'. by eapply precedes_remove.
    + destruct (extracted_prio_at m m' x l1 l2 j He) as [-> _];
        [done|apply inv_lookup; [done|by rewrite Hq]|].
      destruct (extracted_prio_at m m' x l1 l2 i He) as [-> _];
        [done|apply inv_lookup; [done|by rewrite Hq]|].
      done.
Qed.

Lemma queued_since_lifo j i m0 m :
  lifo_inv j i m0 → queued_since j m0 m → lifo_inv j i m.
Proof.
  intros H0. induction 1 as [|m c p0 m' _ IH Hrun _|m minprio maxprio pT b m' _ IH Hrun Hj
                            |m x m' _ IH Hrun].
  - done.
  - by eapply lifo_push.
  - by eapply lifo_execute.
  - apply take_done in Hrun as [_ ->]. destruct IH as (Hinv & Hprec & Hprio).
    split; [by apply (inv_same_vars m); [apply sem_set_vars|]|].
    rewrite (queue_same_vars _ _ (sem_set_vars x false m)).
    by rewrite !(prio_at_same_vars _ _ _ (sem_set_vars x false m)).
Qed.

(** With two or more tasks queued and none in the band, the search reads
    the priority of [NULL] before it returns [FALSE]. *)
Lemma find_next_null_dereference m minprio maxprio pThisTask :
  reachable m →
  (2 ≤ length (queue m))%nat →
  Forall (fun k => in_band minprio maxprio (prio_at m k) = false) (queue m) →
  ∃ vs, scheduler_find_next_task_and_execute minprio maxprio pThisTask m
        = Done false (flags (Invalid_load None :: vs) m).
Proof.
  intros Hinv%reachable_inv Hlen Hout.
  destruct (find_next_none m (queue m) minprio maxprio pThisTask (proj1 Hinv) Hout)
    as (vs & Hrun & _ & Hvs).
  destruct (Hvs Hlen) as [vs' ->]. eauto.
Qed.

(** ** A pool filled by pushes *)

Lemma push_all_queue_length ps : ∀ m m',
  reachable m → push_all ps m = Done tt m' →
  length (queue m') = (length (queue m) + length ps)%nat.
Proof.
  induction ps as [|[c p0] ps IH]; intros m m' Hreach Hrun.
  - cbn [push_all] in Hrun. unfold ret in Hrun. simplify_eq. simpl. lia.
  - cbn [push_all] in Hrun. unfold bind at 1 in Hrun.
    destruct (scheduler_push_task (Some c) p0 m) as [[] m1|?|?|] eqn:Hpush; try done.
    rewrite (IH m1 m' (reach_push m c p0 m1 Hreach Hpush) Hrun).
    destruct (push_task_done m c p0 m1 (reachable_inv _ Hreach) Hpush)
      as (? & ? & j & l1 & l2 & _ & _ & _ & Hq & _ & Hq' & _).
    rewrite Hq, Hq', !length_app. simpl. lia.
Qed.

Lemma wf_full m l :
  wf m l → length l = TASK_LIST_DEPTH →
  Forall (fun s => is_Some (cb s)) (taskBuf (scheduler_vars m)).
Proof.
  intros Hwf Hl. pose proof Hwf as [Hlen Hch Hnd Hocc].
  assert (l ≡ₚ seq 0 TASK_LIST_DEPTH) as Hperm.
  { apply submseteq_length_Permutation; [|rewrite length_seq; lia].
    apply NoDup_submseteq; [done|]. intros i Hi. apply elem_of_seq.
    pose proof (wf_bounded m l i Hwf Hi). lia. }
  apply Forall_lookup. intros i s Hs. apply (Hocc i s Hs).
  rewrite Hperm. apply elem_of_seq. apply lookup_lt_Some in Hs. lia.
Qed.

(** Scenario B of the spec: after [TASK_LIST_DEPTH] pushes from start-up
    that all returned, and no extraction, one more push resets. *)
Lemma overflow_after_depth_pushes ps m c0 (p0 : task_prio_t) :
  length ps = TASK_LIST_DEPTH →
  push_all ps initial = Done tt m →
  ∃ m', scheduler_push_task c0 p0 m = Reset m' ∧
        scheduler_vars m' = scheduler_vars m.
Proof.
  intros Hps Hrun.
  destruct (push_all_reachable ps initial m reach_initial Hrun) as [Hreach _].
  pose proof (push_all_queue_length ps initial m reach_initial Hrun) as Hlen.
  rewrite (wf_queue _ _ wf_initial) in Hlen. simpl in Hlen.
  pose proof (proj1 (reachable_inv _ Hreach)) as Hwf.
  pose proof (wf_full m (queue m) Hwf ltac:(lia)) as Hfull.
  exists (flag (Invalid_load (Some TASK_LIST_DEPTH)) m). split; [|done].
  rewrite push_task_unfold.
  by rewrite (push_internal_full m c0 p0 (wf_length _ _ Hwf) Hfull).
Qed.

(** ** The bands of the workers and of the signals *)

Lemma worker_bodies :
  vRxTask_body = worker_body RxSem (band_min RxSem) (band_max RxSem) ∧
  vSendDoneTask_body
  = worker_body SendDoneSem (band_min SendDoneSem) (band_max SendDoneSem) ∧
  vAppTask_body = worker_body AppSem (band_min AppSem) (band_max AppSem).
Proof. done. Qed.

(** Away from the three boundary values the semaphore given by a push is the
    one of the worker whose band holds the priority. *)
Lemma signal_matches_band_off_boundaries (p0 : task_prio_t) x :
  signal_of p0 = Some x →
  p0 ≠ SCHEDULER_STACK_PRIO_BOUNDARY →
  p0 ≠ SCHEDULER_SENDDONETIMER_PRIO_BOUNDARY →
  p0 ≠ SCHEDULER_APP_PRIO_BOUNDARY →
  in_band (band_min x) (band_max x) p0 = true.
Proof.
  unfold signal_of, in_band, SCHEDULER_APP_PRIO_BOUNDARY,
    SCHEDULER_SENDDONETIMER_PRIO_BOUNDARY, SCHEDULER_STACK_PRIO_BOUNDARY.
  intros Hsig H4 H8 Hmax.
  destruct (N.leb_spec p0 4).
  { simplify_eq. simpl. apply andb_true_iff. split; [by apply N.leb_le; lia|].
    apply N.ltb_lt. unfold SCHEDULER_STACK_PRIO_BOUNDARY. lia. }
  destruct (N.ltb_spec 4 p0); [|lia]. destruct (N.leb_spec p0 8); simpl in Hsig.
  { simplify_eq. simpl. apply andb_true_iff.
    unfold SCHEDULER_SENDDONETIMER_PRIO_BOUNDARY, SCHEDULER_STACK_PRIO_BOUNDARY.
    split; [apply N.leb_le|apply N.ltb_lt]; lia. }
  destruct (N.ltb_spec 8 p0); [|lia].
  destruct (N.leb_spec p0 TASKPRIO_MAX); simpl in Hsig; [|done].
  simplify_eq. simpl. apply andb_true_iff.
  unfold SCHEDULER_APP_PRIO_BOUNDARY, SCHEDULER_SENDDONETIMER_PRIO_BOUNDARY.
  split; [apply N.leb_le|apply N.ltb_lt]; lia.
Qed.

(** On the boundary of the first two bands it is not, whatever the
    configuration. *)
Lemma signal_misses_band_on_boundaries :
  signal_of SCHEDULER_STACK_PRIO_BOUNDARY = Some RxSem ∧
  in_band (band_min RxSem) (band_max RxSem) SCHEDULER_STACK_PRIO_BOUNDARY = false ∧
  signal_of SCHEDULER_SENDDONETIMER_PRIO_BOUNDARY = Some SendDoneSem ∧
  in_band (band_min SendDoneSem) (band_max SendDoneSem)
          SCHEDULER_SENDDONETIMER_PRIO_BOUNDARY = false.
Proof. done. Qed.

End Proofs.

(** * Queued tasks and extractions *)

Section QueuedTasks.
Context `{P : Platform}.

Implicit Types (m : machine) (l : list nat).

(** ** Shared lemmas *)

Lemma signal_of_is_Some (p0 : task_prio_t) :
  is_Some (signal_of p0)
  ↔ (p0 ≤ SCHEDULER_SENDDONETIMER_PRIO_BOUNDARY)%N ∨ (p0 ≤ TASKPRIO_MAX)%N.
Proof.
  unfold signal_of, SCHEDULER_APP_PRIO_BOUNDARY,
    SCHEDULER_SENDDONETIMER_PRIO_BOUNDARY, SCHEDULER_STACK_PRIO_BOUNDARY.
  destruct (N.leb_spec p0 4); [split; [intros _; left; lia|eauto]|].
  destruct (N.ltb_spec 4 p0); [|lia].
  destruct (N.leb_spec p0 8); simpl; [split; [intros _; by left|eauto]|].
  destruct (N.ltb_spec 8 p0); [|lia].
  destruct (N.leb_spec p0 TASKPRIO_MAX); simpl; [split; [intros _; by right|eauto]|].
  split; [by intros [? ?]|]. intros [?|?]; lia.
Qed.

Lemma wf_room m l j :
  wf m l → (j < TASK_LIST_DEPTH)%nat → j ∉ l → (length l < TASK_LIST_DEPTH)%nat.
Proof.
  intros Hwf Hj Hjl.
  enough (length (j :: l) ≤ TASK_LIST_DEPTH)%nat by (simpl in *; lia).
  apply nodup_bounded_length.
  - apply NoDup_cons. split; [done|]. by destruct Hwf.
  - intros i [->|Hi]%elem_of_cons; [done|]. by apply (wf_bounded m l).
Qed.

Lemma wf_full_length m l :
  wf m l → Forall (fun s => is_Some (cb s)) (taskBuf (scheduler_vars m)) →
  length l = TASK_LIST_DEPTH.
Proof.
  intros Hwf Hfull. pose proof (wf_length_le m l Hwf) as Hle.
  pose proof Hwf as [Hlen Hch Hnd Hocc].
  enough (TASK_LIST_DEPTH ≤ length l)%nat by lia.
  rewrite <-(length_seq TASK_LIST_DEPTH 0).
  apply submseteq_length, NoDup_submseteq; [apply NoDup_seq|].
  intros i [_ Hi]%elem_of_seq.
  destruct (lookup_lt_is_Some_2 (taskBuf (scheduler_vars m)) i) as [s Hs]; [lia|].
  apply (Hocc i s Hs). by apply (proj1 (Forall_lookup _ _) Hfull i s).
Qed.

(** A push of a callback that returns has taken the first free container. *)
Lemma push_task_first_free m c (p0 : task_prio_t) m' :
  inv m →
  scheduler_push_task (Some c) p0 m = Done tt m' →
  ∃ j l1 l2,
    queue m = l1 ++ l2 ∧ queue m' = l1 ++ j :: l2 ∧
    (j < TASK_LIST_DEPTH)%nat ∧ (j ∉ queue m) ∧
    (∀ k, (k < j)%nat → k ∈ queue m) ∧
    violations m' = violations m ∧
    executed m' = executed m.
Proof.
  intros Hinv Hrun. pose proof (proj1 Hinv) as Hwf.
  rewrite push_task_unfold in Hrun.
  destruct (first_free_or_full (taskBuf (scheduler_vars m)))
    as [(j & sj & Hsj & Hfree & Hbefore)|Hfull].
  - destruct (push_internal_free m (queue m) j sj (Some c) p0 Hwf Hsj Hfree Hbefore)
      as (m1 & l1 & l2 & Hint & Hq & Hl1 & Hl2 & Hp).
    rewrite Hint in Hrun. destruct (signal_of p0) as [x|]; [|done]. simplify_eq.
    assert (j ∉ queue m) as Hj.
    { intros Hin. apply (wf_occupied _ _ Hwf j sj Hsj) in Hin.
      rewrite Hfree in Hin. by destruct Hin. }
    pose proof Hj as Hj'. rewrite Hq in Hj'.
    destruct (pushed_inv m m1 c p0 j l1 l2 Hinv Hq Hj' Hl1 Hl2 Hp) as (Hq1 & _ & _).
    exists j, l1, l2. split; [done|]. split.
    { by rewrite (queue_same_vars _ _ (sem_set_vars x true m1)). }
    split.
    { rewrite <-(wf_length _ _ Hwf). by eapply lookup_lt_Some. }
    split; [done|]. split.
    { intros k Hk.
      destruct (lookup_lt_is_Some_2 (taskBuf (scheduler_vars m)) k) as [s Hs].
      { apply lookup_lt_Some in Hsj. lia. }
      apply (wf_occupied _ _ Hwf k s Hs). by apply (Hbefore k). }
    destruct x; split; by destruct Hp.
  - by rewrite (push_internal_full m (Some c) p0 (wf_length _ _ Hwf) Hfull) in Hrun.
Qed.

(** ** Steps in terms of the queued tasks *)

Lemma queued_tasks_fmap m : queued_tasks m = task_at m <$> queue m.
Proof. done. Qed.

Lemma push_queued_tasks m c (p0 : task_prio_t) m' :
  inv m →
  scheduler_push_task (Some c) p0 m = Done tt m' →
  ∃ a b,
    queued_tasks m = a ++ b ∧
    queued_tasks m' = a ++ (Some c, p0) :: b ∧
    Forall (fun t => (t.2 < p0)%N) a ∧
    Forall (fun t => (p0 ≤ t.2)%N) b ∧
    executed m' = executed m ∧
    violations m' = violations m ∧
    inv m'.
Proof.
  intros Hinv Hrun.
  destruct (push_task_done m c p0 m' Hinv Hrun)
    as (m1 & x & j & l1 & l2 & _ & _ & -> & Hq & Hj & Hq' & Hl1 & Hl2 & Hp & Hinv').
  destruct (pushed_new _ _ _ _ _ _ _ Hp) as [Hprio Hcb].
  assert (∀ i, i ∈ queue m → task_at (sem_set x true m1) i = task_at m i) as Hsame.
  { intros i Hi. unfold task_at.
    rewrite (cb_at_same_vars _ _ _ (sem_set_vars x true m1)),
            (prio_at_same_vars _ _ _ (sem_set_vars x true m1)).
    destruct (pushed_prio_at m m1 _ _ _ _ _ i Hp) as [-> ->];
      [by intros ->|by apply inv_lookup|done]. }
  exists (task_at m <$> l1), (task_at m <$> l2).
  rewrite !queued_tasks_fmap, Hq, Hq', !fmap_app, fmap_cons.
  split; [done|]. split.
  { unfold task_at at 2.
    rewrite (cb_at_same_vars _ _ _ (sem_set_vars x true m1)),
            (prio_at_same_vars _ _ _ (sem_set_vars x true m1)), Hprio, Hcb.
    f_equal; [|f_equal]; apply list_fmap_ext; intros ? i Hi%list_elem_of_lookup_2;
      apply Hsame; rewrite Hq, elem_of_app; eauto. }
  split; [by rewrite Forall_fmap|]. split; [by rewrite Forall_fmap|].
  rewrite sem_set_executed. destruct x; split; try split; by destruct Hp.
Qed.

Lemma extract_queued_tasks m minprio maxprio pThisTask b m' :
  inv m →
  scheduler_find_next_task_and_execute minprio maxprio pThisTask m = Done b m' →
  inv m' ∧ rtos_sched_v m' = rtos_sched_v m ∧
  ((b = false ∧
    Forall (fun t => in_band minprio maxprio t.2 = false) (queued_tasks m) ∧
    queued_tasks m' = queued_tasks m ∧ queue m' = queue m ∧
    executed m' = executed m)
   ∨ (b = true ∧
      ∃ a c p b',
        queued_tasks m = a ++ (Some c, p) :: b' ∧
        queued_tasks m' = a ++ b' ∧
        executed m' = executed m ++ [(c, p)] ∧
        Forall (fun t => in_band minprio maxprio t.2 = false) a ∧
        in_band minprio maxprio p = true ∧
        violations m' = violations m)).
Proof.
  intros Hinv Hrun.
  destruct (find_next_cases m minprio maxprio pThisTask Hinv)
    as [(Hout & vs & Hrun' & _)
       |(m'' & l1 & i & l2 & Hq & Hout & Hin & Hrun' & He & Hq' & Hinv')];
    rewrite Hrun' in Hrun; simplify_eq.
  - split; [by apply (inv_same_vars m)|]. split; [done|]. left.
    split; [done|]. split; [by rewrite queued_tasks_fmap, Forall_fmap|].
    split; [|done]. rewrite !queued_tasks_fmap, (queue_same_vars _ _ (flags_vars vs m)).
    apply list_fmap_ext. intros ? i _. unfold task_at.
    by rewrite (cb_at_same_vars _ _ _ (flags_vars vs m)),
               (prio_at_same_vars _ _ _ (flags_vars vs m)).
  - split; [done|]. split; [by destruct He|]. right. split; [done|].
    destruct (extracted_executed _ _ _ _ _ He) as (c & Hc & Hex).
    pose proof (wf_nodup _ _ (proj1 Hinv)) as Hnd. rewrite Hq in Hnd.
    apply NoDup_app in Hnd as (_ & Hdisj & [Hi2 _]%NoDup_cons).
    assert (∀ k, k ∈ l1 ++ l2 → task_at m' k = task_at m k) as Hsame.
    { intros k Hk. unfold task_at.
      destruct (extracted_prio_at m m' i l1 l2 k He) as [-> ->]; [| |done].
      - intros ->. apply elem_of_app in Hk as [Hk|Hk]; [|done].
        apply (Hdisj i Hk). left.
      - apply inv_lookup; [done|]. rewrite Hq, elem_of_app, elem_of_cons.
        rewrite elem_of_app in Hk. tauto. }
    exists (task_at m <$> l1), c, (prio_at m i), (task_at m <$> l2).
    rewrite !queued_tasks_fmap, Hq, Hq', !fmap_app, fmap_cons.
    split; [by unfold task_at at 2; rewrite Hc|]. split.
    { f_equal; apply list_fmap_ext; intros ? k Hk%list_elem_of_lookup_2;
        apply Hsame; rewrite elem_of_app; eauto. }
    split; [done|]. split; [by rewrite Forall_fmap|]. split; [done|]. by destruct He.
Qed.

Lemma take_band_out n minprio maxprio (a b : list (option task_cbt * task_prio_t)) :
  Forall (fun t => in_band minprio maxprio t.2 = false) a →
  take_band n minprio maxprio (a ++ b) = take_band n minprio maxprio b.
Proof.
  intros Ha. induction Ha as [|t a Ht _ IH]; [done|].
  destruct n as [|n]; [by destruct b|]. simpl. by rewrite Ht.
Qed.

Lemma drop_band_out n minprio maxprio (a b : list (option task_cbt * task_prio_t)) :
  Forall (fun t => in_band minprio maxprio t.2 = false) a →
  drop_band n minprio maxprio (a ++ b) = a ++ drop_band n minprio maxprio b.
Proof.
  intros Ha. induction Ha as [|t a Ht _ IH]; [done|].
  destruct n as [|n]; [by destruct b|]. simpl. rewrite Ht. by f_equal.
Qed.


(** ** Extractions that find a task *)

Lemma band_tasks_out {A} minprio maxprio (a : list (A * task_prio_t)) :
  Forall (fun t => in_band minprio maxprio t.2 = false) a →
  band_tasks minprio maxprio a = [].
Proof.
  induction 1 as [|t a Ht _ IH]; [done|]. unfold band_tasks in *.
  rewrite filter_cons_False; [done|]. by rewrite Ht.
Qed.

Lemma band_tasks_found {A} minprio maxprio (a b : list (A * task_prio_t)) t :
  Forall (fun t => in_band minprio maxprio t.2 = false) a →
  in_band minprio maxprio t.2 = true →
  band_tasks minprio maxprio (a ++ t :: b) = t :: band_tasks minprio maxprio b ∧
  band_tasks minprio maxprio (a ++ b) = band_tasks minprio maxprio b.
Proof.
  intros Ha Ht. pose proof (band_tasks_out minprio maxprio a Ha) as Hnil.
  unfold band_tasks in *. rewrite !filter_app, Hnil. simpl.
  by rewrite filter_cons_True.
Qed.

Lemma band_tasks_as_queued minprio maxprio (ps : list (task_cbt * task_prio_t)) :
  length (band_tasks minprio maxprio (as_queued <$> ps))
  = length (band_tasks minprio maxprio ps).
Proof.
  induction ps as [|t ps IH]; [done|]. unfold band_tasks in *. rewrite fmap_cons.
  destruct (in_band minprio maxprio t.2) eqn:Ht.
  - rewrite !filter_cons_True by done. simpl. by rewrite IH.
  - rewrite !filter_cons_False by (simpl; by rewrite Ht). done.
Qed.

Lemma take_drop_band n minprio maxprio : ∀ ts,
  take_band n minprio maxprio ts ++ drop_band n minprio maxprio ts ≡ₚ ts.
Proof.
  intros ts. revert n. induction ts as [|t ts IH]; intros [|n]; simpl; try done.
  destruct (in_band minprio maxprio t.2); simpl.
  - by rewrite IH.
  - by rewrite <-Permutation_middle, IH.
Qed.

(** [n] extractions on a band that holds at least [n] queued tasks: every
    one of them finds a task, so that none reads past the end of the
    list. *)
Lemma extract_n_defined n minprio maxprio : ∀ m,
  inv m →
  (n ≤ length (band_tasks minprio maxprio (queued_tasks m)))%nat →
  ∃ m',
    extract_n n minprio maxprio m = Done tt m' ∧
    inv m' ∧
    violations m' = violations m ∧
    as_queued <$> executed m'
    = (as_queued <$> executed m) ++ take_band n minprio maxprio (queued_tasks m) ∧
    queued_tasks m' = drop_band n minprio maxprio (queued_tasks m) ∧
    length (executed m') = (length (executed m) + n)%nat ∧
    length (band_tasks minprio maxprio (queued_tasks m'))
    = (length (band_tasks minprio maxprio (queued_tasks m)) - n)%nat.
Proof.
  induction n as [|n IH]; intros m Hinv Hn.
  - exists m. do 3 (split; [done|]). split.
    { destruct (queued_tasks m); simpl; by rewrite app_nil_r. }
    split; [by destruct (queued_tasks m)|]. split; lia.
  - destruct (find_next_step m minprio maxprio None Hinv) as (r & m1 & Hrun & _).
    destruct (extract_queued_tasks m minprio maxprio None r m1 Hinv Hrun)
      as (Hinv1 & _ & [(-> & Hnone & _)
                      |(-> & a & c & p0 & b & Hq & Hq1 & Hex & Hout & Hin & Hv)]).
    { rewrite (band_tasks_out _ _ _ Hnone) in Hn. simpl in Hn. lia. }
    destruct (band_tasks_found minprio maxprio a b (Some c, p0) Hout Hin)
      as [Hcount Hcount1].
    rewrite Hq, Hcount in Hn. simpl in Hn.
    destruct (IH m1 Hinv1) as (m' & Hrun' & Hinv' & Hv' & Hex' & Hq' & Hlen' & Hc').
    { rewrite Hq1, Hcount1. lia. }
    exists m'. split; [cbn [extract_n]; by rewrite (bind_done _ _ _ _ _ Hrun)|].
    split; [done|]. split; [by rewrite Hv'|].
    rewrite Hlen', Hc', Hex', Hq', Hex, Hq1, Hq, Hcount, Hcount1, length_app.
    rewrite !(take_band_out _ _ _ a) by done. rewrite !(drop_band_out _ _ _ a) by done.
    simpl. rewrite Hin. rewrite fmap_app, <-app_assoc.
    do 2 (split; [done|]). split; lia.
Qed.

(** Pushes that returned have queued their tasks and nothing else. *)
Lemma push_all_conserves ps : ∀ m0 m,
  inv m0 →
  push_all ps m0 = Done tt m →
  inv m ∧
  queued_tasks m ≡ₚ queued_tasks m0 ++ (as_queued <$> ps) ∧
  executed m = executed m0 ∧
  violations m = violations m0.
Proof.
  induction ps as [|[c p0] ps IH]; intros m0 m Hinv Hrun.
  - cbn in Hrun. unfold ret in Hrun. simplify_eq. rewrite app_nil_r. done.
  - cbn [push_all] in Hrun. unfold bind at 1 in Hrun.
    destruct (scheduler_push_task (Some c) p0 m0) as [[] m1|?|?|] eqn:Hp; try done.
    destruct (push_queued_tasks m0 c p0 m1 Hinv Hp)
      as (a & b & Hq & Hq1 & _ & _ & Hex & Hv & Hinv1).
    destruct (IH m1 m Hinv1 Hrun) as (Hinv' & Hperm & Hex' & Hv').
    split; [done|]. split; [|by rewrite Hex', Hv'].
    rewrite Hperm, Hq1, Hq, fmap_cons. cbn.
    rewrite <-!app_assoc. cbn. by rewrite <-!Permutation_middle.
Qed.

End QueuedTasks.

(** * The claims *)

Section Claims.
Context `{P : Platform}.

(** C4: the task list is sorted by non-decreasing priority in every
    reachable state, and both the insertion of a task by
    [scheduler_push_task_internal] and the unlinking of a task by
    [scheduler_find_next_task_and_execute] lead to a state whose list is
    sorted again. *)
Theorem task_list_sorted (m : machine) :
  reachable m →
  sorted_queue m ∧
  (∀ c p0 m', scheduler_push_task_internal (Some c) p0 m = Done tt m' →
              sorted_queue m') ∧
  (∀ minprio maxprio pThisTask b m',
     scheduler_find_next_task_and_execute minprio maxprio pThisTask m = Done b m' →
     sorted_queue m').
Proof.
  intros Hinv%reachable_inv. split; [apply Hinv|]. split.
  - intros c p0 m' Hrun.
    destruct (push_internal_cases m (queue m) (Some c) p0 (proj1 Hinv))
      as [[_ Hreset]|(m1 & j & l1 & l2 & Hint & Hq & Hj & Hl1 & Hl2 & Hp)];
      [congruence|].
    rewrite Hint in Hrun. simplify_eq. rewrite Hq in Hj.
    by destruct (pushed_inv m m' c p0 j l1 l2 Hinv Hq Hj Hl1 Hl2 Hp) as (_ & [_ ?] & _).
  - intros minprio maxprio pT b m' Hrun.
    by destruct (inv_execute m minprio maxprio pT b m' Hinv Hrun).
Qed.

(** C5: when all [TASK_LIST_DEPTH] containers are in use, a further push
    ends in the error handler; no container and no link of the list is
    written, the counters and the trace of executed callbacks are as
    before. *)
Theorem push_on_full_pool_resets (m : machine) (c0 : option task_cbt)
    (p0 : task_prio_t) :
  length (taskBuf (scheduler_vars m)) = TASK_LIST_DEPTH →
  Forall (fun s => is_Some (cb s)) (taskBuf (scheduler_vars m)) →
  ∃ m', scheduler_push_task c0 p0 m = Reset m' ∧
        scheduler_vars m' = scheduler_vars m ∧
        scheduler_dbg m' = scheduler_dbg m ∧
        rtos_sched_v m' = rtos_sched_v m ∧
        executed m' = executed m.
Proof.
  intros Hlen Hfull. eexists. split.
  - rewrite push_task_unfold. by rewrite (push_internal_full m c0 p0 Hlen Hfull).
  - done.
Qed.

(** C8: [scheduler_executeTask] on a container leaves it with an empty
    callback, the priority [TASKPRIO_NONE] and an empty next link, and leaves
    every other container, the size of the pool and the head of the list as
    they were. *)
Theorem executeTask_releases_slot (m : machine) (i : nat) (s : taskList_item_t) :
  taskBuf (scheduler_vars m) !! i = Some s →
  ∃ m', scheduler_executeTask (Some i) m = Done tt m' ∧
        taskBuf (scheduler_vars m') !! i = Some (mk_item None TASKPRIO_NONE None) ∧
        (∀ k, k ≠ i →
              taskBuf (scheduler_vars m') !! k = taskBuf (scheduler_vars m) !! k) ∧
        length (taskBuf (scheduler_vars m')) = length (taskBuf (scheduler_vars m)) ∧
        task_list (scheduler_vars m') = task_list (scheduler_vars m).
Proof.
  intros Hs. pose proof (lookup_lt_Some _ _ _ Hs) as Hi.
  unfold scheduler_executeTask.
  assert (∃ m0, call (Some i) m = Done tt m0 ∧ scheduler_vars m0 = scheduler_vars m)
    as (m0 & Hcall & Hvars).
  { unfold call. rewrite (bind_done _ _ _ _ _ (load_valid _ _ _ Hs)).
    destruct (cb s); eauto. }
  rewrite (bind_done _ _ _ _ _ Hcall).
  erewrite bind_done; last by (apply store_valid; rewrite Hvars; exact Hs).
  erewrite bind_done; last first.
  { apply store_valid. simpl. apply list_lookup_insert_eq. by rewrite Hvars. }
  erewrite bind_done; last first.
  { apply store_valid. simpl. rewrite list_insert_insert_eq.
    apply list_lookup_insert_eq. by rewrite Hvars. }
  eexists. split; [reflexivity|]. simpl. rewrite !list_insert_insert_eq, Hvars.
  split; [by apply list_lookup_insert_eq|].
  split; [intros k Hk; by apply list_lookup_insert_ne|].
  split; [apply length_insert|done].
Qed.

(** C9: a push whose priority is above [SCHEDULER_SENDDONETIMER_PRIO_BOUNDARY]
    and above [TASKPRIO_MAX], so in none of the three bands of step 2, ends in
    the error handler, whatever the callback; no callback has been executed
    on the way. *)
Theorem push_unmapped_priority_resets (m : machine) (c0 : option task_cbt)
    (p0 : task_prio_t) :
  reachable m →
  (SCHEDULER_SENDDONETIMER_PRIO_BOUNDARY < p0)%N →
  (TASKPRIO_MAX < p0)%N →
  ∃ m', scheduler_push_task c0 p0 m = Reset m' ∧ executed m' = executed m.
Proof.
  intros Hinv%reachable_inv H8 Hmax.
  assert (signal_of p0 = None) as Hsig.
  { unfold signal_of, SCHEDULER_APP_PRIO_BOUNDARY,
      SCHEDULER_SENDDONETIMER_PRIO_BOUNDARY, SCHEDULER_STACK_PRIO_BOUNDARY in *.
    destruct (N.leb_spec p0 4); [lia|].
    destruct (N.leb_spec p0 8); [lia|]. rewrite andb_false_r.
    destruct (N.leb_spec p0 TASKPRIO_MAX); [lia|]. by rewrite andb_false_r. }
  rewrite push_task_unfold, Hsig.
  destruct (push_internal_cases m (queue m) c0 p0 (proj1 Hinv))
    as [[_ ->]|(m1 & j & l1 & l2 & -> & _ & _ & _ & _ & Hp)].
  - by eexists.
  - exists m1. split; [done|]. by destruct Hp.
Qed.

(** C10: provided the counter type can hold [TASK_LIST_DEPTH], in every
    reachable state [numTasksCur] is the number of containers in use, which
    is the length of the task list, and is at most [numTasksMax]; a push that
    returns adds one to [numTasksCur] and does not lower [numTasksMax]; an
    extraction that ran a task takes one from [numTasksCur], one that found
    none leaves it, and neither changes [numTasksMax]. *)
Theorem debug_counters_track_occupancy (m : machine) :
  Z.of_nat TASK_LIST_DEPTH < DBG_MODULUS →
  reachable m →
  numTasksCur (scheduler_dbg m) = Z.of_nat (length (occupied_slots m)) ∧
  numTasksCur (scheduler_dbg m) = Z.of_nat (length (queue m)) ∧
  numTasksCur (scheduler_dbg m) ≤ numTasksMax (scheduler_dbg m) ∧
  (∀ c p0 m',
     scheduler_push_task (Some c) p0 m = Done tt m' →
     numTasksCur (scheduler_dbg m') = numTasksCur (scheduler_dbg m) + 1 ∧
     numTasksMax (scheduler_dbg m) ≤ numTasksMax (scheduler_dbg m')) ∧
  (∀ minprio maxprio pThisTask b m',
     scheduler_find_next_task_and_execute minprio maxprio pThisTask m = Done b m' →
     numTasksCur (scheduler_dbg m')
     = (if b then numTasksCur (scheduler_dbg m) - 1
        else numTasksCur (scheduler_dbg m)) ∧
     numTasksMax (scheduler_dbg m') = numTasksMax (scheduler_dbg m)).
Proof.
  intros Hmod Hreach.
  pose proof (reachable_inv _ Hreach) as Hinv.
  pose proof (reachable_dbg _ Hmod Hreach) as Hdbg.
  destruct Hdbg as [Hcur Hmax].
  split; [by rewrite (occupied_slots_length m (queue m) (proj1 Hinv))|].
  split; [done|]. split; [done|]. split.
  - intros c p0 m' Hrun.
    by destruct (dbg_push m c p0 m' Hmod Hinv (conj Hcur Hmax) Hrun) as (_ & ? & ?).
  - intros minprio maxprio pT b m' Hrun.
    by destruct (dbg_execute m minprio maxprio pT b m' Hmod Hinv (conj Hcur Hmax) Hrun)
      as (_ & ? & ?).
Qed.

(** C1, as the code has it: a push that returns links the new container
    immediately before the first task whose priority is greater than or equal
    to the new one (at the end when there is none), leaving the other tasks
    in place; every older task of the same priority therefore sits behind the
    new one, and it stays in the list for as long as the new one does,
    whatever is pushed or extracted meanwhile: among equal priorities the
    later arrival is extracted first. *)
Theorem push_inserts_before_equals (m : machine) (c : task_cbt)
    (p0 : task_prio_t) (m' : machine) :
  reachable m →
  scheduler_push_task (Some c) p0 m = Done tt m' →
  ∃ j l1 l2,
    queue m = l1 ++ l2 ∧ (j ∉ queue m) ∧
    queue m' = l1 ++ j :: l2 ∧
    cb_at m' j = Some c ∧ prio_at m' j = p0 ∧
    (∀ i, i ∈ queue m → cb_at m' i = cb_at m i ∧ prio_at m' i = prio_at m i) ∧
    Forall (fun i => (prio_at m i < p0)%N) l1 ∧
    Forall (fun i => (p0 ≤ prio_at m i)%N) l2 ∧
    queue m' = insert_before_equals (prio_at m') j (queue m) ∧
    (∀ i m'', i ∈ queue m → prio_at m i = p0 →
              queued_since j m' m'' → i ∈ queue m'').
Proof.
  intros Hinv%reachable_inv Hrun.
  destruct (push_task_done m c p0 m' Hinv Hrun)
    as (m1 & x & j & l1 & l2 & _ & _ & -> & Hq & Hj & Hq' & Hl1 & Hl2 & Hp & Hinv').
  destruct (pushed_new _ _ _ _ _ _ _ Hp) as [Hprio Hcb].
  assert (∀ i, i ∈ queue m →
               cb_at (sem_set x true m1) i = cb_at m i ∧
               prio_at (sem_set x true m1) i = prio_at m i) as Hsame.
  { intros i Hi.
    rewrite (cb_at_same_vars _ _ _ (sem_set_vars x true m1)),
            (prio_at_same_vars _ _ _ (sem_set_vars x true m1)).
    destruct (pushed_prio_at m m1 _ _ _ _ _ i Hp) as [-> ->];
      [by intros ->|by apply inv_lookup|done]. }
  assert (prio_at (sem_set x true m1) j = p0) as Hprio'
    by (by rewrite (prio_at_same_vars _ _ _ (sem_set_vars x true m1))).
  exists j, l1, l2. do 3 (split; [done|]).
  split; [by rewrite (cb_at_same_vars _ _ _ (sem_set_vars x true m1))|].
  do 4 (split; [done|]). split.
  - rewrite Hq, Hq'. symmetry. apply insert_before_equals_app.
    + rewrite Hprio'. apply Forall_forall. intros i Hi.
      destruct (Hsame i) as [_ ->]; [rewrite Hq; apply elem_of_app; by left|].
      by apply (proj1 (Forall_forall _ _) Hl1).
    + rewrite Hprio'. intros i Hi. apply head_Some_elem_of in Hi.
      destruct (Hsame i) as [_ ->]; [rewrite Hq; apply elem_of_app; by right|].
      by apply (proj1 (Forall_forall _ _) Hl2).
  - intros i m'' Hi Hip Hsince.
    assert (lifo_inv j i (sem_set x true m1)) as Hlifo.
    { split; [done|]. split.
      - rewrite Hq'. exists l1, l2. split; [done|].
        rewrite Hq in Hi. apply elem_of_app in Hi as [Hi|Hi]; [|done].
        apply (proj1 (Forall_forall _ _) Hl1) in Hi. lia.
      - destruct (Hsame i Hi) as [_ ->]. by rewrite Hprio'. }
    destruct (queued_since_lifo j i _ _ Hlifo Hsince) as (_ & Hprec & _).
    by destruct (precedes_elem_of _ _ _ Hprec).
Qed.

(** C6: after any sequence of pushes that all returned, [n] successive
    extractions on one band, [n] not greater than the number of pushed tasks
    of the band, all return having run a task, without any undefined access;
    the priorities of the tasks they ran are in non-decreasing order; the
    tasks run and the tasks still queued are together the tasks pushed; and
    each extraction runs and unlinks a task of the band that has the lowest
    priority value among the queued tasks of the band. *)
Theorem extraction_in_priority_order (ps : list (task_cbt * task_prio_t))
    (m : machine) (n : nat) (minprio maxprio : task_prio_t) :
  push_all ps initial = Done tt m →
  (n ≤ length (band_tasks minprio maxprio ps))%nat →
  ∃ m',
    extract_n n minprio maxprio m = Done tt m' ∧
    violations m' = [] ∧
    length (executed m') = n ∧
    StronglySorted N.le (snd <$> executed m') ∧
    (as_queued <$> executed m') ++ queued_tasks m' ≡ₚ as_queued <$> ps ∧
    ∀ k, (k < n)%nat →
      ∃ mk mk' i c,
        extract_n k minprio maxprio m = Done tt mk ∧
        scheduler_find_next_task_and_execute minprio maxprio None mk = Done true mk' ∧
        extract_n (S k) minprio maxprio m = Done tt mk' ∧
        most_urgent_in_band mk minprio maxprio i ∧
        cb_at mk i = Some c ∧
        executed mk' = executed mk ++ [(c, prio_at mk i)] ∧
        (∀ j, j ∈ queue mk' ↔ j ∈ queue mk ∧ j ≠ i).
Proof.
  intros Hpush Hn.
  destruct (push_all_conserves ps initial m inv_initial Hpush)
    as (Hinv & Hperm & Hex0 & Hv0).
  assert (queued_tasks initial = []) as Hq0
    by (by rewrite queued_tasks_fmap, (wf_queue _ _ wf_initial)).
  rewrite Hq0 in Hperm. simpl in Hperm.
  assert (length (band_tasks minprio maxprio (queued_tasks m))
          = length (band_tasks minprio maxprio ps)) as Hcount.
  { rewrite <-band_tasks_as_queued. unfold band_tasks. by rewrite Hperm. }
  destruct (extract_n_defined n minprio maxprio m Hinv)
    as (m' & Hrun & _ & Hv & Hex & Hq & Hlen & _); [lia|].
  destruct (extract_n_spec n minprio maxprio m Hinv)
    as (m'' & xs & Hrun' & _ & _ & Hexs & _ & Hsorted).
  rewrite Hrun in Hrun'. simplify_eq.
  exists m''. split; [done|]. split; [by rewrite Hv, Hv0|].
  split; [by rewrite Hlen, Hex0|]. split; [by rewrite Hexs, Hex0|].
  split.
  { rewrite Hex, Hq, Hex0. simpl. by rewrite take_drop_band. }
  intros k Hk.
  destruct (extract_n_defined k minprio maxprio m Hinv)
    as (mk & Hrunk & Hinvk & _ & _ & _ & _ & Hck); [lia|].
  destruct (find_next_step mk minprio maxprio None Hinvk)
    as (b & mk' & Hstep & _ & _ & _ & Htrue & Hfalse).
  destruct b.
  - destruct (Htrue eq_refl) as (i & c & Hi & Hc & Hexk & Hmem).
    exists mk, mk', i, c. split; [done|]. split; [done|]. split; [|done].
    rewrite extract_n_succ_r. rewrite (bind_done _ _ _ _ _ Hrunk).
    by rewrite (bind_done _ _ _ _ _ Hstep).
  - destruct (Hfalse eq_refl) as (Hout & _).
    rewrite (band_tasks_out minprio maxprio (queued_tasks mk)) in Hck.
    + simpl in Hck. lia.
    + by rewrite queued_tasks_fmap, Forall_fmap.
Qed.

(** C7, as the code has it: when a worker is woken in its loop while tasks
    of its band are queued, it runs exactly one of them, the first of its
    band in the list, and then blocks on its semaphore again; the other tasks
    stay queued. *)
Theorem worker_runs_one_task_per_wake_up (m : machine) (x : semaphore)
    (fuel : nat) (i0 : nat) :
  reachable m →
  sem_value x m = true →
  i0 ∈ queue m →
  in_band (band_min x) (band_max x) (prio_at m i0) = true →
  (2 ≤ fuel)%nat →
  ∃ m' l1 i l2 c,
    forever fuel (worker_body x (band_min x) (band_max x)) m = Blocked m' ∧
    queue m = l1 ++ i :: l2 ∧
    Forall (fun k => in_band (band_min x) (band_max x) (prio_at m k) = false) l1 ∧
    in_band (band_min x) (band_max x) (prio_at m i) = true ∧
    cb_at m i = Some c ∧
    executed m' = executed m ++ [(c, prio_at m i)] ∧
    queue m' = l1 ++ l2 ∧
    sem_value x m' = false.
Proof.
  intros Hinv%reachable_inv Hsem Hi0 Hband Hfuel.
  destruct fuel as [|[|fuel]]; [lia|lia|].
  set (m1 := sem_set x false m).
  assert (inv m1) as Hinv1 by (apply (inv_same_vars m); [apply sem_set_vars|done]).
  assert (queue m1 = queue m) as Hq1 by apply queue_same_vars, sem_set_vars.
  destruct (find_next_cases m1 (band_min x) (band_max x) None Hinv1)
    as [(Hout & _)|(m2 & l1 & i & l2 & Hq & Hout & Hin & Hrun & He & Hq' & _)].
  { rewrite Hq1 in Hout. apply (proj1 (Forall_forall _ _) Hout) in Hi0.
    unfold out_of_band in Hi0.
    rewrite (prio_at_same_vars _ _ _ (sem_set_vars x false m)) in Hi0. congruence. }
  destruct (extracted_executed _ _ _ _ _ He) as (c & Hc & Hex).
  exists m2, l1, i, l2, c. unfold m1 in *. clear m1.
  rewrite (cb_at_same_vars _ _ _ (sem_set_vars x false m)) in Hc.
  rewrite (prio_at_same_vars _ _ _ (sem_set_vars x false m)) in Hex, Hin.
  assert (sem_value x m2 = false) as Hsem2.
  { unfold sem_value. rewrite (extracted_rtos _ _ _ _ _ He).
    apply (sem_value_set x false m). }
  split.
  { assert (worker_body x (band_min x) (band_max x) m = Done tt m2) as Hbody.
    { unfold worker_body.
      assert (xSemaphoreTake x m = Done tt (sem_set x false m)) as Htake
        by (unfold xSemaphoreTake; by rewrite Hsem).
      rewrite (bind_done _ _ _ _ _ Htake). by rewrite (bind_done _ _ _ _ _ Hrun). }
    cbn [forever]. rewrite (bind_done _ _ _ _ _ Hbody).
    unfold bind at 1. unfold worker_body at 1. unfold bind at 1.
    unfold xSemaphoreTake. by rewrite Hsem2. }
  split; [by rewrite <-Hq1|]. split.
  { eapply Forall_impl; [exact Hout|]. unfold out_of_band. intros k.
    by rewrite (prio_at_same_vars _ _ _ (sem_set_vars x false m)). }
  split; [done|]. split; [done|]. split.
  { rewrite Hex. by rewrite sem_set_executed. }
  done.
Qed.

End Claims.

(** * Further properties of the code *)

Section Further.
Context `{P : Platform}.

Implicit Types (m : machine) (l : list nat).

(** ** When a push returns *)

(** X1: in a reachable state a push of a callback returns exactly when fewer
    than [TASK_LIST_DEPTH] tasks are queued and the priority is at most
    [SCHEDULER_SENDDONETIMER_PRIO_BOUNDARY] or at most [TASKPRIO_MAX]; in
    every other case it ends in the error handler.  It never stays in one of
    its two loops. *)
Theorem push_returns_iff_room_and_mapped (m : machine) (c : task_cbt)
    (p0 : task_prio_t) :
  reachable m →
  ((∃ m', scheduler_push_task (Some c) p0 m = Done tt m')
   ↔ (length (queue m) < TASK_LIST_DEPTH)%nat ∧
     ((p0 ≤ SCHEDULER_SENDDONETIMER_PRIO_BOUNDARY)%N ∨ (p0 ≤ TASKPRIO_MAX)%N)) ∧
  ((∃ m', scheduler_push_task (Some c) p0 m = Reset m')
   ↔ ¬ ((length (queue m) < TASK_LIST_DEPTH)%nat ∧
        ((p0 ≤ SCHEDULER_SENDDONETIMER_PRIO_BOUNDARY)%N ∨ (p0 ≤ TASKPRIO_MAX)%N))).
Proof.
  intros Hinv%reachable_inv. pose proof (proj1 Hinv) as Hwf.
  rewrite <-signal_of_is_Some. rewrite push_task_unfold.
  destruct (push_internal_cases m (queue m) (Some c) p0 Hwf)
    as [[Hfull ->]|(m1 & j & l1 & l2 & -> & Hq & Hj & _ & _ & Hp)].
  - pose proof (wf_full_length m (queue m) Hwf Hfull) as Hlen. split.
    + split; [by intros [? ?]|]. intros [? _]. lia.
    + split; [intros _ [? _]; lia|]. eauto.
  - assert (length (queue m) < TASK_LIST_DEPTH)%nat as Hroom.
    { apply (wf_room m (queue m) j Hwf); [|done].
      destruct (pushed_item _ _ _ _ _ _ _ Hp) as [n Hn].
      apply lookup_lt_Some in Hn.
      rewrite (pushed_length _ _ _ _ _ _ _ Hp), (wf_length _ _ Hwf) in Hn. done. }
    destruct (signal_of p0) as [x|]; split.
    + split; [eauto|]. eauto.
    + split; [by intros [? ?]|]. intros Hn. destruct Hn. eauto.
    + split; [by intros [? ?]|]. by intros [_ [? ?]].
    + split; [|eauto]. intros _ [_ [? ?]]. done.
Qed.

(** X2: a push that returns stores the task in the free container of lowest
    index: the container it links into the list was not in the list, and
    every container before it was. *)
Theorem push_takes_first_free_container (m : machine) (c : task_cbt)
    (p0 : task_prio_t) (m' : machine) :
  reachable m →
  scheduler_push_task (Some c) p0 m = Done tt m' →
  ∃ j l1 l2,
    queue m = l1 ++ l2 ∧ queue m' = l1 ++ j :: l2 ∧
    (j < TASK_LIST_DEPTH)%nat ∧
    cb_at m j = None ∧
    (∀ k, (k < j)%nat → is_Some (cb_at m k)).
Proof.
  intros Hinv%reachable_inv Hrun. pose proof (proj1 Hinv) as Hwf.
  destruct (push_task_first_free m c p0 m' Hinv Hrun)
    as (j & l1 & l2 & Hq & Hq' & Hj & Hjq & Hbefore & _).
  exists j, l1, l2. do 3 (split; [done|]).
  assert (∀ k, (k < TASK_LIST_DEPTH)%nat → is_Some (cb_at m k) ↔ k ∈ queue m) as Hocc.
  { intros k Hk.
    destruct (lookup_lt_is_Some_2 (taskBuf (scheduler_vars m)) k) as [s Hs].
    { by rewrite (wf_length _ _ Hwf). }
    rewrite (cb_at_lookup _ _ _ Hs). by apply (wf_occupied _ _ Hwf). }
  split.
  - destruct (cb_at m j) eqn:Hcb; [|done]. exfalso. apply Hjq, Hocc; [done|].
    rewrite Hcb. eauto.
  - intros k Hk. apply Hocc; [lia|]. by apply Hbefore.
Qed.

(** ** Extractions that find nothing *)

(** X3: with no task or a single task queued, an extraction on a band that
    does not hold it returns [FALSE] and leaves the whole state as it was:
    nothing is written and no invalid pointer is read. *)
Theorem extraction_on_short_list_changes_nothing (m : machine)
    (minprio maxprio : task_prio_t) (pThisTask : item_ptr) :
  reachable m →
  (length (queue m) ≤ 1)%nat →
  Forall (fun k => in_band minprio maxprio (prio_at m k) = false) (queue m) →
  scheduler_find_next_task_and_execute minprio maxprio pThisTask m = Done false m.
Proof.
  intros Hinv%reachable_inv Hlen Hout.
  destruct (find_next_none m (queue m) minprio maxprio pThisTask (proj1 Hinv) Hout)
    as (vs & Hrun & Hshort & _).
  rewrite Hrun, (Hshort Hlen). by rewrite flags_nil.
Qed.


(** ** Capacity *)

Lemma reachable_max_bound m :
  Z.of_nat TASK_LIST_DEPTH < DBG_MODULUS → reachable m →
  numTasksMax (scheduler_dbg m) ≤ Z.of_nat TASK_LIST_DEPTH.
Proof.
  intros Hmod. induction 1 as [|m c p0 m' Hr IH Hrun|m minprio maxprio pT b m' Hr IH Hrun
                               |m x m' _ IH Hrun].
  - simpl. lia.
  - pose proof (reachable_inv _ Hr) as Hinv.
    pose proof (reachable_dbg _ Hmod Hr) as Hdbg.
    destruct (dbg_push m c p0 m' Hmod Hinv Hdbg Hrun) as ([Hcur' Hmax'] & Hcur & _).
    destruct (push_task_done m c p0 m' Hinv Hrun)
      as (m1 & x & j & l1 & l2 & _ & _ & -> & _ & _ & _ & _ & _ & Hp & Hinv').
    pose proof (inv_queue_bound _ Hinv') as Hbound.
    rewrite sem_set_dbg in *. rewrite (pushed_max _ _ _ _ _ _ _ Hp).
    destruct (numTasksMax (scheduler_dbg m) <? numTasksCur (scheduler_dbg m1)); lia.
  - pose proof (reachable_inv _ Hr) as Hinv.
    pose proof (reachable_dbg _ Hmod Hr) as Hdbg.
    destruct (dbg_execute m minprio maxprio pT b m' Hmod Hinv Hdbg Hrun) as (_ & _ & ->).
    done.
  - apply take_done in Hrun as [_ ->]. by rewrite sem_set_dbg.
Qed.

(** X5: in every reachable state the list threads the containers in use
    and no other: followed from [task_list] it ends in [NULL] without
    meeting a container twice, and a container of the pool is in it exactly
    when its callback is not [NULL].  Hence a container is free exactly
    when fewer than [TASK_LIST_DEPTH] tasks are queued; and when the
    counter type can hold [TASK_LIST_DEPTH], the high-water mark
    [numTasksMax] stays within [0, TASK_LIST_DEPTH]. *)
Theorem list_threads_exactly_the_used_containers (m : machine) :
  reachable m →
  lseg (taskBuf (scheduler_vars m)) (task_list (scheduler_vars m)) None (queue m) ∧
  NoDup (queue m) ∧
  (∀ i, (i < TASK_LIST_DEPTH)%nat → (i ∈ queue m ↔ is_Some (cb_at m i))) ∧
  ((length (queue m) < TASK_LIST_DEPTH)%nat
   ↔ ∃ j, (j < TASK_LIST_DEPTH)%nat ∧ cb_at m j = None) ∧
  (Z.of_nat TASK_LIST_DEPTH < DBG_MODULUS →
   0 ≤ numTasksMax (scheduler_dbg m) ≤ Z.of_nat TASK_LIST_DEPTH).
Proof.
  intros Hreach. pose proof (reachable_inv _ Hreach) as [Hwf _].
  pose proof Hwf as [Hlen Hch Hnd Hocc].
  assert (∀ i, (i < TASK_LIST_DEPTH)%nat → (i ∈ queue m ↔ is_Some (cb_at m i))) as Hin.
  { intros i Hi. rewrite <-Hlen in Hi.
    destruct (lookup_lt_is_Some_2 _ _ Hi) as [s Hs].
    rewrite (cb_at_lookup _ _ _ Hs). symmetry. by apply Hocc. }
  do 3 (split; [done|]). split.
  - split.
    + intros Hroom.
      destruct (first_free_or_full (taskBuf (scheduler_vars m)))
        as [(j & sj & Hsj & Hfree & _)|Hfull].
      * exists j. split; [rewrite <-Hlen; by eapply lookup_lt_Some|].
        by rewrite (cb_at_lookup _ _ _ Hsj).
      * pose proof (wf_full_length _ _ Hwf Hfull). lia.
    + intros (j & Hj & Hfree). apply (wf_room m (queue m) j Hwf Hj).
      rewrite (Hin j Hj), Hfree. by intros [? ?].
  - intros Hmod. split; [|by apply reachable_max_bound].
    destruct (reachable_dbg m Hmod Hreach) as [Hcur Hmax]. lia.
Qed.

(** ** Push and extraction as a round trip *)

Lemma first_in_band_unique minprio maxprio
    (a a' b b' : list (option task_cbt * task_prio_t)) t t' :
  a ++ t :: b = a' ++ t' :: b' →
  Forall (fun u => in_band minprio maxprio u.2 = false) a →
  in_band minprio maxprio t.2 = true →
  Forall (fun u => in_band minprio maxprio u.2 = false) a' →
  in_band minprio maxprio t'.2 = true →
  a = a' ∧ t = t' ∧ b = b'.
Proof.
  revert a'. induction a as [|u a IH]; intros [|u' a'] Heq Ha Ht Ha' Ht';
    simplify_eq/=.
  - done.
  - apply Forall_cons in Ha' as [Hu' _]. congruence.
  - apply Forall_cons in Ha as [Hu _]. congruence.
  - apply Forall_cons in Ha as [_ Ha]. apply Forall_cons in Ha' as [_ Ha'].
    destruct (IH a' ltac:(done) Ha Ht Ha' Ht') as (-> & -> & ->). done.
Qed.

Lemma queued_tasks_length m : length (queued_tasks m) = length (queue m).
Proof. unfold queued_tasks. by rewrite length_fmap. Qed.

(** X6: when a task is pushed with a priority of a band in which no queued
    task is more urgent, the next extraction on that band runs exactly this
    task; afterwards the list holds the same tasks in the same order as
    before the push and as many containers are in use as before. *)
Theorem push_then_extract_round_trip (m : machine) (c : task_cbt)
    (p0 minprio maxprio : task_prio_t) (pThisTask : item_ptr) (m1 : machine) :
  reachable m →
  scheduler_push_task (Some c) p0 m = Done tt m1 →
  in_band minprio maxprio p0 = true →
  Forall (fun t => in_band minprio maxprio t.2 = true → (p0 ≤ t.2)%N) (queued_tasks m) →
  ∃ m2,
    scheduler_find_next_task_and_execute minprio maxprio pThisTask m1 = Done true m2 ∧
    executed m2 = executed m ++ [(c, p0)] ∧
    queued_tasks m2 = queued_tasks m ∧
    length (occupied_slots m2) = length (occupied_slots m).
Proof.
  intros Hinv%reachable_inv Hpush Hband Hurgent.
  destruct (push_queued_tasks m c p0 m1 Hinv Hpush)
    as (a & b & Hq & Hq1 & Ha & Hb & Hex & _ & Hinv1).
  assert (Forall (fun t => in_band minprio maxprio t.2 = false) a) as Hout.
  { rewrite Hq in Hurgent. apply Forall_app in Hurgent as [Hurgent _].
    rewrite Forall_forall in Ha, Hurgent. apply Forall_forall. intros t Ht.
    destruct (in_band minprio maxprio t.2) eqn:Hin; [|done].
    specialize (Ha t Ht). specialize (Hurgent t Ht Hin). cbv beta in *.
    unfold task_prio_t in *. lia. }
  destruct (find_next_step m1 minprio maxprio pThisTask Hinv1)
    as (r & m2 & Hrun & _).
  destruct (extract_queued_tasks m1 minprio maxprio pThisTask r m2 Hinv1 Hrun)
    as (Hinv2 & _ & [(-> & Hnone & _)
                    |(-> & a' & c' & p' & b' & Hq1' & Hq2 & Hex2 & Hout' & Hin' & _)]).
  { rewrite Hq1 in Hnone. apply Forall_app in Hnone as [_ Hnone].
    apply Forall_cons in Hnone as [Hnone _]. simpl in Hnone. congruence. }
  rewrite Hq1 in Hq1'.
  destruct (first_in_band_unique minprio maxprio a a' b b' (Some c, p0) (Some c', p')
              Hq1' Hout Hband Hout' Hin') as (<- & [= <- <-] & <-).
  exists m2. split; [done|]. split; [by rewrite Hex2, Hex|].
  split; [by rewrite Hq2, Hq|].
  rewrite (occupied_slots_length m2 (queue m2) (proj1 Hinv2)),
          (occupied_slots_length m (queue m) (proj1 Hinv)).
  by rewrite <-!queued_tasks_length, Hq2, Hq.
Qed.

(** ** No task is lost or run twice *)

Lemma queued_tasks_same_vars m m' :
  scheduler_vars m' = scheduler_vars m → queued_tasks m' = queued_tasks m.
Proof. unfold queued_tasks, queue, cb_at, prio_at, item_at. by intros ->. Qed.

Lemma run_conserves es : ∀ m m',
  inv m → run es m = Done tt m' →
  inv m' ∧
  (as_queued <$> executed m') ++ queued_tasks m'
  ≡ₚ (as_queued <$> executed m) ++ queued_tasks m ++ (as_queued <$> pushes_of es).
Proof.
  induction es as [|e es IH]; intros m m' Hinv Hrun.
  - cbn [run] in Hrun. unfold ret in Hrun. simplify_eq. simpl.
    by rewrite app_nil_r.
  - cbn [run] in Hrun. unfold bind at 1 in Hrun.
    destruct (step e m) as [[] m1|?|?|] eqn:Hstep; try done.
    destruct e as [c p0|minprio maxprio|x]; cbn [step pushes_of] in *.
    + destruct (push_queued_tasks m c p0 m1 Hinv Hstep)
        as (a & b & Hq & Hq1 & _ & _ & Hex & _ & Hinv1).
      destruct (IH m1 m' Hinv1 Hrun) as [Hinv' Hperm]. split; [done|].
      rewrite Hperm, Hex, Hq1, Hq, fmap_cons.
      apply Permutation_app_head.
      rewrite <-!app_assoc. apply Permutation_app_head. simpl.
      rewrite <-Permutation_middle. reflexivity.
    + unfold bind in Hstep.
      destruct (scheduler_find_next_task_and_execute minprio maxprio None m)
        as [r m0|?|?|] eqn:Hfind; try done.
      unfold ret in Hstep. simplify_eq.
      destruct (extract_queued_tasks m minprio maxprio None r m1 Hinv Hfind)
        as (Hinv1 & _ & [(-> & _ & Hq1 & _ & Hex)
                        |(-> & a & c & p & b & Hq & Hq1 & Hex & _)]).
      * destruct (IH m1 m' Hinv1 Hrun) as [Hinv' Hperm]. split; [done|].
        by rewrite Hperm, Hex, Hq1.
      * destruct (IH m1 m' Hinv1 Hrun) as [Hinv' Hperm]. split; [done|].
        rewrite Hperm, Hex, Hq1, Hq, fmap_app. simpl.
        rewrite <-!app_assoc. apply Permutation_app_head. simpl.
        change (as_queued (c, p)) with (Some c, p).
        rewrite (Permutation_middle a). done.
    + apply take_done in Hstep as [_ ->].
      destruct (IH (sem_set x false m) m') as [Hinv' Hperm]; [|done|].
      { apply (inv_same_vars m); [apply sem_set_vars|done]. }
      split; [done|].
      by rewrite Hperm, sem_set_executed, (queued_tasks_same_vars _ _ (sem_set_vars x false m)).
Qed.

(** X7: after any run of pushes, extractions and takes from start-up that
    returned, the tasks run so far together with the tasks still queued are
    exactly the tasks pushed, each as often as it was pushed: no task is
    lost, none is run twice and none is run that was not pushed. *)
Theorem no_task_lost_or_run_twice (es : list event) (m : machine) :
  run es initial = Done tt m →
  (as_queued <$> executed m) ++ queued_tasks m ≡ₚ as_queued <$> pushes_of es.
Proof.
  intros Hrun. destruct (run_conserves es initial m inv_initial Hrun) as [_ Hperm].
  assert (queued_tasks initial = []) as Hq0.
  { by rewrite queued_tasks_fmap, (wf_queue _ _ wf_initial). }
  by rewrite Hperm, Hq0.
Qed.

(** ** Draining a band *)

(** ** Extractions in list order *)

(** X8: [n] successive extractions on a band that holds at least [n] queued
    tasks all return without any undefined access; they run the first [n]
    queued tasks of the band in the order in which they stand in the list
    and leave the other tasks queued in their order. *)
Theorem extractions_run_band_in_list_order (m : machine) (n : nat)
    (minprio maxprio : task_prio_t) :
  reachable m →
  (n ≤ length (band_tasks minprio maxprio (queued_tasks m)))%nat →
  ∃ m',
    extract_n n minprio maxprio m = Done tt m' ∧
    violations m' = violations m ∧
    as_queued <$> executed m'
    = (as_queued <$> executed m) ++ take_band n minprio maxprio (queued_tasks m) ∧
    queued_tasks m' = drop_band n minprio maxprio (queued_tasks m).
Proof.
  intros Hinv%reachable_inv Hn.
  destruct (extract_n_defined n minprio maxprio m Hinv Hn)
    as (m' & Hrun & _ & Hv & Hex & Hq & _).
  by exists m'.
Qed.

(** ** Undefined accesses *)

Lemma violations_sem_set x v m :
  violations (sem_set x v m) = violations m.
Proof. by destruct x. Qed.

(** X4: an extraction makes no undefined access, and returns, when a task
    of the band is queued or at most one task is queued at all.  In the
    other case, two or more tasks queued and none of the band, its search
    runs off the end of the list and the first undefined access it makes is
    the load of the priority of [NULL]. *)
Theorem extraction_is_defined_iff_band_task_or_short_list (m : machine)
    (minprio maxprio : task_prio_t) (pThisTask : item_ptr) :
  reachable m →
  (Exists (fun k => in_band minprio maxprio (prio_at m k) = true) (queue m) ∨
   (length (queue m) ≤ 1)%nat →
   ∃ b m', scheduler_find_next_task_and_execute minprio maxprio pThisTask m
           = Done b m' ∧
           violations m' = violations m) ∧
  (Forall (fun k => in_band minprio maxprio (prio_at m k) = false) (queue m) →
   (2 ≤ length (queue m))%nat →
   ∃ vs, accesses (scheduler_find_next_task_and_execute minprio maxprio pThisTask m)
         = violations m ++ Invalid_load None :: vs).
Proof.
  intros Hreach. pose proof (reachable_inv _ Hreach) as Hinv. split.
  - intros Hcase.
    destruct (find_next_cases m minprio maxprio pThisTask Hinv)
      as [(Hout & vs & Hrun & Hshort & _)|(m' & l1 & i & l2 & _ & _ & _ & Hrun & He & _)].
    + destruct Hcase as [Hex|Hlen].
      * apply Exists_exists in Hex as (k & Hk & Hin).
        rewrite Forall_forall in Hout. specialize (Hout k Hk).
        unfold out_of_band in Hout. congruence.
      * exists false, (flags vs m). split; [done|]. rewrite (Hshort Hlen).
        by rewrite flags_nil.
    + exists true, m'. split; [done|]. by destruct He.
  - intros Hout Hlen.
    destruct (find_next_null_dereference m minprio maxprio pThisTask Hreach Hlen Hout)
      as (vs & ->). by exists vs.
Qed.

(** X9: a push of a callback makes an undefined access exactly when the
    pool is full: with a container free it makes none, whether it returns
    or ends in the error handler for its priority; with
    [TASK_LIST_DEPTH] tasks queued its scan reads the callback of
    [taskBuf[TASK_LIST_DEPTH]], one element past the pool, and that load is
    the only one before the board reset.  It never stores through an
    invalid pointer. *)
Theorem push_reads_past_the_pool_iff_full (m : machine) (c : task_cbt)
    (p0 : task_prio_t) :
  reachable m →
  ((length (queue m) < TASK_LIST_DEPTH)%nat ∨
   length (queue m) = TASK_LIST_DEPTH) ∧
  ((length (queue m) < TASK_LIST_DEPTH)%nat →
   accesses (scheduler_push_task (Some c) p0 m) = violations m) ∧
  (length (queue m) = TASK_LIST_DEPTH →
   ∃ m', scheduler_push_task (Some c) p0 m = Reset m' ∧
         violations m' = violations m ++ [Invalid_load (Some TASK_LIST_DEPTH)] ∧
         scheduler_vars m' = scheduler_vars m).
Proof.
  intros Hreach. pose proof (reachable_inv _ Hreach) as [Hwf _].
  pose proof (wf_length_le m (queue m) Hwf) as Hle.
  split; [lia|].
  destruct (push_internal_cases m (queue m) (Some c) p0 Hwf)
    as [[Hfull Hreset]|(m1 & j & l1 & l2 & Hint & Hq & Hj & _ & _ & Hp)].
  - pose proof (wf_full_length _ _ Hwf Hfull) as Hlen. split; [lia|]. intros _.
    rewrite push_task_unfold, Hreset. eexists. split; [reflexivity|]. done.
  - assert (length (queue m) < TASK_LIST_DEPTH)%nat as Hroom.
    { apply (wf_room m (queue m) j Hwf); [|done].
      destruct (pushed_item _ _ _ _ _ _ _ Hp) as [n Hn].
      apply lookup_lt_Some in Hn.
      by rewrite (pushed_length _ _ _ _ _ _ _ Hp), (wf_length _ _ Hwf) in Hn. }
    split; [|lia]. intros _. rewrite push_task_unfold, Hint.
    destruct (signal_of p0) as [x|]; simpl.
    + rewrite violations_sem_set. by destruct Hp.
    + by destruct Hp.
Qed.

(** ** A push followed by the worker it wakes *)

(** X10: when a push returns and its priority is none of the three boundary
    values, the semaphore it has given is that of the worker whose band holds
    the priority, and the next loop iteration of that worker returns having
    run exactly one task: a task of the band whose priority is not greater
    than the pushed one.  As many tasks are queued afterwards as before the
    push. *)
Theorem push_then_worker_runs_a_task (m : machine) (c : task_cbt)
    (p0 : task_prio_t) (m1 : machine) :
  reachable m →
  scheduler_push_task (Some c) p0 m = Done tt m1 →
  p0 ≠ SCHEDULER_STACK_PRIO_BOUNDARY →
  p0 ≠ SCHEDULER_SENDDONETIMER_PRIO_BOUNDARY →
  p0 ≠ TASKPRIO_MAX →
  ∃ x m2 c' p',
    sem_value x m1 = true ∧
    in_band (band_min x) (band_max x) p0 = true ∧
    worker_body x (band_min x) (band_max x) m1 = Done tt m2 ∧
    executed m2 = executed m ++ [(c', p')] ∧
    in_band (band_min x) (band_max x) p' = true ∧
    (p' ≤ p0)%N ∧
    length (queue m2) = length (queue m).
Proof.
  intros Hinv%reachable_inv Hpush H4 H8 Hmax.
  destruct (push_task_done m c p0 m1 Hinv Hpush)
    as (m0 & x & j & l1 & l2 & _ & Hsig & -> & Hq & Hj & Hq1 & _ & _ & Hp & Hinv1).
  pose proof (signal_matches_band_off_boundaries p0 x Hsig H4 H8 Hmax) as Hband.
  set (m1 := sem_set x true m0) in *.
  assert (sem_value x m1 = true) as Hsem by apply sem_value_set.
  set (m1' := sem_set x false m1).
  assert (inv m1') as Hinv1' by (apply (inv_same_vars m1); [apply sem_set_vars|done]).
  assert (queue m1' = queue m1) as Hq1' by apply queue_same_vars, sem_set_vars.
  assert (prio_at m1' j = p0) as Hpj.
  { unfold m1', m1. rewrite !(prio_at_same_vars _ _ _ (sem_set_vars x _ _)).
    by destruct (pushed_new _ _ _ _ _ _ _ Hp). }
  destruct (find_next_step m1' (band_min x) (band_max x) None Hinv1')
    as (b & m2 & Hrun & _ & _ & _ & Htrue & Hfalse).
  destruct b.
  - destruct (Htrue eq_refl) as (i & c' & (Hi & Hin & Hmin) & Hc' & Hex & Hmem).
    exists x, m2, c', (prio_at m1' i). split; [done|]. split; [done|]. split.
    { unfold worker_body.
      assert (xSemaphoreTake x m1 = Done tt m1') as Htake
        by (unfold xSemaphoreTake; by rewrite Hsem).
      rewrite (bind_done _ _ _ _ _ Htake). by rewrite (bind_done _ _ _ _ _ Hrun). }
    split.
    { rewrite Hex. unfold m1', m1. rewrite !sem_set_executed.
      by rewrite (pushed_executed _ _ _ _ _ _ _ Hp). }
    split; [done|]. split.
    { rewrite <-Hpj. apply Hmin; [|by rewrite Hpj].
      rewrite Hq1', Hq1. apply elem_of_app. right. left. }
    pose proof (wf_nodup _ _ (proj1 Hinv1')) as Hnd.
    destruct (find_next_cases m1' (band_min x) (band_max x) None Hinv1')
      as [(_ & vs & Hrun' & _)|(m2' & k1 & i' & k2 & Hqq & _ & _ & Hrun' & _ & Hqq' & _)];
      rewrite Hrun' in Hrun; simplify_eq.
    rewrite Hqq', Hq. rewrite Hq1', Hq1 in Hqq.
    apply (f_equal length) in Hqq. rewrite !length_app in *. simpl in *. lia.
  - destruct (Hfalse eq_refl) as (Hout & _).
    rewrite Hq1', Hq1 in Hout. apply Forall_app in Hout as [_ Hout].
    apply Forall_cons in Hout as [Hout _]. rewrite Hpj in Hout. congruence.
Qed.

(** ** Tasks that no worker serves *)

Lemma no_band_from_max_up (p : task_prio_t) x :
  (SCHEDULER_SENDDONETIMER_PRIO_BOUNDARY ≤ p)%N → (TASKPRIO_MAX ≤ p)%N →
  in_band (band_min x) (band_max x) p = false.
Proof.
  unfold in_band, SCHEDULER_SENDDONETIMER_PRIO_BOUNDARY. intros H8 Hmax.
  destruct x; simpl;
    unfold SCHEDULER_APP_PRIO_BOUNDARY, SCHEDULER_SENDDONETIMER_PRIO_BOUNDARY,
      SCHEDULER_STACK_PRIO_BOUNDARY.
  - destruct (N.ltb_spec p TASKPRIO_MAX); [lia|]. by rewrite andb_false_r.
  - destruct (N.ltb_spec p 8); [lia|]. by rewrite andb_false_r.
  - destruct (N.ltb_spec p 4); [lia|]. by rewrite andb_false_r.
Qed.

(** X11: a queued task whose priority is at least
    [SCHEDULER_SENDDONETIMER_PRIO_BOUNDARY] and at least [TASKPRIO_MAX] (a
    push accepts [TASKPRIO_MAX] itself) is in the band of no worker: through
    any further pushes and loop iterations of the three workers it stays in
    the list, in its container, and its callback is never run by them. *)
Theorem task_at_max_priority_is_never_served (m0 m : machine) (i : nat) :
  reachable m0 →
  i ∈ queue m0 →
  (SCHEDULER_SENDDONETIMER_PRIO_BOUNDARY ≤ prio_at m0 i)%N →
  (TASKPRIO_MAX ≤ prio_at m0 i)%N →
  served_from m0 m →
  i ∈ queue m ∧ prio_at m i = prio_at m0 i ∧ cb_at m i = cb_at m0 i ∧
  (length (executed m0) ≤ length (executed m))%nat ∧
  Forall (fun t => ∃ x, in_band (band_min x) (band_max x) t.2 = true)
         (drop (length (executed m0)) (executed m)).
Proof.
  intros Hinv0%reachable_inv Hi H8 Hmax Hserved.
  enough (inv m ∧ i ∈ queue m ∧ prio_at m i = prio_at m0 i ∧ cb_at m i = cb_at m0 i ∧
          ∃ xs, executed m = executed m0 ++ xs ∧
                Forall (fun t => ∃ x, in_band (band_min x) (band_max x) t.2 = true) xs)
    as (_ & ? & ? & ? & xs & Hex & Hxs).
  { do 3 (split; [done|]). rewrite Hex, length_app. split; [lia|].
    by rewrite drop_app_length. }
  induction Hserved as [|m c p0 m' _ IH Hrun|m x m' _ IH Hrun].
  - do 4 (split; [done|]). exists []. by rewrite app_nil_r.
  - destruct IH as (Hinv & Hq & Hprio & Hcb & xs & Hex & Hxs).
    destruct (push_task_done m c p0 m' Hinv Hrun)
      as (m1 & y & j & l1 & l2 & _ & _ & -> & Hql & Hj & Hq' & _ & _ & Hp & Hinv').
    split; [done|]. split.
    { rewrite Hq'. rewrite Hql in Hq. rewrite elem_of_app, elem_of_cons.
      rewrite elem_of_app in Hq. tauto. }
    rewrite (prio_at_same_vars _ _ _ (sem_set_vars y true m1)),
            (cb_at_same_vars _ _ _ (sem_set_vars y true m1)), sem_set_executed.
    destruct (pushed_prio_at m m1 _ _ _ _ _ i Hp) as [-> ->];
      [by intros ->|by apply inv_lookup|].
    do 2 (split; [done|]). exists xs. by rewrite (pushed_executed _ _ _ _ _ _ _ Hp).
  - destruct IH as (Hinv & Hq & Hprio & Hcb & xs & Hex & Hxs).
    unfold worker_body in Hrun. unfold bind at 1 in Hrun.
    destruct (xSemaphoreTake x m) as [[] m1|?|?|] eqn:Htake; try done.
    apply take_done in Htake as [_ ->].
    unfold bind at 1 in Hrun.
    destruct (scheduler_find_next_task_and_execute (band_min x) (band_max x) None
                (sem_set x false m)) as [b m2|?|?|] eqn:Hfind; try done.
    unfold leds_toggle, ret in Hrun. simplify_eq.
    assert (inv (sem_set x false m)) as Hinv1
      by (apply (inv_same_vars m); [apply sem_set_vars|done]).
    pose proof (sem_set_vars x false m) as Hv.
    destruct (find_next_cases (sem_set x false m) (band_min x) (band_max x) None Hinv1)
      as [(_ & vs & Hr & _)|(m2' & l1 & k & l2 & Hql & _ & Hin & Hr & He & Hq' & Hinv2)];
      rewrite Hr in Hfind; simplify_eq.
    + split; [by apply (inv_same_vars m)|].
      assert (scheduler_vars (flags vs (sem_set x false m)) = scheduler_vars m) as Hv'
        by (by rewrite flags_vars).
      rewrite (queue_same_vars _ _ Hv'), (prio_at_same_vars _ _ i Hv'),
              (cb_at_same_vars _ _ i Hv').
      do 3 (split; [done|]). exists xs. split; [|done].
      by rewrite <-Hex, <-(sem_set_executed x false m).
    + rewrite (queue_same_vars _ _ Hv) in Hql.
      rewrite (prio_at_same_vars _ _ _ Hv) in Hin.
      assert (i ≠ k) as Hik.
      { intros ->. rewrite Hprio, (no_band_from_max_up _ x H8 Hmax) in Hin. done. }
      split; [done|]. split.
      { rewrite Hq'. rewrite Hql in Hq. rewrite elem_of_app.
        rewrite elem_of_app, elem_of_cons in Hq. tauto. }
      destruct (extracted_prio_at _ _ k l1 l2 i He Hik) as [-> ->].
      { apply inv_lookup; [done|]. by rewrite (queue_same_vars _ _ Hv). }
      rewrite (prio_at_same_vars _ _ _ Hv), (cb_at_same_vars _ _ _ Hv).
      do 2 (split; [done|]).
      destruct (extracted_executed _ _ _ _ _ He) as (c' & _ & Hex').
      rewrite (prio_at_same_vars _ _ _ Hv), sem_set_executed in Hex'.
      exists (xs ++ [(c', prio_at m k)]). rewrite Hex', Hex, app_assoc.
      split; [done|]. apply Forall_app. split; [done|]. repeat constructor. eauto.
Qed.

(** ** Start-up *)

Lemma length_snoc {A} (xs : list A) (r : A) : length (xs ++ [r]) = S (length xs).
Proof. rewrite length_app. simpl. lia. Qed.

(** [scheduler_init] when the kernel grants the first [k] of the seven
    requests and refuses the next one. *)
Lemma init_cases (b : boot) (m : machine) (k : nat) :
  (k ≤ 7)%nat →
  (∀ n, (n < k)%nat → is_Some (heap b (length (requests b) + n))) →
  ((k < 7)%nat → heap b (length (requests b) + k) = None) →
  ∃ b',
    scheduler_init b m
    = (b', if decide (k = 7%nat) then Done tt (created_empty k m)
           else Reset (created_empty k m)) ∧
    requests b' = requests b ++ take (S k) init_requests ∧
    heap b' = heap b ∧
    ∀ n f, init_fields !! n = Some f →
           get_field f (handles b')
           = if decide (n < k)%nat then heap b (length (requests b) + n) else None.
Proof.
  intros Hk Hsome Hnone. destruct b as [h hp rq]. simpl in *.
  assert (∀ n, (n < k)%nat → ∃ v, hp (length rq + n)%nat = Some v) as Hs
    by (intros n Hn; by destruct (Hsome n Hn) as [v ->]; eauto).
  clear Hsome.
  assert (k = 0 ∨ k = 1 ∨ k = 2 ∨ k = 3 ∨ k = 4 ∨ k = 5 ∨ k = 6 ∨ k = 7)%nat
    as Hcases by lia.
  destruct Hcases as [->|[->|[->|[->|[->|[->|[->| ->]]]]]]].
  all: try (destruct (Hs 0%nat ltac:(lia)) as [v0 E0]);
     try (destruct (Hs 1%nat ltac:(lia)) as [v1 E1]);
     try (destruct (Hs 2%nat ltac:(lia)) as [v2 E2]);
     try (destruct (Hs 3%nat ltac:(lia)) as [v3 E3]);
     try (destruct (Hs 4%nat ltac:(lia)) as [v4 E4]);
     try (destruct (Hs 5%nat ltac:(lia)) as [v5 E5]);
     try (destruct (Hs 6%nat ltac:(lia)) as [v6 E6]);
     try (specialize (Hnone ltac:(lia)));
     clear Hs;
     rewrite ?Nat.add_succ_r, ?Nat.add_0_r in *;
     unfold scheduler_init, scheduler_createSem, xTaskCreate, xSemaphoreCreateMutex,
       xSemaphoreCreateBinary, kernel_create, memset_rtos_sched_v, store_semaphore,
       store_field, load_field, lift, kbind, kret, with_handles;
     cbn -[length app take];
     repeat (rewrite ?length_snoc, ?E0, ?E1, ?E2, ?E3, ?E4, ?E5, ?E6, ?Hnone;
             cbn -[length app take]);
     (eexists; split; [reflexivity|]; split;
       [cbn; by rewrite <-?app_assoc|]; split; [done|]).
  all: intros n f Hf;
    do 7 (destruct n as [|n];
          [simplify_eq/=; rewrite ?Nat.add_succ_r, ?Nat.add_0_r;
           repeat case_decide; try lia;
           by rewrite ?E0, ?E1, ?E2, ?E3, ?E4, ?E5, ?E6|]);
    done.
Qed.

Lemma first_refusal (g : nat → option nat) (n : nat) :
  ¬ (∀ i, (i < n)%nat → is_Some (g i)) →
  ∃ k, (k < n)%nat ∧ (∀ i, (i < k)%nat → is_Some (g i)) ∧ g k = None.
Proof.
  enough ((∀ i, (i < n)%nat → is_Some (g i)) ∨
          ∃ k, (k < n)%nat ∧ (∀ i, (i < k)%nat → is_Some (g i)) ∧ g k = None)
    as [?|?] by done.
  induction n as [|n [Hall|(k & Hk & Hbefore & Hnone)]].
  - left. intros i Hi. lia.
  - destruct (g n) as [v|] eqn:Hn.
    + left. intros i Hi. destruct (decide (i = n)) as [->|]; [by rewrite Hn|].
      apply Hall. lia.
    + right. exists n. split; [lia|done].
  - right. exists k. split; [lia|done].
Qed.

Lemma init_fields_index (f : rtos_field) : ∃ n, (n < 7)%nat ∧ init_fields !! n = Some f.
Proof.
  destruct f;
    [exists 0%nat|exists 2%nat|exists 1%nat|exists 4%nat|exists 3%nat|exists 6%nat
    |exists 5%nat]; (split; [lia|done]).
Qed.

Lemma created_empty_keeps k m :
  scheduler_vars (created_empty k m) = scheduler_vars m ∧
  scheduler_dbg (created_empty k m) = scheduler_dbg m ∧
  executed (created_empty k m) = executed m ∧
  violations (created_empty k m) = violations m.
Proof.
  unfold created_empty.
  destruct (1 <? k)%nat, (3 <? k)%nat, (5 <? k)%nat; done.
Qed.

(** X12: when the kernel grants the seven objects, [scheduler_init] returns:
    it has asked for the mutex, then for the semaphore and the task of the
    application, the sendDone and the rx worker, in this order and nothing
    else; every handle of [rtos_sched_v] holds what the kernel answered to
    its request and none is [NULL], whatever [rtos_sched_v] held before; the
    three semaphores are the new ones and empty, whatever signal was pending
    before; the task list, the debug counters and the traces are left as
    they were. *)
Theorem scheduler_init_returns_with_every_handle (b : boot) (m : machine) :
  (∀ n, (n < 7)%nat → is_Some (heap b (length (requests b) + n))) →
  ∃ b' m',
    scheduler_init b m = (b', Done tt m') ∧
    requests b' = requests b ++ init_requests ∧
    (∀ n f, init_fields !! n = Some f →
            get_field f (handles b') = heap b (length (requests b) + n)) ∧
    (∀ f, is_Some (get_field f (handles b'))) ∧
    (∀ x, sem_value x m' = false) ∧
    scheduler_vars m' = scheduler_vars m ∧
    scheduler_dbg m' = scheduler_dbg m ∧
    executed m' = executed m ∧
    violations m' = violations m.
Proof.
  intros Hall.
  destruct (init_cases b m 7) as (b' & Hrun & Hreq & _ & Hfields); [lia|done|lia|].
  exists b', (created_empty 7 m). split; [done|]. split; [done|].
  assert (∀ n f, init_fields !! n = Some f →
                 get_field f (handles b') = heap b (length (requests b) + n)) as Hget.
  { intros n f Hf. rewrite (Hfields n f Hf).
    apply lookup_lt_Some in Hf. simpl in Hf. destruct (decide (n < 7)%nat); [done|lia]. }
  split; [done|]. split.
  { intros f. destruct (init_fields_index f) as (n & Hn & Hf).
    rewrite (Hget n f Hf). by apply Hall. }
  split; [by intros []|]. apply created_empty_keeps.
Qed.

(** X13: when the kernel refuses one of the seven objects, [scheduler_init]
    does not return: it ends in the board reset right after the first
    refused request, having asked for nothing further, with the task list
    and the debug counters untouched and the semaphores created so far
    empty.  The handle of the refused object and of every later one is
    [NULL], whatever [rtos_sched_v] held before the call. *)
Theorem scheduler_init_resets_at_first_refusal (b : boot) (m : machine) :
  ¬ (∀ n, (n < 7)%nat → is_Some (heap b (length (requests b) + n))) →
  ∃ k b',
    (k < 7)%nat ∧
    (∀ n, (n < k)%nat → is_Some (heap b (length (requests b) + n))) ∧
    heap b (length (requests b) + k) = None ∧
    scheduler_init b m = (b', Reset (created_empty k m)) ∧
    scheduler_vars (created_empty k m) = scheduler_vars m ∧
    scheduler_dbg (created_empty k m) = scheduler_dbg m ∧
    requests b' = requests b ++ take (S k) init_requests ∧
    (∀ n f, (k ≤ n)%nat → init_fields !! n = Some f →
            get_field f (handles b') = None).
Proof.
  intros Hnot.
  destruct (first_refusal (fun n => heap b (length (requests b) + n)) 7 Hnot)
    as (k & Hk & Hbefore & Hnone).
  destruct (init_cases b m k) as (b' & Hrun & Hreq & _ & Hfields); [lia|done|done|].
  exists k, b'. do 3 (split; [done|]). split.
  { rewrite Hrun. destruct (decide (k = 7%nat)); [lia|done]. }
  destruct (created_empty_keeps k m) as (Hvars & Hdbg & _).
  do 3 (split; [done|]).
  intros n f Hn Hf. rewrite (Hfields n f Hf). destruct (decide (n < k)%nat); [lia|done].
Qed.

(** ** The first take of a worker *)

Lemma worker_task_unfold x fuel :
  worker_task x fuel
  = (xSemaphoreTake x ;; forever fuel (worker_body x (band_min x) (band_max x))).
Proof. by destruct x. Qed.

(** X14: a worker that is still at its first line (it has not run yet, or is
    suspended in the take in front of its loop) when a task of its semaphore
    is pushed does not run it: the take in front of the loop consumes the
    signal of the push, the take inside the loop suspends the worker, and
    the task stays in the list with the semaphore empty. *)
Theorem signal_before_first_take_is_swallowed (m : machine) (c : task_cbt)
    (p0 : task_prio_t) (m1 : machine) (x : semaphore) (fuel : nat) :
  reachable m →
  scheduler_push_task (Some c) p0 m = Done tt m1 →
  signal_of p0 = Some x →
  (0 < fuel)%nat →
  ∃ m2,
    worker_task x fuel m1 = Blocked m2 ∧
    sem_value x m2 = false ∧
    executed m2 = executed m ∧
    queued_tasks m2 = queued_tasks m1 ∧
    (Some c, p0) ∈ queued_tasks m2.
Proof.
  intros Hinv%reachable_inv Hpush Hsig Hfuel.
  destruct (push_queued_tasks m c p0 m1 Hinv Hpush)
    as (a & b & _ & Hq1 & _ & _ & Hex & _ & _).
  destruct (push_task_done m c p0 m1 Hinv Hpush)
    as (m0 & x' & _ & _ & _ & _ & Hsig' & -> & _).
  rewrite Hsig in Hsig'. simplify_eq.
  exists (sem_set x' false (sem_set x' true m0)).
  destruct fuel as [|fuel]; [lia|].
  split.
  { rewrite worker_task_unfold. unfold bind at 1, xSemaphoreTake at 1.
    rewrite sem_value_set. cbn [forever]. unfold bind at 1, worker_body, bind at 1.
    unfold xSemaphoreTake. by rewrite sem_value_set. }
  split; [apply sem_value_set|]. split; [by rewrite sem_set_executed|].
  rewrite (queued_tasks_same_vars _ _ (sem_set_vars x' false _)).
  split; [done|]. rewrite Hq1. apply elem_of_app. right. left.
Qed.

(** ** A push without a callback *)

Lemma call_null m i si :
  taskBuf (scheduler_vars m) !! i = Some si → cb si = None →
  call (Some i) m = Done tt (flag Null_call m).
Proof.
  intros Hsi Hc. unfold call.
  rewrite (bind_done _ _ _ _ _ (load_valid _ _ _ Hsi)). by rewrite Hc.
Qed.

Lemma executeTask_null m i si :
  taskBuf (scheduler_vars m) !! i = Some si → cb si = None →
  scheduler_executeTask (Some i) m
  = Done tt
      (with_dbg (mk_dbg ((numTasksCur (scheduler_dbg m) - 1) mod DBG_MODULUS)
                        (numTasksMax (scheduler_dbg m)))
         (with_taskBuf (<[i := mk_item None TASKPRIO_NONE None]>
                          (taskBuf (scheduler_vars m)))
            (flag Null_call m))).
Proof.
  intros Hsi Hc. unfold scheduler_executeTask.
  pose proof (lookup_lt_Some _ _ _ Hsi) as Hi.
  rewrite (bind_done _ _ _ _ _ (call_null _ _ _ Hsi Hc)).
  erewrite bind_done; last by (apply store_valid; simpl; exact Hsi).
  erewrite bind_done; last first.
  { apply store_valid. simpl. by apply list_lookup_insert_eq. }
  erewrite bind_done; last first.
  { apply store_valid. simpl. rewrite list_insert_insert_eq.
    by apply list_lookup_insert_eq. }
  unfold dbg_decrement. simpl. by rewrite !list_insert_insert_eq.
Qed.

(** X15: [scheduler_push_task] does not test its callback.  A push of [NULL]
    with a mapped priority, while a container is free, returns like any
    other: the container is linked into the list and counted in
    [numTasksCur], and it still reads as free.  When no queued task is more
    urgent, the next extraction on a band that holds the priority takes this
    container, and the first undefined access it makes is the call through
    the [NULL] pointer. *)
Theorem null_callback_is_queued_and_called (m : machine)
    (p0 minprio maxprio : task_prio_t) :
  reachable m →
  (length (queue m) < TASK_LIST_DEPTH)%nat →
  is_Some (signal_of p0) →
  Forall (fun t => (p0 ≤ t.2)%N) (queued_tasks m) →
  in_band minprio maxprio p0 = true →
  ∃ m1 j,
    scheduler_push_task None p0 m = Done tt m1 ∧
    violations m1 = violations m ∧
    queue m1 = j :: queue m ∧ cb_at m1 j = None ∧ prio_at m1 j = p0 ∧
    numTasksCur (scheduler_dbg m1)
    = (numTasksCur (scheduler_dbg m) + 1) mod DBG_MODULUS ∧
    ∃ vs,
      accesses (scheduler_find_next_task_and_execute minprio maxprio None m1)
      = violations m ++ Null_call :: vs.
Proof.
  intros Hreach Hroom [x Hsig] Hge Hin.
  pose proof (reachable_inv _ Hreach) as [Hwf Hsorted].
  destruct (push_internal_cases m (queue m) None p0 Hwf)
    as [[Hfull _]|(m' & j & l1 & l2 & Hint & Hq & Hj & Hl1 & _ & Hp)].
  { pose proof (wf_full_length _ _ Hwf Hfull). lia. }
  assert (l1 = []) as ->.
  { destruct l1 as [|i l1]; [done|]. apply Forall_cons in Hl1 as [Hi _].
    rewrite queued_tasks_fmap, Hq in Hge. simpl in Hge.
    apply Forall_cons in Hge as [Hge _]. unfold task_at in Hge. simpl in Hge.
    unfold task_prio_t in *. lia. }
  simpl in Hq.
  pose proof (pushed_chain _ _ _ _ _ _ _ Hp) as Hch. simpl in Hch.
  destruct Hch as (Hhd & sj & Hsj & Hrest).
  destruct (pushed_item _ _ _ _ _ _ _ Hp) as [n Hn]. simplify_eq.
  simpl in Hrest.
  pose proof (sem_set_vars x true m') as Hv.
  pose proof (wf_length _ _ Hwf) as Hlen.
  pose proof (pushed_length _ _ _ _ _ _ _ Hp) as Hlen'.
  set (m1 := sem_set x true m') in *.
  assert (taskBuf (scheduler_vars m1) !! j = Some (mk_item None p0 n)) as Hsj1
    by (by rewrite Hv).
  assert (load_link L_task_list m1 = Done (Some j) m1) as Hhead
    by (simpl; by rewrite Hv, Hhd).
  assert (violations m1 = violations m) as Hv1.
  { unfold m1. rewrite violations_sem_set. by destruct Hp. }
  exists m1, j.
  split. { by rewrite push_task_unfold, Hint, Hsig. }
  split; [done|].
  split.
  { unfold queue at 1. rewrite Hv. apply chain_lseg.
    - simpl. split; [done|]. eauto.
    - simpl. rewrite Hlen', Hlen. lia. }
  split. { by rewrite (cb_at_lookup _ _ _ Hsj1). }
  split. { by rewrite (prio_at_lookup _ _ _ Hsj1). }
  split. { unfold m1. rewrite sem_set_dbg. by destruct Hp. }
  exists [].
  unfold scheduler_find_next_task_and_execute.
  rewrite (bind_done _ _ _ _ _ Hhead). cbn [is_non_null].
  rewrite (bind_done _ _ _ _ _ Hhead).
  rewrite (bind_done _ _ _ _ _ (prio_in_band_valid _ _ _ _ _ Hsj1)).
  cbn [prio]. rewrite Hin.
  rewrite (bind_done _ _ _ _ _ Hhead).
  rewrite (bind_done _ _ _ _ _ (load_next_valid _ _ _ Hsj1)).
  unfold store_link. unfold bind at 1.
  erewrite bind_done; last by (eapply executeTask_null; [exact Hsj1|done]).
  cbn. by rewrite Hv1.
Qed.

End Further.

(** * The model on the sample configurations *)

Section Samples.
#[local] Existing Instance sample_platform.

Lemma push_all_reaches `{Platform} ps m :
  push_all ps initial = Done tt m → reachable m.
Proof. intros Hrun. by destruct (push_all_reachable ps initial m reach_initial Hrun). Qed.

Lemma one_equal_reachable : reachable one_equal.
Proof. apply (push_all_reaches [(1%nat, 1%N)]). vm_compute. reflexivity. Qed.

Lemma two_rx_reachable : reachable two_rx.
Proof. apply (push_all_reaches [(1%nat, 1%N); (2%nat, 2%N)]). vm_compute. reflexivity. Qed.

(** C1 as the spec words it fails: callback 1 and then callback 2 are pushed
    with priority 1; the list holds callback 2 first, where insertion before
    the first strictly greater priority would put it last, and two
    extractions run callback 2 before callback 1. *)
Lemma equal_priorities_leave_last_in_first_out :
  push_all [(1%nat, 1%N); (2%nat, 1%N)] initial = Done tt two_equal ∧
  queue one_equal = [0%nat] ∧
  queue two_equal = [1%nat; 0%nat] ∧
  queued_tasks two_equal = [(Some 2%nat, 1%N); (Some 1%nat, 1%N)] ∧
  spec_insert_after_equals (prio_at two_equal) 1 (queue one_equal) = [0%nat; 1%nat] ∧
  queue two_equal ≠ spec_insert_after_equals (prio_at two_equal) 1 (queue one_equal) ∧
  ∃ m', extract_n 2 0%N 4%N two_equal = Done tt m' ∧
        executed m' = [(2%nat, 1%N); (1%nat, 1%N)].
Proof.
  split; [vm_compute; reflexivity|]. split; [vm_compute; reflexivity|].
  split; [vm_compute; reflexivity|]. split; [vm_compute; reflexivity|].
  split; [vm_compute; reflexivity|]. split; [vm_compute; discriminate|].
  eexists. split; vm_compute; reflexivity.
Qed.

(** C2: a push with priority 4 gives the semaphore of [vRxTask], whose band
    [0,4) does not contain 4, while the band [4,8) that contains it belongs
    to [vSendDoneTask]; likewise 8 wakes [vSendDoneTask] and belongs to
    [vAppTask], and [TASKPRIO_MAX] is accepted but lies in no band.  After
    the push of callback 7 with priority 4, [vRxTask] wakes, runs nothing and
    leaves the task queued, and [vSendDoneTask] stays blocked. *)
Theorem boundary_priority_wakes_a_worker_that_skips_it :
  signal_of 4%N = Some RxSem ∧
  in_band (band_min RxSem) (band_max RxSem) 4%N = false ∧
  in_band (band_min SendDoneSem) (band_max SendDoneSem) 4%N = true ∧
  signal_of 8%N = Some SendDoneSem ∧
  in_band (band_min SendDoneSem) (band_max SendDoneSem) 8%N = false ∧
  in_band (band_min AppSem) (band_max AppSem) 8%N = true ∧
  signal_of TASKPRIO_MAX = Some AppSem ∧
  (∀ x, in_band (band_min x) (band_max x) TASKPRIO_MAX = false) ∧
  ∃ m1 m2,
    scheduler_push_task (Some 7%nat) 4%N initial = Done tt m1 ∧
    rtos_sched_v m1 = mk_rtos false false true ∧
    vRxTask_body m1 = Done tt m2 ∧
    executed m2 = [] ∧
    queued_tasks m2 = [(Some 7%nat, 4%N)] ∧
    rtos_sched_v m2 = mk_rtos false false false ∧
    vSendDoneTask_body m2 = Blocked m2.
Proof.
  do 7 (split; [vm_compute; reflexivity|]).
  split; [by intros []|].
  eexists _, _. split; [vm_compute; reflexivity|].
  split; [reflexivity|]. split; [vm_compute; reflexivity|].
  repeat split; vm_compute; reflexivity.
Qed.

(** C3: with callbacks of priority 1 and 2 queued, an extraction on the band
    [4,8) returns [FALSE] and leaves the list as it is, but only after it has
    read the priority of [NULL] (twice, the comparison with [minprio]
    succeeding on what the sample configuration reads there). *)
Theorem search_reads_through_null_when_band_is_empty :
  queued_tasks two_rx = [(Some 1%nat, 1%N); (Some 2%nat, 2%N)] ∧
  violations two_rx = [] ∧
  ∃ m',
    scheduler_find_next_task_and_execute 4%N 8%N None two_rx = Done false m' ∧
    violations m' = [Invalid_load None; Invalid_load None] ∧
    scheduler_vars m' = scheduler_vars two_rx ∧
    executed m' = [].
Proof.
  split; [vm_compute; reflexivity|]. split; [reflexivity|].
  eexists. split; [vm_compute; reflexivity|]. repeat split.
Qed.

(** C7 as the spec words it fails: with two tasks of its band queued and
    its semaphore given, [vRxTask] in its loop runs callback 1 and blocks
    again while callback 2 is still queued.  Started from its first line on
    the same state, it spends the signal on the take before the loop and
    blocks without having run either. *)
Lemma single_wake_up_leaves_second_task_queued :
  push_all [(1%nat, 1%N); (2%nat, 2%N)] initial = Done tt two_rx ∧
  sem_value RxSem two_rx = true ∧
  queued_tasks two_rx = [(Some 1%nat, 1%N); (Some 2%nat, 2%N)] ∧
  in_band (band_min RxSem) (band_max RxSem) 1%N = true ∧
  in_band (band_min RxSem) (band_max RxSem) 2%N = true ∧
  (∃ m',
     forever 5 vRxTask_body two_rx = Blocked m' ∧
     executed m' = [(1%nat, 1%N)] ∧
     queued_tasks m' = [(Some 2%nat, 2%N)] ∧
     sem_value RxSem m' = false) ∧
  (∃ m',
     vRxTask 5 two_rx = Blocked m' ∧
     executed m' = [] ∧
     queued_tasks m' = [(Some 1%nat, 1%N); (Some 2%nat, 2%N)] ∧
     sem_value RxSem m' = false).
Proof.
  do 5 (split; [vm_compute; reflexivity|]).
  split; eexists; (split; [vm_compute; reflexivity|]); repeat split.
Qed.

End Samples.

(** ** The theorems at concrete inputs *)

Section Witnesses.
#[local] Existing Instance sample_platform.

Lemma scenario_A_reachable : reachable scenario_A.
Proof. apply (push_all_reaches [(1%nat, 2%N); (2%nat, 1%N)]). vm_compute. reflexivity. Qed.

(** The second push of [two_equal]. *)
Lemma push_inserts_before_equals_witness :
  reachable one_equal ∧
  scheduler_push_task (Some 2%nat) 1%N one_equal = Done tt two_equal ∧
  ∃ j l1 l2,
    queue one_equal = l1 ++ l2 ∧ (j ∉ queue one_equal) ∧
    queue two_equal = l1 ++ j :: l2 ∧
    cb_at two_equal j = Some 2%nat ∧ prio_at two_equal j = 1%N ∧
    (∀ i, i ∈ queue one_equal →
          cb_at two_equal i = cb_at one_equal i ∧
          prio_at two_equal i = prio_at one_equal i) ∧
    Forall (fun i => (prio_at one_equal i < 1)%N) l1 ∧
    Forall (fun i => (1 ≤ prio_at one_equal i)%N) l2 ∧
    queue two_equal = insert_before_equals (prio_at two_equal) j (queue one_equal) ∧
    (∀ i m'', i ∈ queue one_equal → prio_at one_equal i = 1%N →
              queued_since j two_equal m'' → i ∈ queue m'').
Proof.
  assert (scheduler_push_task (Some 2%nat) 1%N one_equal = Done tt two_equal) as Hrun
    by (vm_compute; reflexivity).
  split; [exact one_equal_reachable|]. split; [exact Hrun|].
  exact (push_inserts_before_equals one_equal 2%nat 1%N two_equal
           one_equal_reachable Hrun).
Defined.

Lemma task_list_sorted_witness :
  reachable scenario_A ∧
  sorted_queue scenario_A ∧
  (∀ c p0 m', scheduler_push_task_internal (Some c) p0 scenario_A = Done tt m' →
              sorted_queue m') ∧
  (∀ minprio maxprio pThisTask b m',
     scheduler_find_next_task_and_execute minprio maxprio pThisTask scenario_A
     = Done b m' →
     sorted_queue m').
Proof.
  split; [exact scenario_A_reachable|].
  exact (task_list_sorted scenario_A scenario_A_reachable).
Defined.

(** Scenario B of the spec on a pool of three containers. *)
Lemma push_on_full_pool_resets_witness :
  length (taskBuf (scheduler_vars tiny_full)) = @TASK_LIST_DEPTH tiny_platform ∧
  Forall (fun s => is_Some (cb s)) (taskBuf (scheduler_vars tiny_full)) ∧
  ∃ m', @scheduler_push_task tiny_platform (Some 4%nat) 1%N tiny_full = Reset m' ∧
        scheduler_vars m' = scheduler_vars tiny_full ∧
        scheduler_dbg m' = scheduler_dbg tiny_full ∧
        rtos_sched_v m' = rtos_sched_v tiny_full ∧
        executed m' = executed tiny_full.
Proof.
  assert (length (taskBuf (scheduler_vars tiny_full)) = @TASK_LIST_DEPTH tiny_platform)
    as Hlen by reflexivity.
  assert (Forall (fun s => is_Some (cb s)) (taskBuf (scheduler_vars tiny_full))) as Hfull.
  { vm_compute. repeat constructor; eexists; reflexivity. }
  split; [exact Hlen|]. split; [exact Hfull|].
  exact (@push_on_full_pool_resets tiny_platform tiny_full (Some 4%nat) 1%N Hlen Hfull).
Defined.

(** Scenario A of the spec, drained by two extractions on the band [0,4). *)
Lemma extraction_in_priority_order_witness :
  push_all [(1%nat, 2%N); (2%nat, 1%N)] initial = Done tt scenario_A ∧
  (2 ≤ length (band_tasks 0%N 4%N [(1%nat, 2%N); (2%nat, 1%N)]))%nat ∧
  ∃ m',
    extract_n 2 0%N 4%N scenario_A = Done tt m' ∧
    violations m' = [] ∧
    length (executed m') = 2%nat ∧
    StronglySorted N.le (snd <$> executed m') ∧
    (as_queued <$> executed m') ++ queued_tasks m'
    ≡ₚ as_queued <$> [(1%nat, 2%N); (2%nat, 1%N)] ∧
    ∀ k, (k < 2)%nat →
      ∃ mk mk' i c,
        extract_n k 0%N 4%N scenario_A = Done tt mk ∧
        scheduler_find_next_task_and_execute 0%N 4%N None mk = Done true mk' ∧
        extract_n (S k) 0%N 4%N scenario_A = Done tt mk' ∧
        most_urgent_in_band mk 0%N 4%N i ∧
        cb_at mk i = Some c ∧
        executed mk' = executed mk ++ [(c, prio_at mk i)] ∧
        (∀ j, j ∈ queue mk' ↔ j ∈ queue mk ∧ j ≠ i).
Proof.
  assert (push_all [(1%nat, 2%N); (2%nat, 1%N)] initial = Done tt scenario_A) as Hrun
    by (vm_compute; reflexivity).
  assert (2 ≤ length (band_tasks 0%N 4%N [(1%nat, 2%N); (2%nat, 1%N)]))%nat as Hn
    by (vm_compute; lia).
  split; [exact Hrun|]. split; [exact Hn|].
  exact (extraction_in_priority_order [(1%nat, 2%N); (2%nat, 1%N)] scenario_A 2
           0%N 4%N Hrun Hn).
Defined.

Lemma worker_runs_one_task_per_wake_up_witness :
  reachable two_rx ∧
  sem_value RxSem two_rx = true ∧
  0%nat ∈ queue two_rx ∧
  in_band (band_min RxSem) (band_max RxSem) (prio_at two_rx 0) = true ∧
  (2 ≤ 5)%nat ∧
  ∃ m' l1 i l2 c,
    forever 5 (worker_body RxSem (band_min RxSem) (band_max RxSem)) two_rx
    = Blocked m' ∧
    queue two_rx = l1 ++ i :: l2 ∧
    Forall (fun k => in_band (band_min RxSem) (band_max RxSem) (prio_at two_rx k)
                     = false) l1 ∧
    in_band (band_min RxSem) (band_max RxSem) (prio_at two_rx i) = true ∧
    cb_at two_rx i = Some c ∧
    executed m' = executed two_rx ++ [(c, prio_at two_rx i)] ∧
    queue m' = l1 ++ l2 ∧
    sem_value RxSem m' = false.
Proof.
  assert (sem_value RxSem two_rx = true) as Hsem by reflexivity.
  assert (0%nat ∈ queue two_rx) as Hin.
  { apply (list_elem_of_lookup_2 _ 0%nat). vm_compute. reflexivity. }
  assert (in_band (band_min RxSem) (band_max RxSem) (prio_at two_rx 0) = true) as Hband
    by (vm_compute; reflexivity).
  assert (2 ≤ 5)%nat as Hfuel by lia.
  split; [exact two_rx_reachable|]. split; [exact Hsem|]. split; [exact Hin|].
  split; [exact Hband|]. split; [exact Hfuel|].
  exact (worker_runs_one_task_per_wake_up two_rx RxSem 5 0
           two_rx_reachable Hsem Hin Hband Hfuel).
Defined.

Lemma executeTask_releases_slot_witness :
  taskBuf (scheduler_vars two_rx) !! 0%nat = Some (mk_item (Some 1%nat) 1%N (Some 1%nat)) ∧
  ∃ m', scheduler_executeTask (Some 0%nat) two_rx = Done tt m' ∧
        taskBuf (scheduler_vars m') !! 0%nat = Some (mk_item None TASKPRIO_NONE None) ∧
        (∀ k, k ≠ 0%nat →
              taskBuf (scheduler_vars m') !! k = taskBuf (scheduler_vars two_rx) !! k) ∧
        length (taskBuf (scheduler_vars m')) = length (taskBuf (scheduler_vars two_rx)) ∧
        task_list (scheduler_vars m') = task_list (scheduler_vars two_rx).
Proof.
  assert (taskBuf (scheduler_vars two_rx) !! 0%nat
          = Some (mk_item (Some 1%nat) 1%N (Some 1%nat))) as Hs by reflexivity.
  split; [exact Hs|].
  exact (executeTask_releases_slot two_rx 0 _ Hs).
Defined.

(** Scenario C of the spec: a push with priority 100. *)
Lemma push_unmapped_priority_resets_witness :
  reachable two_rx ∧
  (SCHEDULER_SENDDONETIMER_PRIO_BOUNDARY < 100)%N ∧
  (TASKPRIO_MAX < 100)%N ∧
  ∃ m', scheduler_push_task (Some 5%nat) 100%N two_rx = Reset m' ∧
        executed m' = executed two_rx.
Proof.
  assert (SCHEDULER_SENDDONETIMER_PRIO_BOUNDARY < 100)%N as H8 by reflexivity.
  assert (TASKPRIO_MAX < 100)%N as Hmax by reflexivity.
  split; [exact two_rx_reachable|]. split; [exact H8|]. split; [exact Hmax|].
  exact (push_unmapped_priority_resets two_rx (Some 5%nat) 100%N
           two_rx_reachable H8 Hmax).
Defined.

Lemma debug_counters_track_occupancy_witness :
  Z.of_nat TASK_LIST_DEPTH < DBG_MODULUS ∧
  reachable two_rx ∧
  numTasksCur (scheduler_dbg two_rx) = Z.of_nat (length (occupied_slots two_rx)) ∧
  numTasksCur (scheduler_dbg two_rx) = Z.of_nat (length (queue two_rx)) ∧
  numTasksCur (scheduler_dbg two_rx) ≤ numTasksMax (scheduler_dbg two_rx) ∧
  (∀ c p0 m',
     scheduler_push_task (Some c) p0 two_rx = Done tt m' →
     numTasksCur (scheduler_dbg m') = numTasksCur (scheduler_dbg two_rx) + 1 ∧
     numTasksMax (scheduler_dbg two_rx) ≤ numTasksMax (scheduler_dbg m')) ∧
  (∀ minprio maxprio pThisTask b m',
     scheduler_find_next_task_and_execute minprio maxprio pThisTask two_rx = Done b m' →
     numTasksCur (scheduler_dbg m')
     = (if b then numTasksCur (scheduler_dbg two_rx) - 1
        else numTasksCur (scheduler_dbg two_rx)) ∧
     numTasksMax (scheduler_dbg m') = numTasksMax (scheduler_dbg two_rx)).
Proof.
  assert (Z.of_nat TASK_LIST_DEPTH < DBG_MODULUS) as Hmod by reflexivity.
  split; [exact Hmod|]. split; [exact two_rx_reachable|].
  exact (debug_counters_track_occupancy two_rx Hmod two_rx_reachable).
Defined.

End Witnesses.

(** * The further properties on the sample configurations *)

Section FurtherWitnesses.
#[local] Existing Instance sample_platform.

Lemma at_max_reachable : reachable at_max.
Proof.
  apply (push_all_reachable [(1%nat, 12%N)] initial at_max reach_initial).
  vm_compute. reflexivity.
Qed.

Lemma push_returns_iff_room_and_mapped_witness :
  reachable scenario_A ∧
  ((∃ m', scheduler_push_task (Some 3%nat) 5%N scenario_A = Done tt m')
   ↔ (length (queue scenario_A) < TASK_LIST_DEPTH)%nat ∧
     ((5 ≤ SCHEDULER_SENDDONETIMER_PRIO_BOUNDARY)%N ∨ (5 ≤ TASKPRIO_MAX)%N)) ∧
  ((∃ m', scheduler_push_task (Some 3%nat) 5%N scenario_A = Reset m')
   ↔ ¬ ((length (queue scenario_A) < TASK_LIST_DEPTH)%nat ∧
        ((5 ≤ SCHEDULER_SENDDONETIMER_PRIO_BOUNDARY)%N ∨ (5 ≤ TASKPRIO_MAX)%N))).
Proof.
  split; [exact scenario_A_reachable|].
  exact (push_returns_iff_room_and_mapped scenario_A 3%nat 5%N scenario_A_reachable).
Defined.

Lemma push_takes_first_free_container_witness :
  reachable one_equal ∧
  scheduler_push_task (Some 2%nat) 1%N one_equal = Done tt two_equal ∧
  ∃ j l1 l2,
    queue one_equal = l1 ++ l2 ∧ queue two_equal = l1 ++ j :: l2 ∧
    (j < TASK_LIST_DEPTH)%nat ∧
    cb_at one_equal j = None ∧
    (∀ k, (k < j)%nat → is_Some (cb_at one_equal k)).
Proof.
  assert (scheduler_push_task (Some 2%nat) 1%N one_equal = Done tt two_equal) as Hrun
    by (vm_compute; reflexivity).
  split; [exact one_equal_reachable|]. split; [exact Hrun|].
  exact (push_takes_first_free_container one_equal 2%nat 1%N two_equal
           one_equal_reachable Hrun).
Defined.

Lemma extraction_on_short_list_changes_nothing_witness :
  reachable one_equal ∧
  (length (queue one_equal) ≤ 1)%nat ∧
  Forall (fun k => in_band 4%N 8%N (prio_at one_equal k) = false) (queue one_equal) ∧
  scheduler_find_next_task_and_execute 4%N 8%N None one_equal = Done false one_equal.
Proof.
  assert (length (queue one_equal) ≤ 1)%nat as Hlen by (vm_compute; lia).
  assert (Forall (fun k => in_band 4%N 8%N (prio_at one_equal k) = false)
                 (queue one_equal)) as Hout
    by (vm_compute; repeat constructor).
  split; [exact one_equal_reachable|]. split; [exact Hlen|]. split; [exact Hout|].
  exact (extraction_on_short_list_changes_nothing one_equal 4%N 8%N None
           one_equal_reachable Hlen Hout).
Defined.

Lemma extraction_is_defined_iff_band_task_or_short_list_witness :
  reachable two_rx ∧
  Exists (fun k => in_band 0%N 4%N (prio_at two_rx k) = true) (queue two_rx) ∧
  (∃ b m', scheduler_find_next_task_and_execute 0%N 4%N None two_rx = Done b m' ∧
           violations m' = violations two_rx) ∧
  Forall (fun k => in_band 4%N 8%N (prio_at two_rx k) = false) (queue two_rx) ∧
  (2 ≤ length (queue two_rx))%nat ∧
  ∃ vs, accesses (scheduler_find_next_task_and_execute 4%N 8%N None two_rx)
        = violations two_rx ++ Invalid_load None :: vs.
Proof.
  assert (Exists (fun k => in_band 0%N 4%N (prio_at two_rx k) = true) (queue two_rx))
    as Hin by (vm_compute; left; reflexivity).
  assert (Forall (fun k => in_band 4%N 8%N (prio_at two_rx k) = false) (queue two_rx))
    as Hout by (vm_compute; repeat constructor).
  assert (2 ≤ length (queue two_rx))%nat as Hlen by (vm_compute; lia).
  split; [exact two_rx_reachable|]. split; [exact Hin|]. split.
  { exact (proj1 (extraction_is_defined_iff_band_task_or_short_list two_rx 0%N 4%N
                    None two_rx_reachable) (or_introl Hin)). }
  split; [exact Hout|]. split; [exact Hlen|].
  exact (proj2 (extraction_is_defined_iff_band_task_or_short_list two_rx 4%N 8%N
                  None two_rx_reachable) Hout Hlen).
Defined.

Lemma list_threads_exactly_the_used_containers_witness :
  reachable scenario_A ∧
  Z.of_nat TASK_LIST_DEPTH < DBG_MODULUS ∧
  lseg (taskBuf (scheduler_vars scenario_A)) (task_list (scheduler_vars scenario_A))
       None (queue scenario_A) ∧
  NoDup (queue scenario_A) ∧
  (∀ i, (i < TASK_LIST_DEPTH)%nat → (i ∈ queue scenario_A ↔ is_Some (cb_at scenario_A i))) ∧
  ((length (queue scenario_A) < TASK_LIST_DEPTH)%nat
   ↔ ∃ j, (j < TASK_LIST_DEPTH)%nat ∧ cb_at scenario_A j = None) ∧
  0 ≤ numTasksMax (scheduler_dbg scenario_A) ≤ Z.of_nat TASK_LIST_DEPTH.
Proof.
  assert (Z.of_nat TASK_LIST_DEPTH < DBG_MODULUS) as Hmod by (vm_compute; reflexivity).
  split; [exact scenario_A_reachable|]. split; [exact Hmod|].
  destruct (list_threads_exactly_the_used_containers scenario_A scenario_A_reachable)
    as (Hch & Hnd & Hin & Hroom & Hmax).
  split; [exact Hch|]. split; [exact Hnd|]. split; [exact Hin|]. split; [exact Hroom|].
  exact (Hmax Hmod).
Defined.

Lemma push_then_extract_round_trip_witness :
  reachable one_equal ∧
  scheduler_push_task (Some 2%nat) 1%N one_equal = Done tt two_equal ∧
  in_band 0%N 4%N 1%N = true ∧
  Forall (fun t => in_band 0%N 4%N t.2 = true → (1 ≤ t.2)%N) (queued_tasks one_equal) ∧
  ∃ m2,
    scheduler_find_next_task_and_execute 0%N 4%N None two_equal = Done true m2 ∧
    executed m2 = executed one_equal ++ [(2%nat, 1%N)] ∧
    queued_tasks m2 = queued_tasks one_equal ∧
    length (occupied_slots m2) = length (occupied_slots one_equal).
Proof.
  assert (scheduler_push_task (Some 2%nat) 1%N one_equal = Done tt two_equal) as Hrun
    by (vm_compute; reflexivity).
  assert (in_band 0%N 4%N 1%N = true) as Hband by reflexivity.
  assert (Forall (fun t => in_band 0%N 4%N t.2 = true → (1 ≤ t.2)%N)
                 (queued_tasks one_equal)) as Hge.
  { vm_compute. repeat constructor. intros _ Hlt. discriminate Hlt. }
  split; [exact one_equal_reachable|]. split; [exact Hrun|].
  split; [exact Hband|]. split; [exact Hge|].
  exact (push_then_extract_round_trip one_equal 2%nat 1%N 0%N 4%N None two_equal
           one_equal_reachable Hrun Hband Hge).
Defined.

Lemma no_task_lost_or_run_twice_witness :
  run sample_run initial = Done tt after_sample_run ∧
  (as_queued <$> executed after_sample_run) ++ queued_tasks after_sample_run
  ≡ₚ as_queued <$> pushes_of sample_run.
Proof.
  assert (run sample_run initial = Done tt after_sample_run) as Hrun
    by (vm_compute; reflexivity).
  split; [exact Hrun|].
  exact (no_task_lost_or_run_twice sample_run after_sample_run Hrun).
Defined.

Lemma extractions_run_band_in_list_order_witness :
  reachable scenario_A ∧
  (2 ≤ length (band_tasks 0%N 4%N (queued_tasks scenario_A)))%nat ∧
  ∃ m',
    extract_n 2 0%N 4%N scenario_A = Done tt m' ∧
    violations m' = violations scenario_A ∧
    as_queued <$> executed m'
    = (as_queued <$> executed scenario_A) ++ take_band 2 0%N 4%N (queued_tasks scenario_A) ∧
    queued_tasks m' = drop_band 2 0%N 4%N (queued_tasks scenario_A).
Proof.
  assert (2 ≤ length (band_tasks 0%N 4%N (queued_tasks scenario_A)))%nat as Hn
    by (vm_compute; lia).
  split; [exact scenario_A_reachable|]. split; [exact Hn|].
  exact (extractions_run_band_in_list_order scenario_A 2 0%N 4%N
           scenario_A_reachable Hn).
Defined.

Lemma push_reads_past_the_pool_iff_full_witness :
  reachable two_rx ∧
  (length (queue two_rx) < TASK_LIST_DEPTH)%nat ∧
  accesses (scheduler_push_task (Some 3%nat) 5%N two_rx) = violations two_rx ∧
  @reachable tiny_platform tiny_full ∧
  length (queue tiny_full) = @TASK_LIST_DEPTH tiny_platform ∧
  ∃ m', @scheduler_push_task tiny_platform (Some 4%nat) 1%N tiny_full = Reset m' ∧
        violations m'
        = violations tiny_full ++ [Invalid_load (Some (@TASK_LIST_DEPTH tiny_platform))] ∧
        scheduler_vars m' = scheduler_vars tiny_full.
Proof.
  assert (length (queue two_rx) < TASK_LIST_DEPTH)%nat as Hroom by (vm_compute; lia).
  assert (@reachable tiny_platform tiny_full) as Hfull.
  { apply (@push_all_reachable tiny_platform [(1%nat, 1%N); (2%nat, 5%N); (3%nat, 9%N)]
             (@initial tiny_platform) tiny_full (@reach_initial tiny_platform)).
    vm_compute. reflexivity. }
  assert (length (queue tiny_full) = @TASK_LIST_DEPTH tiny_platform) as Hlen
    by reflexivity.
  split; [exact two_rx_reachable|]. split; [exact Hroom|]. split.
  { exact (proj1 (proj2 (push_reads_past_the_pool_iff_full two_rx 3%nat 5%N
                           two_rx_reachable)) Hroom). }
  split; [exact Hfull|]. split; [exact Hlen|].
  exact (proj2 (proj2 (@push_reads_past_the_pool_iff_full tiny_platform tiny_full
                         4%nat 1%N Hfull)) Hlen).
Defined.

Lemma push_then_worker_runs_a_task_witness :
  reachable one_equal ∧
  scheduler_push_task (Some 2%nat) 2%N one_equal = Done tt two_rx ∧
  2%N ≠ SCHEDULER_STACK_PRIO_BOUNDARY ∧
  2%N ≠ SCHEDULER_SENDDONETIMER_PRIO_BOUNDARY ∧
  2%N ≠ TASKPRIO_MAX ∧
  ∃ x m2 c' p',
    sem_value x two_rx = true ∧
    in_band (band_min x) (band_max x) 2%N = true ∧
    worker_body x (band_min x) (band_max x) two_rx = Done tt m2 ∧
    executed m2 = executed one_equal ++ [(c', p')] ∧
    in_band (band_min x) (band_max x) p' = true ∧
    (p' ≤ 2)%N ∧
    length (queue m2) = length (queue one_equal).
Proof.
  assert (scheduler_push_task (Some 2%nat) 2%N one_equal = Done tt two_rx) as Hrun
    by (vm_compute; reflexivity).
  assert (2%N ≠ SCHEDULER_STACK_PRIO_BOUNDARY) as H4 by (vm_compute; lia).
  assert (2%N ≠ SCHEDULER_SENDDONETIMER_PRIO_BOUNDARY) as H8 by (vm_compute; lia).
  assert (2%N ≠ TASKPRIO_MAX) as Hmax by (vm_compute; lia).
  split; [exact one_equal_reachable|]. split; [exact Hrun|].
  split; [exact H4|]. split; [exact H8|]. split; [exact Hmax|].
  exact (push_then_worker_runs_a_task one_equal 2%nat 2%N two_rx
           one_equal_reachable Hrun H4 H8 Hmax).
Defined.

Lemma task_at_max_priority_is_never_served_witness :
  reachable at_max ∧
  0%nat ∈ queue at_max ∧
  (SCHEDULER_SENDDONETIMER_PRIO_BOUNDARY ≤ prio_at at_max 0)%N ∧
  (TASKPRIO_MAX ≤ prio_at at_max 0)%N ∧
  served_from at_max at_max_served ∧
  0%nat ∈ queue at_max_served ∧
  prio_at at_max_served 0 = prio_at at_max 0 ∧
  cb_at at_max_served 0 = cb_at at_max 0 ∧
  (length (executed at_max) ≤ length (executed at_max_served))%nat ∧
  Forall (fun t => ∃ x, in_band (band_min x) (band_max x) t.2 = true)
         (drop (length (executed at_max)) (executed at_max_served)).
Proof.
  assert (0%nat ∈ queue at_max) as Hq by (vm_compute; left).
  assert (SCHEDULER_SENDDONETIMER_PRIO_BOUNDARY ≤ prio_at at_max 0)%N as H8
    by (vm_compute; discriminate).
  assert (TASKPRIO_MAX ≤ prio_at at_max 0)%N as Hmax by (vm_compute; discriminate).
  assert (served_from at_max at_max_served) as Hserved.
  { apply (served_worker at_max at_max_pushed RxSem).
    - apply (served_push at_max at_max 2%nat 1%N); [apply served_start|].
      vm_compute. reflexivity.
    - vm_compute. reflexivity. }
  split; [exact at_max_reachable|]. split; [exact Hq|]. split; [exact H8|].
  split; [exact Hmax|]. split; [exact Hserved|].
  exact (task_at_max_priority_is_never_served at_max at_max_served 0
           at_max_reachable Hq H8 Hmax Hserved).
Defined.

Lemma scheduler_init_returns_with_every_handle_witness :
  (∀ n, (n < 7)%nat →
        is_Some (heap (stale_boot 7) (length (requests (stale_boot 7)) + n))) ∧
  sem_value RxSem one_equal = true ∧
  ∃ b' m',
    scheduler_init (stale_boot 7) one_equal = (b', Done tt m') ∧
    requests b' = requests (stale_boot 7) ++ init_requests ∧
    (∀ n f, init_fields !! n = Some f →
            get_field f (handles b')
            = heap (stale_boot 7) (length (requests (stale_boot 7)) + n)) ∧
    (∀ f, is_Some (get_field f (handles b'))) ∧
    (∀ x, sem_value x m' = false) ∧
    scheduler_vars m' = scheduler_vars one_equal ∧
    scheduler_dbg m' = scheduler_dbg one_equal ∧
    executed m' = executed one_equal ∧
    violations m' = violations one_equal.
Proof.
  assert (∀ n, (n < 7)%nat →
               is_Some (heap (stale_boot 7) (length (requests (stale_boot 7)) + n)))
    as Hall.
  { intros n Hn. do 7 (destruct n as [|n]; [eexists; reflexivity|]). lia. }
  split; [exact Hall|]. split; [reflexivity|].
  exact (scheduler_init_returns_with_every_handle (stale_boot 7) one_equal Hall).
Defined.

Lemma scheduler_init_resets_at_first_refusal_witness :
  ¬ (∀ n, (n < 7)%nat →
          is_Some (heap (stale_boot 3) (length (requests (stale_boot 3)) + n))) ∧
  ∃ k b',
    (k < 7)%nat ∧
    (∀ n, (n < k)%nat →
          is_Some (heap (stale_boot 3) (length (requests (stale_boot 3)) + n))) ∧
    heap (stale_boot 3) (length (requests (stale_boot 3)) + k) = None ∧
    scheduler_init (stale_boot 3) one_equal = (b', Reset (created_empty k one_equal)) ∧
    scheduler_vars (created_empty k one_equal) = scheduler_vars one_equal ∧
    scheduler_dbg (created_empty k one_equal) = scheduler_dbg one_equal ∧
    requests b' = requests (stale_boot 3) ++ take (S k) init_requests ∧
    (∀ n f, (k ≤ n)%nat → init_fields !! n = Some f →
            get_field f (handles b') = None).
Proof.
  assert (¬ (∀ n, (n < 7)%nat →
                  is_Some (heap (stale_boot 3) (length (requests (stale_boot 3)) + n))))
    as Hnot.
  { intros Hall. assert (3 < 7)%nat as H3 by lia.
    destruct (Hall 3%nat H3) as [v Hv]. vm_compute in Hv. discriminate Hv. }
  split; [exact Hnot|].
  exact (scheduler_init_resets_at_first_refusal (stale_boot 3) one_equal Hnot).
Defined.

Lemma signal_before_first_take_is_swallowed_witness :
  reachable initial ∧
  scheduler_push_task (Some 1%nat) 1%N initial = Done tt one_equal ∧
  signal_of 1%N = Some RxSem ∧
  (0 < 1)%nat ∧
  ∃ m2,
    worker_task RxSem 1 one_equal = Blocked m2 ∧
    sem_value RxSem m2 = false ∧
    executed m2 = executed initial ∧
    queued_tasks m2 = queued_tasks one_equal ∧
    (Some 1%nat, 1%N) ∈ queued_tasks m2.
Proof.
  assert (scheduler_push_task (Some 1%nat) 1%N initial = Done tt one_equal) as Hrun
    by (vm_compute; reflexivity).
  assert (signal_of 1%N = Some RxSem) as Hsig by reflexivity.
  assert (0 < 1)%nat as Hfuel by lia.
  split; [exact reach_initial|]. split; [exact Hrun|]. split; [exact Hsig|].
  split; [exact Hfuel|].
  exact (signal_before_first_take_is_swallowed initial 1%nat 1%N one_equal RxSem 1
           reach_initial Hrun Hsig Hfuel).
Defined.

Lemma null_callback_is_queued_and_called_witness :
  reachable one_equal ∧
  (length (queue one_equal) < TASK_LIST_DEPTH)%nat ∧
  is_Some (signal_of 1%N) ∧
  Forall (fun t => (1 ≤ t.2)%N) (queued_tasks one_equal) ∧
  in_band 0%N 4%N 1%N = true ∧
  ∃ m1 j,
    scheduler_push_task None 1%N one_equal = Done tt m1 ∧
    violations m1 = violations one_equal ∧
    queue m1 = j :: queue one_equal ∧ cb_at m1 j = None ∧ prio_at m1 j = 1%N ∧
    numTasksCur (scheduler_dbg m1)
    = (numTasksCur (scheduler_dbg one_equal) + 1) mod DBG_MODULUS ∧
    ∃ vs,
      accesses (scheduler_find_next_task_and_execute 0%N 4%N None m1)
      = violations one_equal ++ Null_call :: vs.
Proof.
  assert (length (queue one_equal) < TASK_LIST_DEPTH)%nat as Hroom by (vm_compute; lia).
  assert (is_Some (signal_of 1%N)) as Hsig by (eexists; reflexivity).
  assert (Forall (fun t => (1 ≤ t.2)%N) (queued_tasks one_equal)) as Hge.
  { vm_compute. repeat constructor. discriminate. }
  assert (in_band 0%N 4%N 1%N = true) as Hband by reflexivity.
  split; [exact one_equal_reachable|]. split; [exact Hroom|]. split; [exact Hsig|].
  split; [exact Hge|]. split; [exact Hband|].
  exact (null_callback_is_queued_and_called one_equal 1%N 0%N 4%N
           one_equal_reachable Hroom Hsig Hge Hband).
Defined.

End FurtherWitnesses.
